(** * Console filter-and-batch-command engine of [console_cmds.cpp]

    A shallow embedding of the vehicle / town / industry console commands:
    the symbol resolver ([GetStringInfo]), the filter tokenizer and chain
    builder ([CheckMatch]), the matchers ([VehicleMatches], [TownMatches],
    [IndustryMatches]), the per-entity handlers ([DoVehicleCommand],
    [DoTownCommand], [DoIndustryCommand]) and the three dispatchers
    ([ConVehicleCommand], [ConTown], [ConIndustry]).

    C strings are [string]s (argv tokens hold no NUL byte), C enums are
    inductive types with their integer value given by [enum_val], [int] and
    [uint32] are [Z] with the wrap-around written out, and the collaborators
    that live outside this file of the game (entity pools, libc parsers, the
    random source) are fields of the record [Env]. *)

From Stdlib Require Import ZArith List Bool Ascii String Lia Permutation.
Import ListNotations.

Local Open Scope string_scope.
Local Open Scope list_scope.
Local Open Scope Z_scope.

Set Implicit Arguments.

(* ================================================================= *)
(** ** C strings *)

Module CStr.

(** [tolower] in the "C" locale. *)
Definition tolower (c : ascii) : ascii :=
  let n := nat_of_ascii c in
  if (65 <=? n)%nat && (n <=? 90)%nat then ascii_of_nat (n + 32) else c.

Definition code (c : ascii) : Z := Z.of_nat (nat_of_ascii c).

(** [strcasecmp]: only the sign of its result is specified, so the model
    returns -1, 0 or 1.  The strings hold no NUL byte, hence the string that
    ends first is the smaller one. *)
Fixpoint strcasecmp (s1 s2 : string) : Z :=
  match s1, s2 with
  | EmptyString, EmptyString => 0
  | EmptyString, String _ _ => -1
  | String _ _, EmptyString => 1
  | String c1 r1, String c2 r2 =>
      if Ascii.eqb (tolower c1) (tolower c2) then strcasecmp r1 r2
      else if code (tolower c1) <? code (tolower c2) then -1 else 1
  end.

(** [#define stricmp strcasecmp] *)
Definition stricmp := strcasecmp.

(** [strcmp(a, b) == 0] *)
Definition strcmp_eq (s1 s2 : string) : bool := String.eqb s1 s2.

(** [strcspn(s, reject)]: length of the initial segment of [s] holding no
    character of [reject]. *)
Fixpoint strcspn (s : string) (reject : list ascii) : nat :=
  match s with
  | EmptyString => 0%nat
  | String c r =>
      if existsb (Ascii.eqb c) reject then 0%nat else S (strcspn r reject)
  end.

(** [s + n]: the string from offset [n] on (the empty string at or past the
    terminator). *)
Fixpoint offset (n : nat) (s : string) : string :=
  match n, s with
  | O, _ => s
  | S k, String _ r => offset k r
  | S _, EmptyString => EmptyString
  end.

(** [s[n]], the NUL terminator read as [None]. *)
Definition at_ (s : string) (n : nat) : option ascii := String.get n s.

(** [strncpy(dst, s, n); dst[n] = 0] *)
Fixpoint take (n : nat) (s : string) : string :=
  match n, s with
  | S k, String c r => String c (take k r)
  | _, _ => EmptyString
  end.

(** Lowered copy, used to reason about [stricmp]. *)
Fixpoint lower (s : string) : string :=
  match s with
  | EmptyString => EmptyString
  | String c r => String (tolower c) (lower r)
  end.

End CStr.
Import CStr.

(** Return true, if first string is a prefix (case insensitive) of second
    string.  [len_pos] records whether the scan index [len] is positive. *)
Fixpoint str_isprefix_from (len_pos : bool) (s1 s2 : string) : bool :=
  match s1, s2 with
  | String c1 r1, String c2 r2 =>
      if Ascii.eqb (tolower c1) (tolower c2)
      then str_isprefix_from true r1 r2   (* len++ *)
      else false                          (* neither test fires *)
  | String _ _, EmptyString => false      (* !s2[len] && s1[len] *)
  | EmptyString, _ => len_pos             (* len>0 && !s1[len] *)
  end.

Definition str_isprefix (s1 s2 : string) : bool := str_isprefix_from false s1 s2.

(* ================================================================= *)
(** ** Enumerations *)

(** Identifier of alias for matches and commands *)
Definition LIST_ALIAS : Z := -1.

Inductive VehicleCommand :=
| VEHICLE_COMMAND_ALIAS | VEHICLE_INVALID_COMMAND
| VEHICLE_CENTER | VEHICLE_CLONE | VEHICLE_CLONE_SHARED | VEHICLE_DEPOT
| TRAIN_IGNORE | TRAIN_WAGON_INFO | TRAIN_SELL_WAGON | VEHICLE_INFO
| VEHICLE_LEAVE_STATION | VEHICLE_OPEN | VEHICLE_SELL | VEHICLE_SERVICE
| VEHICLE_SKIP_ORDER | VEHICLE_START | VEHICLE_STOP | VEHICLE_TURN
| VEHICLE_INTERVAL | VEHICLE_UNDEPOT | VEHICLE_UNSERVICE | VEHICLE_COUNT.

Inductive TownCommand :=
| TOWN_COMMAND_ALIAS | TOWN_INVALID_COMMAND
| TOWN_CENTER | TOWN_INFO | TOWN_PRINT | TOWN_OPEN | TOWN_OPEN_AUTH
| TOWN_ACTION_AD_SMALL | TOWN_ACTION_AD_MEDIUM | TOWN_ACTION_AD_LARGE
| TOWN_ACTION_ROAD | TOWN_ACTION_STATUE | TOWN_ACTION_FUND
| TOWN_ACTION_EXCLUSIVE | TOWN_ACTION_BRIBE | TOWN_EXPAND | TOWN_DELETE
| TOWN_COUNT.

Inductive IndustryCommand :=
| INDUSTRY_COMMAND_ALIAS | INDUSTRY_INVALID_COMMAND
| INDUSTRY_CENTER | INDUSTRY_INFO | INDUSTRY_OPEN | INDUSTRY_COUNT
| INDUSTRY_DELETE.

Inductive MatchType :=
| MATCH_ALIAS | MATCH_INVALID | MATCH_GENERIC | MATCH_ALL
| MATCH_GROUP | MATCH_CRASHED | MATCH_LENGTH | MATCH_WAGONS | MATCH_ORDERS
| MATCH_SPEED | MATCH_AGE | MATCH_BREAKDOWNS | MATCH_MAXSPEED | MATCH_PROFIT
| MATCH_PROFIT_THIS | MATCH_PROFIT_LAST | MATCH_SERVICE | MATCH_IN_DEPOT
| MATCH_BROKEN
| MATCH_TOWN_POPULATION | MATCH_TOWN_HOUSES | MATCH_TOWN_RATING
| MATCH_TOWN_STATUE | MATCH_TOWN_NO_STATUE | MATCH_TOWN_FUNDING
| MATCH_TOWN_ROADWORKS | MATCH_TOWN_EXCLUSIVE_COMPANY
| MATCH_TOWN_EXCLUSIVE_MONTHS | MATCH_TOWN_EXCLUSIVE_MY_MONTHS
| MATCH_TOWN_EXCLUSIVE_OTHERS_MONTHS | MATCH_TOWN_UNWANTED_MONTHS
| MATCH_TOWN_NOISE | MATCH_TOWN_NOISE_REMAIN | MATCH_TOWN_NOISE_MAX
| MATCH_INDUSTRY_PRODUCTION | MATCH_INDUSTRY_PRODUCTION_THIS
| MATCH_INDUSTRY_PERCENT | MATCH_INDUSTRY_PERCENT_THIS.

(** Subtype of match for numeric matches *)
Inductive MatchSubtype :=
| MATCH_NONE | MATCH_NOT_EQUAL | MATCH_EQUAL | MATCH_LESS
| MATCH_LESS_OR_EQUAL | MATCH_GREATER_OR_EQUAL | MATCH_GREATER.

(** The integer value of an enumerator; distinct enumerators of these
    enumerations have distinct values. *)
Class EnumId (T : Type) := {
  enum_val : T -> Z;
  enum_val_inj : forall a b, enum_val a = enum_val b -> a = b
}.

Definition VehicleCommand_val (c : VehicleCommand) : Z :=
  match c with
  | VEHICLE_COMMAND_ALIAS => LIST_ALIAS | VEHICLE_INVALID_COMMAND => 0
  | VEHICLE_CENTER => 1 | VEHICLE_CLONE => 2 | VEHICLE_CLONE_SHARED => 3
  | VEHICLE_DEPOT => 4 | TRAIN_IGNORE => 5 | TRAIN_WAGON_INFO => 6
  | TRAIN_SELL_WAGON => 7 | VEHICLE_INFO => 8 | VEHICLE_LEAVE_STATION => 9
  | VEHICLE_OPEN => 10 | VEHICLE_SELL => 11 | VEHICLE_SERVICE => 12
  | VEHICLE_SKIP_ORDER => 13 | VEHICLE_START => 14 | VEHICLE_STOP => 15
  | VEHICLE_TURN => 16 | VEHICLE_INTERVAL => 17 | VEHICLE_UNDEPOT => 18
  | VEHICLE_UNSERVICE => 19 | VEHICLE_COUNT => 20
  end.

Definition TownCommand_val (c : TownCommand) : Z :=
  match c with
  | TOWN_COMMAND_ALIAS => LIST_ALIAS | TOWN_INVALID_COMMAND => 0
  | TOWN_CENTER => 1 | TOWN_INFO => 2 | TOWN_PRINT => 3 | TOWN_OPEN => 4
  | TOWN_OPEN_AUTH => 5 | TOWN_ACTION_AD_SMALL => 6
  | TOWN_ACTION_AD_MEDIUM => 7 | TOWN_ACTION_AD_LARGE => 8
  | TOWN_ACTION_ROAD => 9 | TOWN_ACTION_STATUE => 10 | TOWN_ACTION_FUND => 11
  | TOWN_ACTION_EXCLUSIVE => 12 | TOWN_ACTION_BRIBE => 13 | TOWN_EXPAND => 14
  | TOWN_DELETE => 15 | TOWN_COUNT => 16
  end.

Definition IndustryCommand_val (c : IndustryCommand) : Z :=
  match c with
  | INDUSTRY_COMMAND_ALIAS => LIST_ALIAS | INDUSTRY_INVALID_COMMAND => 0
  | INDUSTRY_CENTER => 1 | INDUSTRY_INFO => 2 | INDUSTRY_OPEN => 3
  | INDUSTRY_COUNT => 4 | INDUSTRY_DELETE => 5
  end.

Definition MatchType_val (m : MatchType) : Z :=
  match m with
  | MATCH_ALIAS => LIST_ALIAS | MATCH_INVALID => 0 | MATCH_GENERIC => 1
  | MATCH_ALL => 2 | MATCH_GROUP => 3 | MATCH_CRASHED => 4 | MATCH_LENGTH => 5
  | MATCH_WAGONS => 6 | MATCH_ORDERS => 7 | MATCH_SPEED => 8 | MATCH_AGE => 9
  | MATCH_BREAKDOWNS => 10 | MATCH_MAXSPEED => 11 | MATCH_PROFIT => 12
  | MATCH_PROFIT_THIS => 13 | MATCH_PROFIT_LAST => 14 | MATCH_SERVICE => 15
  | MATCH_IN_DEPOT => 16 | MATCH_BROKEN => 17
  | MATCH_TOWN_POPULATION => 18 | MATCH_TOWN_HOUSES => 19
  | MATCH_TOWN_RATING => 20 | MATCH_TOWN_STATUE => 21
  | MATCH_TOWN_NO_STATUE => 22 | MATCH_TOWN_FUNDING => 23
  | MATCH_TOWN_ROADWORKS => 24 | MATCH_TOWN_EXCLUSIVE_COMPANY => 25
  | MATCH_TOWN_EXCLUSIVE_MONTHS => 26 | MATCH_TOWN_EXCLUSIVE_MY_MONTHS => 27
  | MATCH_TOWN_EXCLUSIVE_OTHERS_MONTHS => 28
  | MATCH_TOWN_UNWANTED_MONTHS => 29 | MATCH_TOWN_NOISE => 30
  | MATCH_TOWN_NOISE_REMAIN => 31 | MATCH_TOWN_NOISE_MAX => 32
  | MATCH_INDUSTRY_PRODUCTION => 33 | MATCH_INDUSTRY_PRODUCTION_THIS => 34
  | MATCH_INDUSTRY_PERCENT => 35 | MATCH_INDUSTRY_PERCENT_THIS => 36
  end.

Ltac enum_inj :=
  let a := fresh "a" in let b := fresh "b" in
  intros a b; destruct a; destruct b; intro; first [ reflexivity | discriminate ].

Lemma VehicleCommand_val_inj :
  forall a b, VehicleCommand_val a = VehicleCommand_val b -> a = b.
Proof. enum_inj. Qed.

Lemma TownCommand_val_inj :
  forall a b, TownCommand_val a = TownCommand_val b -> a = b.
Proof. enum_inj. Qed.

Lemma IndustryCommand_val_inj :
  forall a b, IndustryCommand_val a = IndustryCommand_val b -> a = b.
Proof. enum_inj. Qed.

Lemma MatchType_val_inj :
  forall a b, MatchType_val a = MatchType_val b -> a = b.
Proof. enum_inj. Qed.

#[global] Instance VehicleCommand_enum : EnumId VehicleCommand :=
  {| enum_val := VehicleCommand_val; enum_val_inj := VehicleCommand_val_inj |}.
#[global] Instance TownCommand_enum : EnumId TownCommand :=
  {| enum_val := TownCommand_val; enum_val_inj := TownCommand_val_inj |}.
#[global] Instance IndustryCommand_enum : EnumId IndustryCommand :=
  {| enum_val := IndustryCommand_val; enum_val_inj := IndustryCommand_val_inj |}.
#[global] Instance MatchType_enum : EnumId MatchType :=
  {| enum_val := MatchType_val; enum_val_inj := MatchType_val_inj |}.

(* ================================================================= *)
(** ** Descriptor tables *)

(** Bitmask for [StringInfo.req] *)
Definition FOR_TRAIN    : Z := 0x01.
Definition FOR_ROAD     : Z := 0x02.
Definition FOR_SHIP     : Z := 0x04.
Definition FOR_AIRCRAFT : Z := 0x08.
Definition NOT_CRASHED  : Z := 0x10.
Definition IN_DEPOT     : Z := 0x20.
Definition STOPPED      : Z := 0x40.
Definition IS_ALIAS     : Z := 0x80.
Definition FOR_VEHICLE  : Z :=
  Z.lor (Z.lor (Z.lor FOR_TRAIN FOR_ROAD) FOR_SHIP) FOR_AIRCRAFT.
Definition FOR_TOWN     : Z := 0x100.
Definition FOR_INDUSTRY : Z := 0x200.
Definition USE_PRINTF   : Z := 0x400.
Definition IN_EDITOR    : Z := 0x800.

(** C truth value of [a & b]. *)
Definition has_bits (a b : Z) : bool := negb (Z.land a b =? 0).

Infix "|'" := Z.lor (at level 40, left associativity).

(** Structure mapping one command or match type to its ID *)
Record StringInfo (T : Type) := mkInfo {
  id : T;            (* ID of command or match *)
  name : string;     (* Name of command or match *)
  params : Z;        (* Number of required parameters *)
  req : Z;           (* Requirements for target of command *)
  help : string      (* Help text *)
}.

Definition veh_commands : list (StringInfo VehicleCommand) := [
  mkInfo VEHICLE_COMMAND_ALIAS "centre" 0 0 "";
  mkInfo VEHICLE_CENTER "center" 0 FOR_VEHICLE
    "Center main view on vehicle's location";
  mkInfo VEHICLE_CLONE "clone" 0 (FOR_VEHICLE |' IN_DEPOT)
    "Clone vehicle, if it is in depot. Parameter specifies number of created clones (default 1)";
  mkInfo VEHICLE_CLONE_SHARED "clone_shared" 0 (FOR_VEHICLE |' IN_DEPOT)
    "Same as clone, but with shared orders";
  mkInfo VEHICLE_COUNT "count" 0 FOR_VEHICLE
    "Count vehicles matching given criteria";
  mkInfo VEHICLE_DEPOT "depot" 0 (FOR_VEHICLE |' NOT_CRASHED)
    "Send to depot";
  mkInfo TRAIN_IGNORE "ignore" 0 (FOR_TRAIN |' NOT_CRASHED)
    "Ignore signals";
  mkInfo VEHICLE_INFO "info" 0 FOR_VEHICLE
    "Show vehicle info in console";
  mkInfo VEHICLE_INTERVAL "interval" 1 (FOR_VEHICLE |' NOT_CRASHED)
    "Set servicing interval. Parameter specifies new interval in days/percent";
  mkInfo VEHICLE_LEAVE_STATION "leave" 0 (FOR_VEHICLE |' NOT_CRASHED)
    "Leave station by skipping to next order";
  mkInfo VEHICLE_COMMAND_ALIAS "show" 0 0 "";
  mkInfo VEHICLE_OPEN "open" 0 FOR_VEHICLE
    "Open vehicle window";
  mkInfo VEHICLE_SELL "sell" 0 (FOR_VEHICLE |' STOPPED |' IN_DEPOT)
    "Sell vehicle, if it is stopped in depot";
  mkInfo VEHICLE_SERVICE "service" 0 (FOR_VEHICLE |' NOT_CRASHED)
    "Send for servicing";
  mkInfo VEHICLE_SKIP_ORDER "skip" 0 (FOR_VEHICLE |' NOT_CRASHED)
    "Skip to next order. Optional parameter specifies how many orders to skip ('r' = skip to random order, default is 1)";
  mkInfo VEHICLE_COMMAND_ALIAS "go" 0 0 "";
  mkInfo VEHICLE_START "start" 0 (FOR_VEHICLE |' NOT_CRASHED)
    "Start vehicle";
  mkInfo VEHICLE_STOP "stop" 0 (FOR_VEHICLE |' NOT_CRASHED)
    "Stop vehicle";
  mkInfo VEHICLE_COMMAND_ALIAS "reverse" 0 0 "";
  mkInfo VEHICLE_TURN "turn" 0 (FOR_TRAIN |' FOR_ROAD |' NOT_CRASHED)
    "Turn around";
  mkInfo VEHICLE_UNSERVICE "unservice" 0 (FOR_VEHICLE |' NOT_CRASHED)
    "Cancel order to be sent for servicing";
  mkInfo VEHICLE_UNDEPOT "undepot" 0 (FOR_VEHICLE |' NOT_CRASHED)
    "Cancel order to be sent to depot";
  mkInfo TRAIN_WAGON_INFO "winfo" 0 FOR_TRAIN
    "Show info about train wagons in console";
  mkInfo TRAIN_SELL_WAGON "wsell" 1 (FOR_TRAIN |' STOPPED |' IN_DEPOT)
    "Sell train wagons(s). If one parameter is given, single wagon will be sold. If two parameters are given, they will specify range of wagons to sell."
].

Definition town_commands : list (StringInfo TownCommand) := [
  mkInfo TOWN_COMMAND_ALIAS "centre" 0 0 "";
  mkInfo TOWN_CENTER "center" 0 FOR_TOWN "Center main view on town location";
  mkInfo TOWN_COUNT "count" 0 FOR_TOWN "Count towns matching given criteria";
  mkInfo TOWN_INFO "info" 0 FOR_TOWN "Show town info in console";
  mkInfo TOWN_PRINT "print" 0 FOR_TOWN "Print town name in console";
  mkInfo TOWN_COMMAND_ALIAS "show" 0 0 "";
  mkInfo TOWN_OPEN "open" 0 FOR_TOWN "Open town window";
  mkInfo TOWN_OPEN_AUTH "auth" 0 FOR_TOWN "Open town authority window";
  mkInfo TOWN_COMMAND_ALIAS "small_ad" 0 0 "";
  mkInfo TOWN_ACTION_AD_SMALL "ad_small" 0 FOR_TOWN
    "Launch small advertising campaign in the town";
  mkInfo TOWN_COMMAND_ALIAS "medium_ad" 0 0 "";
  mkInfo TOWN_ACTION_AD_MEDIUM "ad_medium" 0 FOR_TOWN
    "Launch medium advertising campaign in the town";
  mkInfo TOWN_COMMAND_ALIAS "large_ad" 0 0 "";
  mkInfo TOWN_ACTION_AD_LARGE "ad_large" 0 FOR_TOWN
    "Launch large advertising campaign in the town";
  mkInfo TOWN_COMMAND_ALIAS "reconstruction" 0 0 "";
  mkInfo TOWN_ACTION_ROAD "road" 0 FOR_TOWN "Fund road reconstruction in town";
  mkInfo TOWN_ACTION_STATUE "statue" 0 FOR_TOWN "Build statue in town";
  mkInfo TOWN_COMMAND_ALIAS "building" 0 0 "";
  mkInfo TOWN_ACTION_FUND "fund" 0 FOR_TOWN "Fund construction of new buildings";
  mkInfo TOWN_ACTION_EXCLUSIVE "exclusive" 0 FOR_TOWN "Buy exclusive rights in town";
  mkInfo TOWN_ACTION_BRIBE "bribe" 0 FOR_TOWN "Bribe town authority";
  mkInfo TOWN_EXPAND "expand" 0 (FOR_TOWN |' IN_EDITOR)
    "Expand town (scenario editor only) Parameter specifies number of repetitions (default 1)";
  mkInfo TOWN_DELETE "delete" 0 (FOR_TOWN |' IN_EDITOR)
    "Delete the town (scenario editor only)"
].

Definition ind_commands : list (StringInfo IndustryCommand) := [
  mkInfo INDUSTRY_COMMAND_ALIAS "centre" 0 0 "";
  mkInfo INDUSTRY_CENTER "center" 0 FOR_INDUSTRY "Center main view on industry location";
  mkInfo INDUSTRY_COUNT "count" 0 FOR_INDUSTRY "Count industries matching given criteria";
  mkInfo INDUSTRY_INFO "info" 0 FOR_INDUSTRY "Show industry info in console";
  mkInfo INDUSTRY_COMMAND_ALIAS "show" 0 0 "";
  mkInfo INDUSTRY_OPEN "open" 0 FOR_INDUSTRY "Open industry window";
  mkInfo INDUSTRY_DELETE "delete" 0 FOR_INDUSTRY "Delete the industry"
].

(** List of all non-numeric match names. *)
Definition match_nn_info : list (StringInfo MatchType) := [
  mkInfo MATCH_ALL "all" 0 (FOR_VEHICLE |' FOR_INDUSTRY |' FOR_TOWN |' USE_PRINTF)
    " for all %ss";
  mkInfo MATCH_ALL "*" 0 (FOR_VEHICLE |' FOR_INDUSTRY |' FOR_TOWN |' USE_PRINTF)
    " for all %ss";
  mkInfo MATCH_BROKEN "broken" 0 (FOR_VEHICLE |' USE_PRINTF)
    " for all broken down %ss";
  mkInfo MATCH_CRASHED "crashed" 0 (FOR_VEHICLE |' USE_PRINTF)
    " for all crashed %ss";
  mkInfo MATCH_IN_DEPOT "depot" 0 (FOR_VEHICLE |' USE_PRINTF)
    " for all %ss in depot";
  mkInfo MATCH_TOWN_STATUE "statue" 0 FOR_TOWN
    " for all towns where you have a statue";
  mkInfo MATCH_TOWN_NO_STATUE "no_statue" 0 FOR_TOWN
    " for all towns where you don't have a statue"
].

(** List of all numeric match names. *)
Definition match_info : list (StringInfo MatchType) := [
  mkInfo MATCH_AGE "age" 0 FOR_VEHICLE "=[value] for matching age (in years)";
  mkInfo MATCH_BREAKDOWNS "breakdowns" 0 FOR_VEHICLE
    "=[value] for matching breakdowns since last service";
  mkInfo MATCH_LENGTH "len" 0 FOR_TRAIN
    "=[value] for matching train length (in tiles)";
  mkInfo MATCH_MAXSPEED "maxspeed" 0 FOR_VEHICLE
    "=[value] for matching maximum speed (in km/h)";
  mkInfo MATCH_ORDERS "orders" 0 FOR_VEHICLE
    "=[value] for matching number of orders";
  mkInfo MATCH_GROUP "group" 0 FOR_VEHICLE "=[name] for matching group by name";
  mkInfo MATCH_PROFIT "profit" 0 FOR_VEHICLE
    "=[value] for matching sum of this and last year's profit (in pounds)";
  mkInfo MATCH_PROFIT_THIS "profit_this" 0 FOR_VEHICLE
    "=[value] for matching this year's profit (in pounds)";
  mkInfo MATCH_PROFIT_LAST "profit_last" 0 FOR_VEHICLE
    "=[value] for matching last year's profit (in pounds)";
  mkInfo MATCH_SERVICE "service" 0 FOR_VEHICLE
    "=[value] for matching service interval (in days/percent)";
  mkInfo MATCH_SPEED "speed" 0 FOR_VEHICLE
    "=[value] for matching current speed (in km/h)";
  mkInfo MATCH_WAGONS "wagons" 0 FOR_TRAIN
    "=[value] for matching number of train wagons";
  mkInfo MATCH_TOWN_POPULATION "population" 0 FOR_TOWN
    "=[value] for matching town population";
  mkInfo MATCH_TOWN_HOUSES "houses" 0 FOR_TOWN
    "=[value] for matching number of town houses";
  mkInfo MATCH_TOWN_RATING "rating" 0 FOR_TOWN
    "=[value] for matching your rating in town";
  mkInfo MATCH_TOWN_NOISE "currnoise" 0 FOR_TOWN
    "=[value] for matching currently used noise level";
  mkInfo MATCH_TOWN_NOISE_REMAIN "noise" 0 FOR_TOWN
    "=[value] for matching remaining (usable by you) noise level";
  mkInfo MATCH_TOWN_NOISE_MAX "maxnoise" 0 FOR_TOWN
    "=[value] for matching maximal noise level";
  mkInfo MATCH_TOWN_FUNDING "fund" 0 FOR_TOWN
    "=[value] for matching months remaining in building funding";
  mkInfo MATCH_TOWN_ROADWORKS "roadworks" 0 FOR_TOWN
    "=[value] for matching months remaining in road reconstructions";
  mkInfo MATCH_TOWN_EXCLUSIVE_COMPANY "exclusive" 0 FOR_TOWN
    "=[value] for matching company having exclusive rights";
  mkInfo MATCH_TOWN_EXCLUSIVE_MONTHS "any_exclusive" 0 FOR_TOWN
    "=[value] for matching months of remaining exclusive rights for any company";
  mkInfo MATCH_TOWN_EXCLUSIVE_MY_MONTHS "my_exclusive" 0 FOR_TOWN
    "=[value] for matching months of remaining exclusive rights for your company";
  mkInfo MATCH_TOWN_EXCLUSIVE_OTHERS_MONTHS "other_exclusive" 0 FOR_TOWN
    "=[value] for matching months of remaining exclusive rights for any competitor company";
  mkInfo MATCH_TOWN_UNWANTED_MONTHS "unwanted" 0 FOR_TOWN
    "=[value] for matching months you are unwanted in town due to bribe";
  mkInfo MATCH_INDUSTRY_PRODUCTION "production" 0 FOR_INDUSTRY
    "=[value] for matching industry production last month";
  mkInfo MATCH_INDUSTRY_PRODUCTION_THIS "thisproduction" 0 FOR_INDUSTRY
    "=[value] for matching industry production this month";
  mkInfo MATCH_INDUSTRY_PERCENT "percent" 0 FOR_INDUSTRY
    "=[value] for percent transported last month";
  mkInfo MATCH_INDUSTRY_PERCENT_THIS "thispercent" 0 FOR_INDUSTRY
    "=[value] for percent transported this month"
].

(** Invalid commands and the invalid match *)
Definition INVALID_COMMAND_VEHICLE := mkInfo VEHICLE_INVALID_COMMAND "" 0 0 "".
Definition INVALID_COMMAND_TOWN := mkInfo TOWN_INVALID_COMMAND "" 0 0 "".
Definition INVALID_COMMAND_INDUSTRY := mkInfo INDUSTRY_INVALID_COMMAND "" 0 0 "".
Definition INVALID_MATCH := mkInfo MATCH_INVALID "" 0 0 "".

(* ================================================================= *)
(** ** Resolver *)

Section Resolver.
Context {T : Type} `{EnumId T}.

(** C truth value of [cmd.id]. *)
Definition id_set (d : StringInfo T) : bool := negb (enum_val (id d) =? 0).

Definition is_alias (d : StringInfo T) : bool := enum_val (id d) =? LIST_ALIAS.

(** [while (string_array[real_i].id == LIST_ALIAS) real_i++;] started at the
    head of [arr]; [None] when the scan leaves the array. *)
Fixpoint skip_aliases (arr : list (StringInfo T)) : option (StringInfo T) :=
  match arr with
  | [] => None
  | d :: rest => if is_alias d then skip_aliases rest else Some d
  end.

(** The [for] loop of [GetStringInfo] on the entries from index [i] on, with
    the loop's variables [cmd] and [unique_prefix]. *)
Fixpoint GetStringInfo_from (q : string) (invalid_value : StringInfo T)
    (arr : list (StringInfo T)) (cmd : StringInfo T) (unique_prefix : bool)
    : option (StringInfo T) :=
  match arr with
  | [] => Some (if id_set cmd && unique_prefix then cmd else invalid_value)
  | d :: rest =>
      match skip_aliases arr with
      | None => None
      | Some real =>
          if stricmp q (name d) =? 0 then Some real
          else if str_isprefix q (name d)
                  && negb (enum_val (id real) =? enum_val (id cmd))
          then GetStringInfo_from q invalid_value rest real
                 (if id_set cmd then false else unique_prefix)
          else GetStringInfo_from q invalid_value rest cmd unique_prefix
      end
  end.

(** Get command or match type based on its ID or copy of [invalid_value] if
    ID not recognized; [None] is a read past the end of the table. *)
Definition GetStringInfo (q : string) (invalid_value : StringInfo T)
    (string_array : list (StringInfo T)) : option (StringInfo T) :=
  GetStringInfo_from q invalid_value string_array invalid_value true.

End Resolver.

Definition GetVehicleCommand (q : string) :=
  GetStringInfo q INVALID_COMMAND_VEHICLE veh_commands.
Definition GetTownCommand (q : string) :=
  GetStringInfo q INVALID_COMMAND_TOWN town_commands.
Definition GetIndustryCommand (q : string) :=
  GetStringInfo q INVALID_COMMAND_INDUSTRY ind_commands.
Definition GetMatchType (q : string) :=
  GetStringInfo q INVALID_MATCH match_info.


(* ================================================================= *)
(** ** Fatal stops and fixed-width integers *)

(** The ways the modelled code stops the program instead of returning. *)
Inductive crash :=
| AssertFailed (cond : string)     (* assert(cond) fails *)
| NotReached (fn : string)         (* NOT_REACHED() in function fn *)
| OutOfBounds (what : string)      (* read past the end of an array *)
| NullPointer (what : string)      (* read through a NULL pointer *)
| DivisionByZero (fn : string).    (* integer % or / by zero *)

Inductive result (A : Type) :=
| Done (a : A)
| Crash (c : crash).
Arguments Crash {A} c.

Definition bind {A B} (r : result A) (k : A -> result B) : result B :=
  match r with
  | Done a => k a
  | Crash c => Crash c
  end.

Notation "x <- r ;; k" := (bind r (fun x => k))
  (at level 61, r at next level, right associativity).
Notation "' pat <- r ;; k" := (bind r (fun x => match x with pat => k end))
  (at level 61, pat pattern, r at next level, right associativity).

Definition u32 (x : Z) : Z := x mod 2 ^ 32.
Definition s32 (x : Z) : Z := (x + 2 ^ 31) mod 2 ^ 32 - 2 ^ 31.
Definition s64 (x : Z) : Z := (x + 2 ^ 63) mod 2 ^ 64 - 2 ^ 63.

(** [HasBit(x, y)] *)
Definition HasBit (x y : Z) : bool := Z.testbit x y.

(* ================================================================= *)
(** ** Entities and the environment of a console call *)

Inductive VehicleType :=
| VEH_TRAIN | VEH_ROAD | VEH_SHIP | VEH_AIRCRAFT
| VEH_EFFECT | VEH_DISASTER | VEH_INVALID.

Definition VehicleType_eqb (a b : VehicleType) : bool :=
  match a, b with
  | VEH_TRAIN, VEH_TRAIN | VEH_ROAD, VEH_ROAD | VEH_SHIP, VEH_SHIP
  | VEH_AIRCRAFT, VEH_AIRCRAFT | VEH_EFFECT, VEH_EFFECT
  | VEH_DISASTER, VEH_DISASTER | VEH_INVALID, VEH_INVALID => true
  | _, _ => false
  end.

(** Vehicle status bits and order constants, from vehicle_base.h and
    order_type.h. *)
Definition VS_STOPPED : Z := 0x02.
Definition VS_CRASHED : Z := 0x80.

Definition DEPOT_SERVICE : Z := 2 ^ 28.

Inductive OrderType :=
| OT_NOTHING | OT_GOTO_STATION | OT_GOTO_DEPOT | OT_LOADING | OT_OTHER.

(** [v->current_order] *)
Record Order := mkOrder {
  o_type : OrderType;        (* GetType() *)
  o_index : Z;               (* index *)
  o_halt : bool              (* GetDepotActionType() & ODATFB_HALT *)
}.

(** A further part of a vehicle chain, reached through [Next()]. *)
Record Wagon := mkWagon {
  w_index : Z;               (* index *)
  w_articulated : bool       (* IsArticulatedPart() *)
}.

(** The fields and accessors of [Vehicle] that this file reads. *)
Record Vehicle := mkVehicle {
  v_type : VehicleType;
  v_index : Z;
  v_unitnumber : Z;
  v_display_name : string;   (* rendered STR_VEHICLE_NAME; read nowhere here *)
  v_owner : Z;
  v_tile : Z;
  v_vehstatus : Z;
  v_breakdown_ctr : Z;
  v_in_depot : bool;         (* IsInDepot() *)
  v_service_interval : Z;
  v_cur_speed : Z;
  v_num_orders : Z;          (* GetNumOrders() *)
  v_age : Z;
  v_breakdowns_since_last_service : Z;
  v_cached_max_speed : Z;    (* vcache.cached_max_speed *)
  v_cached_total_length : Z; (* gcache.cached_total_length *)
  v_profit_this_year : Z;
  v_profit_last_year : Z;
  v_group_id : Z;
  v_current_order : Order;
  v_articulated : bool;      (* IsArticulatedPart() *)
  v_next : list Wagon        (* the chain after this part, in Next() order *)
}.

Record Group := mkGroup {
  g_index : Z;
  g_owner : Z;
  g_name : string            (* rendered STR_GROUP_NAME *)
}.

Record Town := mkTown {
  t_index : Z;
  t_name : string;           (* rendered STR_TOWN_NAME *)
  t_xy : Z;
  t_population : Z;          (* cache.population *)
  t_num_houses : Z;          (* cache.num_houses *)
  t_larger_town : bool;
  t_layout : Z;
  t_ratings : Z -> Z;
  t_have_ratings : Z;
  t_noise_reached : Z;
  t_max_noise : Z;           (* MaxTownNoise() *)
  t_fund_buildings_months : Z;
  t_road_build_months : Z;
  t_exclusivity : Z;
  t_exclusive_counter : Z;
  t_statues : Z;
  t_unwanted : Z -> Z
}.

Record Industry := mkIndustry {
  i_index : Z;
  i_town : option Town;      (* the pointer i->town, None when NULL *)
  i_tile : Z;                (* location.tile *)
  i_last_month_production : Z * Z;
  i_last_month_transported : Z * Z;
  i_this_month_production : Z * Z;
  i_this_month_transported : Z * Z;
  i_produced_cargo_valid : bool * bool;        (* produced_cargo[k] != CT_INVALID *)
  i_accepts_cargo_valid : bool * bool * bool   (* accepts_cargo[k] != CT_INVALID *)
}.

Definition INVALID_COMPANY : Z := 0xFF.

(** What a console call reads from the rest of the game: global variables,
    pools, and functions defined outside this file. *)
Record Env := mkEnv {
  local_company : Z;                        (* _local_company *)
  company_ids : list Z;                     (* FOR_ALL_COMPANIES, by index *)
  game_mode_editor : bool;                  (* _game_mode == GM_EDITOR *)
  groups : list Group;                      (* FOR_ALL_GROUPS *)
  towns : list Town;                        (* FOR_ALL_TOWNS *)
  industries : list Industry;               (* FOR_ALL_INDUSTRIES *)
  sort_list : list Vehicle;                 (* GenerateVehicleSortList(&sort_list, vli) *)
  stack_garbage : string;                   (* an automatic char array before its first write *)
  GetArgumentInteger : string -> option Z;        (* console.cpp; uint32 *)
  GetArgumentSignedInteger : string -> option Z;  (* console.cpp; int32 *)
  strtoull0 : string -> option Z;           (* strtoull(arg, &endptr, 0); None when arg == endptr *)
  GetServiceIntervalClamped : Z -> Z -> Z;
  InteractiveRandom : nat -> Z              (* the draw made while handling list entry vi *)
}.

(** [Company::IsValidID(id)] *)
Definition Company_IsValidID (env : Env) (c : Z) : bool :=
  existsb (Z.eqb c) (company_ids env).

(** [Group::IsValidID] and [Group::Get] *)
Definition Group_Get (env : Env) (gid : Z) : option Group :=
  find (fun g => g_index g =? gid) (groups env).

(** Modelled from the spec: [Train::From] of vehicle_base.h, whose body is
    not part of this file; it asserts that the vehicle is a train ("the
    source model asserts a precondition (entity must be a train)"). *)
Definition Train_From (v : Vehicle) : result Vehicle :=
  match v_type v with
  | VEH_TRAIN => Done v
  | _ => Crash (AssertFailed "v->type == Type")
  end.

(** [strtol(s, NULL, 10)] as libc defines it: optional white space, optional
    sign, decimal digits; [None] when no digit follows (no conversion). *)
Definition isspace (c : ascii) : bool :=
  let n := nat_of_ascii c in ((9 <=? n) && (n <=? 13) || (n =? 32))%nat.

Definition digit_val (c : ascii) : option Z :=
  let n := nat_of_ascii c in
  if ((48 <=? n) && (n <=? 57))%nat then Some (Z.of_nat n - 48) else None.

Fixpoint digits (acc : Z) (s : string) : Z :=
  match s with
  | EmptyString => acc
  | String c r =>
      match digit_val c with
      | Some d => digits (10 * acc + d) r
      | None => acc
      end
  end.

Definition starts_with_digit (s : string) : bool :=
  match s with
  | String c _ => match digit_val c with Some _ => true | None => false end
  | EmptyString => false
  end.

Fixpoint skip_space (s : string) : string :=
  match s with
  | String c r => if isspace c then skip_space r else s
  | EmptyString => s
  end.

Definition clamp64 (x : Z) : Z := Z.max (- 2 ^ 63) (Z.min (2 ^ 63 - 1) x).

Definition strtol10 (s : string) : option Z :=
  let '(negative, r) :=
    match skip_space s with
    | String "-" r => (true, r)
    | String "+" r => (false, r)
    | r => (false, r)
    end in
  if starts_with_digit r
  then Some (clamp64 (if negative then - digits 0 r else digits 0 r))
  else None.

(** [atoi(s)] is [(int) strtol(s, NULL, 10)]: 0 when nothing converts. *)
Definition atoi (s : string) : Z :=
  match strtol10 s with
  | Some n => s32 n
  | None => 0
  end.


(* ================================================================= *)
(** ** Filter criteria and the matchers *)

(** Structure with match information; [m_next] is the owned pointer to the
    rest of the chain. *)
#[warnings="-register-all"]
Inductive MatchInfo := mkMatchInfo {
  m_type : MatchType;
  m_subtype : MatchSubtype;
  m_id : string;
  m_next : option MatchInfo
}.

(** Change a string into its monetary representation. *)
Definition GetArgumentMoney (env : Env) (arg : string) : option Z :=
  option_map s64 (strtoull0 env arg).

(** Generic numeric match: compare original value with target value using
    the given compare type. *)
Definition NumericMatch (value : Z) (subtype : MatchSubtype) (target_value : Z)
    : result bool :=
  match subtype with
  | MATCH_EQUAL => Done (value =? target_value)
  | MATCH_NOT_EQUAL => Done (negb (value =? target_value))
  | MATCH_LESS => Done (value <? target_value)
  | MATCH_LESS_OR_EQUAL => Done (value <=? target_value)
  | MATCH_GREATER_OR_EQUAL => Done (value >=? target_value)
  | MATCH_GREATER => Done (value >? target_value)
  | MATCH_NONE => Crash (NotReached "NumericMatch")
  end.

(** The parameter [value] is a [uint32]: the argument is converted on the
    call. *)
Definition NumericValueSubMatch (env : Env) (value : Z) (subtype : MatchSubtype)
    (target_value_str : string) : result bool :=
  match GetArgumentInteger env target_value_str with
  | None => Done false
  | Some target_value => NumericMatch (u32 value) subtype target_value
  end.

Definition MoneyValueSubMatch (env : Env) (value : Z) (subtype : MatchSubtype)
    (target_value_str : string) : result bool :=
  match GetArgumentMoney env target_value_str with
  | None => Done false
  | Some target_value => NumericMatch value subtype target_value
  end.

(** Lexicographical case insensitive string match. *)
Definition StringValueSubMatch (value : string) (subtype : MatchSubtype)
    (target_value : string) : result bool :=
  NumericMatch (strcasecmp value target_value) subtype 0.

(** The chain of parts that starts at [v]: [v], [v->Next()], ... *)
Definition chain (v : Vehicle) : list Wagon :=
  mkWagon (v_index v) (v_articulated v) :: v_next v.

Fixpoint CountWagons_loop (num : Z) (w : list Wagon) : Z :=
  match w with
  | [] => num
  | _ :: next => CountWagons_loop (num + 1) next
  end.

(** Return number of wagons in train.  Engine is also counted as wagon and
    for multi-part wagons or engines, each part is counted. *)
Definition CountWagons (v : Vehicle) : Z := CountWagons_loop 0 (chain v).

(** [Money] is an overflow-safe 64-bit integer: its [+] saturates. *)
Definition money_add (a b : Z) : Z := clamp64 (a + b).

(** The [switch (m->type)] of [VehicleMatches]. *)
Definition VehicleMatches_one (env : Env) (v : Vehicle) (ty : MatchType)
    (st : MatchSubtype) (mid : string) : result bool :=
  match ty with
  | MATCH_ALL => Done true
  | MATCH_CRASHED => Done (Z.land (v_vehstatus v) VS_CRASHED =? VS_CRASHED)
  | MATCH_BROKEN => Done (negb (v_breakdown_ctr v =? 0))
  | MATCH_IN_DEPOT => Done (v_in_depot v)
  | MATCH_SERVICE => NumericValueSubMatch env (v_service_interval v) st mid
  | MATCH_SPEED => NumericValueSubMatch env (v_cur_speed v) st mid
  | MATCH_ORDERS => NumericValueSubMatch env (v_num_orders v) st mid
  | MATCH_AGE => NumericValueSubMatch env (Z.quot (v_age v) 365) st mid
  | MATCH_BREAKDOWNS =>
      NumericValueSubMatch env (v_breakdowns_since_last_service v) st mid
  | MATCH_MAXSPEED =>
      if VehicleType_eqb (v_type v) VEH_TRAIN
      then tr <- Train_From v ;;
           NumericValueSubMatch env (v_cached_max_speed tr) st mid
      else NumericValueSubMatch env (v_cached_max_speed v) st mid
  | MATCH_LENGTH =>
      tr <- Train_From v ;;
      NumericValueSubMatch env (Z.quot (v_cached_total_length tr + 15) 16) st mid
  | MATCH_WAGONS =>
      if VehicleType_eqb (v_type v) VEH_TRAIN
      then NumericValueSubMatch env (CountWagons v) st mid
      else Crash (AssertFailed "v->type == VEH_TRAIN")
  | MATCH_GENERIC => NumericValueSubMatch env (v_unitnumber v) MATCH_EQUAL mid
  | MATCH_PROFIT =>
      MoneyValueSubMatch env
        (money_add (v_profit_this_year v) (v_profit_last_year v)) st mid
  | MATCH_PROFIT_THIS => MoneyValueSubMatch env (v_profit_this_year v) st mid
  | MATCH_PROFIT_LAST => MoneyValueSubMatch env (v_profit_last_year v) st mid
  | MATCH_GROUP =>
      match Group_Get env (v_group_id v) with
      | None => Done false                           (* No group *)
      | Some g => StringValueSubMatch (g_name g) st mid
      end
  | _ => Crash (NotReached "VehicleMatches")
  end.

(** Check if given vehicle matches, considering given match type, subtype
    and ID. *)
Fixpoint VehicleMatches (env : Env) (v : Vehicle) (m : MatchInfo) : result bool :=
  match m with
  | mkMatchInfo ty st mid nx =>
      rest <- match nx with
              | Some n => VehicleMatches env v n     (* Next match in chain *)
              | None => Done true
              end ;;
      if rest then VehicleMatches_one env v ty st mid else Done false
  end.

(** Get name of given town *)
Definition TownName (t : Town) : string := t_name t.

(** The [switch (m->type)] of [TownMatches]. *)
Definition TownMatches_one (env : Env) (t : Town) (ty : MatchType)
    (st : MatchSubtype) (mid : string) : result bool :=
  let have_company := Company_IsValidID env (local_company env) in
  match ty with
  | MATCH_TOWN_POPULATION => NumericValueSubMatch env (t_population t) st mid
  | MATCH_TOWN_HOUSES => NumericValueSubMatch env (t_num_houses t) st mid
  | MATCH_TOWN_RATING =>
      if negb (Company_IsValidID env (local_company env)) then Done false
      else NumericValueSubMatch env (t_ratings t (local_company env)) st mid
  | MATCH_TOWN_NOISE => NumericValueSubMatch env (t_noise_reached t) st mid
  | MATCH_TOWN_NOISE_REMAIN =>
      NumericValueSubMatch env (t_max_noise t - t_noise_reached t) st mid
  | MATCH_TOWN_NOISE_MAX => NumericValueSubMatch env (t_max_noise t) st mid
  | MATCH_TOWN_FUNDING =>
      NumericValueSubMatch env (t_fund_buildings_months t) st mid
  | MATCH_TOWN_ROADWORKS => NumericValueSubMatch env (t_road_build_months t) st mid
  | MATCH_TOWN_EXCLUSIVE_COMPANY =>
      if t_exclusive_counter t =? 0 then Done false
      else NumericValueSubMatch env (t_exclusivity t) st mid
  | MATCH_TOWN_EXCLUSIVE_MONTHS =>
      NumericValueSubMatch env (t_exclusive_counter t) st mid
  | MATCH_TOWN_EXCLUSIVE_MY_MONTHS =>
      if negb have_company then Done false
      else if negb (t_exclusivity t =? local_company env) then Done false
      else NumericValueSubMatch env (t_exclusive_counter t) st mid
  | MATCH_TOWN_EXCLUSIVE_OTHERS_MONTHS =>
      if negb have_company then Done false
      else if t_exclusivity t =? local_company env then Done false
      else if t_exclusivity t =? INVALID_COMPANY then Done false
      else NumericValueSubMatch env (t_exclusive_counter t) st mid
  | MATCH_TOWN_STATUE =>
      if negb have_company then Done false
      else Done (HasBit (t_statues t) (local_company env))
  | MATCH_TOWN_NO_STATUE =>
      if negb have_company then Done false
      else Done (negb (HasBit (t_statues t) (local_company env)))
  | MATCH_TOWN_UNWANTED_MONTHS =>
      if negb have_company then Done false
      else NumericValueSubMatch env (t_unwanted t (local_company env)) st mid
  | MATCH_GENERIC =>
      let n_id := atoi mid in
      Done ((stricmp (TownName t) mid =? 0) || (t_index t =? n_id))
  | MATCH_ALL => Done true
  | _ => Crash (NotReached "TownMatches")
  end.

(** Check if given town matches, considering given match type, subtype and
    ID. *)
Fixpoint TownMatches (env : Env) (t : Town) (m : MatchInfo) : result bool :=
  match m with
  | mkMatchInfo ty st mid nx =>
      rest <- match nx with
              | Some n => TownMatches env t n
              | None => Done true
              end ;;
      if rest then TownMatches_one env t ty st mid else Done false
  end.

Definition percent (transport production : Z) : Z :=
  if production =? 0 then 0 else Z.quot (transport * 100) production.

(** The [assert(i->town)] and the [switch (m->type)] of [IndustryMatches]. *)
Definition IndustryMatches_one (env : Env) (i : Industry) (ty : MatchType)
    (st : MatchSubtype) (mid : string) : result bool :=
  match i_town i with
  | None => Crash (AssertFailed "i->town")
  | Some town =>
      match ty with
      | MATCH_GENERIC =>
          let n_id := atoi mid in
          Done ((stricmp (TownName town) mid =? 0) || (i_index i =? n_id))
      | MATCH_ALL => Done true
      | MATCH_INDUSTRY_PRODUCTION =>
          let production :=
            fst (i_last_month_production i) + snd (i_last_month_production i) in
          NumericValueSubMatch env production st mid
      | MATCH_INDUSTRY_PERCENT =>
          let production :=
            fst (i_last_month_production i) + snd (i_last_month_production i) in
          let transport :=
            fst (i_last_month_transported i) + snd (i_last_month_transported i) in
          NumericValueSubMatch env (percent transport production) st mid
      | MATCH_INDUSTRY_PRODUCTION_THIS =>
          let production :=
            fst (i_this_month_production i) + snd (i_this_month_production i) in
          NumericValueSubMatch env production st mid
      | MATCH_INDUSTRY_PERCENT_THIS =>
          let production :=
            fst (i_this_month_production i) + snd (i_this_month_production i) in
          let transport :=
            fst (i_this_month_transported i) + snd (i_this_month_transported i) in
          NumericValueSubMatch env (percent transport production) st mid
      | _ => Crash (NotReached "IndustryMatches")
      end
  end.

(** Check if given industry matches, considering given match type, subtype
    and ID. *)
Fixpoint IndustryMatches (env : Env) (i : Industry) (m : MatchInfo) : result bool :=
  match m with
  | mkMatchInfo ty st mid nx =>
      rest <- match nx with
              | Some n => IndustryMatches env i n
              | None => Done true
              end ;;
      if rest then IndustryMatches_one env i ty st mid else Done false
  end.

(* ================================================================= *)
(** ** Effects of a console call *)

(** The game actions submitted through [DoCommandP]. *)
Inductive Command :=
| CMD_DO_TOWN_ACTION | CMD_CHANGE_SERVICE_INT | CMD_SKIP_TO_ORDER
| CMD_FORCE_TRAIN_PROCEED | CMD_REVERSE_TRAIN_DIRECTION | CMD_TURN_ROADVEH
| CMD_START_STOP_VEHICLE | CMD_CLONE_VEHICLE
| CmdSendToDepot (vt : VehicleType)     (* GetCmdSendToDepot *)
| CmdSellVeh (vt : VehicleType).        (* GetCmdSellVeh *)

(** An argument of a printf-style call. *)
Inductive parg := PS (s : string) | PI (n : Z).

(** What a console call does to the outside, in program order.  Formatted
    output is kept as the format with its arguments; arguments read from
    cargo tables and sizes, which are not modelled, are left out. *)
Inductive event :=
| IConsoleError (msg : string)
| IConsoleHelp (msg : string)
| IConsoleHelpF (fmt : string) (args : list parg)
| IConsolePrintF (fmt : string) (args : list parg)
| ScrollMainWindowToTile (tile : Z)
| ScrollMainWindowTo (vehicle : Z)
| ShowVehicleViewWindow (vehicle : Z)
| ShowTownViewWindow (town : Z)
| ShowTownAuthorityWindow (town : Z)
| ShowIndustryViewWindow (industry : Z)
| GrowTown (town : Z)
| DeleteTown (town : Z)
| DeleteIndustry (industry : Z)
| DoCommandP (tile p1 p2 : Z) (cmd : Command).

Definition is_DoCommandP (e : event) : bool :=
  match e with DoCommandP _ _ _ _ => true | _ => false end.

(** [argv[0]]; the handlers read it only when [argc] is positive. *)
Definition argv0_of (argv : list string) : string := hd "" argv.

(** [argc]: the number of tokens.  It is a [byte]; the console splits a
    line into far fewer than 256 tokens. *)
Definition argc_of (argv : list string) : Z := Z.of_nat (List.length argv).

(* ================================================================= *)
(** ** Per-entity handlers *)

(** The layout names printed by TOWN_INFO (TL_ORIGINAL = 0, ...). *)
Definition layout_str (layout : Z) : string :=
  match layout with
  | 0 => "original"
  | 1 => "better roads"
  | 2 => "2x2"
  | 3 => "3x3"
  | 4 => "random"
  | _ => "?"
  end.

(** Perform command on given town; the result is the [int] returned and the
    effects. *)
Definition DoTownCommand (env : Env) (t : Town) (command : TownCommand)
    (argv : list string) : result (Z * list event) :=
  match command with
  | TOWN_COUNT => Done (1, [])
  | TOWN_CENTER => Done (1, [ScrollMainWindowToTile (t_xy t)])
  | TOWN_PRINT =>
      Done (1, [IConsolePrintF "%-20s  (%d)" [PS (TownName t); PI (t_population t)]])
  | TOWN_INFO =>
      let head :=
        [IConsolePrintF "ID: %4d %-20s, population: %4d houses: %4d%s"
           [PI (t_index t); PS (TownName t); PI (t_population t);
            PI (t_num_houses t);
            PS (if t_larger_town t then " (Larger town)" else "")];
         IConsolePrintF "  Noise: %d/%d, Road layout: %s"
           [PI (t_noise_reached t); PI (t_max_noise t);
            PS (layout_str (t_layout t))]] in
      let fund :=
        if negb (t_fund_buildings_months t =? 0)
        then [IConsolePrintF "  Fund buildings : %d months."
                [PI (t_fund_buildings_months t)]]
        else [] in
      let road :=
        if negb (t_road_build_months t =? 0)
        then [IConsolePrintF " Road reconstruction : %d months."
                [PI (t_road_build_months t)]]
        else [] in
      let company (i : Z) :=
        if HasBit (t_have_ratings t) i || (t_exclusivity t =? i)
           || HasBit (t_statues t) i
        then [IConsolePrintF " Company %2d : rating %d%s%s%s"
                [PI i; PI (t_ratings t i);
                 PS (if t_exclusivity t =? i then " (EXCLUSIVE)" else "");
                 PS (if negb (t_unwanted t i =? 0) then " (UNWANTED)" else "");
                 PS (if HasBit (t_statues t) i then " (STATUE)" else "")]]
             ++ (if t_exclusivity t =? i
                 then [IConsolePrintF "  Exclusivity expires in %d months"
                         [PI (t_exclusive_counter t)]]
                 else [])
             ++ (if negb (t_unwanted t i =? 0)
                 then [IConsolePrintF "  Unwanted for %d months" [PI (t_unwanted t i)]]
                 else [])
        else [] in
      Done (1, head ++ fund ++ road ++ flat_map company (company_ids env))
  | TOWN_OPEN => Done (1, [ShowTownViewWindow (t_index t)])
  | TOWN_OPEN_AUTH => Done (1, [ShowTownAuthorityWindow (t_index t)])
  | TOWN_EXPAND =>
      let rep := if argc_of argv =? 0 then 1 else atoi (argv0_of argv) in
      Done (1, repeat (GrowTown (t_index t)) (Z.to_nat rep))
  | TOWN_DELETE => Done (1, [DeleteTown (t_index t)])
  | TOWN_ACTION_AD_SMALL | TOWN_ACTION_AD_MEDIUM | TOWN_ACTION_AD_LARGE
  | TOWN_ACTION_ROAD | TOWN_ACTION_STATUE | TOWN_ACTION_FUND
  | TOWN_ACTION_EXCLUSIVE | TOWN_ACTION_BRIBE =>
      Done (1, [DoCommandP (t_xy t) (t_index t)
                  (enum_val command - enum_val TOWN_ACTION_AD_SMALL)
                  CMD_DO_TOWN_ACTION])
  | TOWN_COMMAND_ALIAS | TOWN_INVALID_COMMAND =>
      Crash (NotReached "DoTownCommand")
  end.

(** Perform command on given industry. *)
Definition DoIndustryCommand (env : Env) (i : Industry) (command : IndustryCommand)
    (argv : list string) : result (Z * list event) :=
  (* General information; [TownName(i->town)] reads through [i->town] *)
  let general (k : list event -> result (Z * list event)) :=
    match i_town i with
    | Some town =>
        k [IConsolePrintF "ID: %d Town: %-20s" [PI (i_index i); PS (TownName town)];
           IConsolePrintF "  Size: %d x %d" []]
    | None => Crash (NullPointer "i->town")
    end in
  match command with
  | INDUSTRY_COUNT => Done (1, [])
  | INDUSTRY_CENTER => Done (1, [ScrollMainWindowToTile (i_tile i)])
  | INDUSTRY_INFO =>
      let produced (valid : bool) :=
        if valid
        then [IConsolePrintF "  Cargo produced: %s (%d per month, %d waiting)" [];
              IConsolePrintF "    This month transported/produced: %d/%d (%d%%)" [];
              IConsolePrintF "    Last month transported/produced: %d/%d (%d%%)" []]
        else [] in
      let accepted (valid : bool) :=
        if valid then [IConsolePrintF "  Cargo accepted: %s (waiting %d)" []] else [] in
      let '(p0, p1) := i_produced_cargo_valid i in
      let '(a0, a1, a2) := i_accepts_cargo_valid i in
      general (fun head =>
        Done (1, head ++ produced p0 ++ produced p1
                 ++ [IConsolePrintF "  General production level: %d" []]
                 ++ accepted a0 ++ accepted a1 ++ accepted a2))
  | INDUSTRY_OPEN => Done (1, [ShowIndustryViewWindow (i_index i)])
  | INDUSTRY_DELETE =>
      general (fun head => Done (1, head ++ [DeleteIndustry (i_index i)]))
  | INDUSTRY_COMMAND_ALIAS | INDUSTRY_INVALID_COMMAND =>
      Crash (NotReached "DoIndustryCommand")
  end.

(** The loop variables of the wagon-selling scan: the array [to_be_sold]
    and the counter [num_to_sell]. *)
Record sell_state := mkSell {
  to_be_sold : list Z;
  num_to_sell : Z
}.

(** [a[k] = x] on an array held as a list. *)
Fixpoint array_set (a : list Z) (k : nat) (x : Z) : list Z :=
  match a, k with
  | [], _ => []
  | _ :: r, O => x :: r
  | y :: r, S k' => y :: array_set r k' x
  end.

(** [lengthof(to_be_sold)] *)
Definition to_be_sold_len : Z := 100.

(** The scan [for (uint i = 0; i <= max; i++) { while (...) ...; }] of
    TRAIN_SELL_WAGON over the parts from [tr_v] on.  [in_while] is true while
    the inner [while] that skips articulated parts is running, and false at
    the head of the [for]. *)
Fixpoint sell_scan (min max : Z) (in_while : bool) (i : Z) (tr_v : list Wagon)
    (st : sell_state) : sell_state :=
  if negb in_while && negb (i <=? max) then st          (* i <= max fails *)
  else
    match tr_v with
    | [] => st                                          (* End of train *)
    | w :: next =>
        if w_articulated w
        then sell_scan min max true i next st           (* Skip articulated parts *)
        else if i >=? min
        then
          (* Add to sell list; the statement [num_to_sell;] has no effect *)
          let st' := mkSell (array_set (to_be_sold st) (Z.to_nat (num_to_sell st))
                               (w_index w))
                            (num_to_sell st) in
          if num_to_sell st' >=? to_be_sold_len then st'
          else sell_scan min max false (u32 (i + 1)) next st'
        else sell_scan min max false (u32 (i + 1)) next st
    end.

(** Perform command on given vehicle.  [rnd] is the value [InteractiveRandom()]
    returns if this call draws one. *)
Definition DoVehicleCommand (env : Env) (rnd : Z) (v : Vehicle)
    (command : VehicleCommand) (argv : list string) : result (Z * list event) :=
  let argc := argc_of argv in
  let skip_orders (num_orders : Z) : result (Z * list event) :=
    (* Skip to next order if vehicle is stopped in station
       (or fall through from generic skip order) *)
    if match command, o_type (v_current_order v) with
       | VEHICLE_LEAVE_STATION, OT_LOADING => false
       | VEHICLE_LEAVE_STATION, _ => true
       | _, _ => false
       end then Done (0, [])
    else if num_orders =? 0 then Done (0, [])           (* Skip 0 orders *)
    else if v_num_orders v =? 0 then Crash (DivisionByZero "DoVehicleCommand")
    else
      let new_order :=
        Z.rem (s32 (o_index (v_current_order v) + num_orders)) (v_num_orders v) in
      (* If skipped before first, go to last *)
      let new_order := if new_order <? 0 then v_num_orders v else new_order in
      if new_order <? 0 then Crash (AssertFailed "new_order >= 0")
      else Done (1, [DoCommandP (v_tile v) (v_index v) new_order CMD_SKIP_TO_ORDER]) in
  let stopped := has_bits (v_vehstatus v) VS_STOPPED in
  match command with
  | VEHICLE_COUNT => Done (1, [])
  | VEHICLE_OPEN => Done (1, [ShowVehicleViewWindow (v_index v)])
  | VEHICLE_INTERVAL =>
      if argc =? 0 then Crash (AssertFailed "argc")
      else match GetArgumentSignedInteger env (argv0_of argv) with
           | None => Done (0, [])
           | Some new_interval =>
               let new_interval :=
                 GetServiceIntervalClamped env new_interval (v_owner v) in
               if new_interval =? v_service_interval v then Done (0, []) (* No change *)
               else Done (1, [DoCommandP (v_tile v) (v_index v) new_interval
                                CMD_CHANGE_SERVICE_INT])
           end
  | VEHICLE_CENTER => Done (1, [ScrollMainWindowTo (v_index v)])
  | TRAIN_WAGON_INFO =>
      match v_type v with
      | VEH_TRAIN =>
          Done (1, IConsolePrintF "Train #%4d wagons" [PI (v_unitnumber v)]
                   :: map (fun _ =>
                        IConsolePrintF
                          "%2d,  Cargo capacity: %d (%s),  Max speed: %d km/h %s" [])
                        (chain v))
      | _ => Crash (AssertFailed "v->type == VEH_TRAIN")
      end
  | VEHICLE_INFO =>
      let flag (b : bool) (s : string) := PS (if b then s else "") in
      let speed_factor :=
        match v_type v with VEH_AIRCRAFT => 1 | _ => 2 end in
      Done (1,
        [IConsolePrintF "#%4d, Location: [%d, %d, %d]%s%s%s%s"
           [PI (v_unitnumber v);
            flag stopped " (STOPPED)";
            flag (has_bits (v_vehstatus v) VS_CRASHED) " (CRASHED)";
            flag (negb (v_breakdown_ctr v =? 0)) " (BROKEN)";
            flag (v_in_depot v) " (IN DEPOT)"];
         IConsolePrintF "      Age: %d/%d years" [PI (Z.quot (v_age v) 365)]]
        ++ match v_type v with
           | VEH_TRAIN =>
               [IConsolePrintF "      Speed: %d/%d km/h, Orders: %d"
                  [PI (v_cur_speed v); PI (v_cached_max_speed v); PI (v_num_orders v)];
                IConsolePrintF "      Length: %d tiles, Power: %d hp,  Weight: %d t"
                  [PI (Z.quot (v_cached_total_length v + 15) 16)]]
           | _ =>
               [IConsolePrintF "      Speed: %d/%d km/h, Orders: %d"
                  [PI (Z.quot (v_cur_speed v) speed_factor);
                   PI (Z.quot (v_cached_max_speed v) speed_factor);
                   PI (v_num_orders v)]]
           end
        ++ [IConsolePrintF
              "      Service interval: %d days/%%, Breakdowns: %d (reliability %d%%)"
              [PI (v_service_interval v); PI (v_breakdowns_since_last_service v)]])
  | VEHICLE_SKIP_ORDER =>
      let num_orders :=
        if argc =? 0 then 1
        else match String.get 0 (argv0_of argv) with
             | Some c =>
                 if Ascii.eqb (tolower c) "r"%char then s32 rnd
                 else match GetArgumentSignedInteger env (argv0_of argv) with
                      | Some n => n
                      | None => 1
                      end
             | None =>
                 match GetArgumentSignedInteger env (argv0_of argv) with
                 | Some n => n
                 | None => 1
                 end
             end in
      skip_orders num_orders
  | VEHICLE_LEAVE_STATION => skip_orders 1
  | TRAIN_IGNORE =>
      Done (1, [DoCommandP (v_tile v) (v_index v) 0 CMD_FORCE_TRAIN_PROCEED])
  | VEHICLE_TURN =>
      match v_type v with
      | VEH_TRAIN =>
          Done (1, [DoCommandP (v_tile v) (v_index v) 0 CMD_REVERSE_TRAIN_DIRECTION])
      | VEH_ROAD => Done (1, [DoCommandP (v_tile v) (v_index v) 0 CMD_TURN_ROADVEH])
      | _ => Crash (NotReached "DoVehicleCommand")
      end
  | VEHICLE_STOP =>
      if stopped then Done (0, [])
      else Done (1, [DoCommandP (v_tile v) (v_index v) 0 CMD_START_STOP_VEHICLE])
  | VEHICLE_START =>
      if negb stopped then Done (0, [])
      else Done (1, [DoCommandP (v_tile v) (v_index v) 0 CMD_START_STOP_VEHICLE])
  | VEHICLE_DEPOT | VEHICLE_SERVICE | VEHICLE_UNDEPOT | VEHICLE_UNSERVICE =>
      let cmd_is c := enum_val command =? enum_val c in
      let submit :=
        Done (1, [DoCommandP (v_tile v) (v_index v)
                    (if cmd_is VEHICLE_SERVICE || cmd_is VEHICLE_UNSERVICE
                     then DEPOT_SERVICE else 0)
                    (CmdSendToDepot (v_type v))]) in
      if stopped && v_in_depot v then Done (0, [])      (* Already in depot *)
      else
        match o_type (v_current_order v) with
        | OT_GOTO_DEPOT =>
            (* Already heading to a depot *)
            if o_halt (v_current_order v)
            then if cmd_is VEHICLE_DEPOT || cmd_is VEHICLE_UNSERVICE
                 then Done (0, []) else submit
            else if cmd_is VEHICLE_UNDEPOT || cmd_is VEHICLE_SERVICE
                 then Done (0, []) else submit
        | _ =>
            (* Not heading to a depot at all - nothing to cancel *)
            if cmd_is VEHICLE_UNDEPOT || cmd_is VEHICLE_UNSERVICE
            then Done (0, []) else submit
        end
  | VEHICLE_CLONE | VEHICLE_CLONE_SHARED =>
      let num_clones :=
        if argc =? 0 then 1
        else match GetArgumentInteger env (argv0_of argv) with
             | Some n => n
             | None => 1
             end in
      Done (1, repeat (DoCommandP (v_tile v) (v_index v)
                         (match command with VEHICLE_CLONE_SHARED => 1 | _ => 0 end)
                         CMD_CLONE_VEHICLE)
                      (Z.to_nat num_clones))
  | TRAIN_SELL_WAGON =>
      match v_type v with
      | VEH_TRAIN =>
          match argv with
          | [] => Crash (AssertFailed "argc")
          | arg0 :: more =>
              match GetArgumentInteger env arg0 with
              | None => Done (0, [])
              | Some min =>
                  let scan (max : Z) :=
                    let st := sell_scan min max false 0 (chain v)
                                (mkSell (repeat 0 (Z.to_nat to_be_sold_len)) 0) in
                    (* Sell all vehicles in sell list *)
                    Done (1, map (fun sold =>
                                    DoCommandP (v_tile v) sold 0 (CmdSellVeh VEH_TRAIN))
                                 (firstn (Z.to_nat (num_to_sell st)) (to_be_sold st))) in
                  match more with
                  | [] => scan min
                  | arg1 :: _ =>
                      match GetArgumentInteger env arg1 with
                      | None => Done (0, [])
                      | Some max => if max <? min then Done (0, []) else scan max
                      end
                  end
              end
          end
      | _ => Crash (AssertFailed "v->type == VEH_TRAIN")
      end
  | VEHICLE_SELL =>
      Done (1, [DoCommandP (v_tile v) (v_index v)
                  (match v_type v with VEH_TRAIN => 1 | _ => 0 end)
                  (CmdSellVeh (v_type v))])
  | VEHICLE_COMMAND_ALIAS | VEHICLE_INVALID_COMMAND =>
      Crash (NotReached "DoVehicleCommand")
  end.

(* ================================================================= *)
(** ** Group names *)

(** C truth value of a pointer. *)
Definition non_null {A} (p : option A) : bool :=
  match p with Some _ => true | None => false end.

(** The [FOR_ALL_GROUPS] loop of [GetGroupByName] with its variables; [buf]
    is rewritten only for groups of the local company. *)
Fixpoint GetGroupByName_loop (env : Env) (name_ : string) (gs : list Group)
    (buf : string) (nocase_g prefix_g : option Group)
    (unique_nocase unique_prefix : bool) : option Group :=
  match gs with
  | [] =>
      if non_null nocase_g && unique_nocase then nocase_g
      else if non_null prefix_g && unique_prefix then prefix_g
      else None
  | g :: rest =>
      let buf := if g_owner g =? local_company env then g_name g else buf in
      if strcmp_eq buf name_ then Some g                (* Case-sensitive match *)
      else if stricmp buf name_ =? 0                    (* Case-insensitive match *)
      then GetGroupByName_loop env name_ rest buf (Some g) prefix_g
             (if non_null nocase_g then false else unique_nocase) unique_prefix
      else if str_isprefix name_ buf                    (* Case-insensitive prefix match *)
      then GetGroupByName_loop env name_ rest buf nocase_g (Some g)
             unique_nocase (if non_null prefix_g then false else unique_prefix)
      else GetGroupByName_loop env name_ rest buf nocase_g prefix_g
             unique_nocase unique_prefix
  end.

(** Given name of the group, return pointer to it, or return NULL if group
    is not found. *)
Definition GetGroupByName (env : Env) (name_ : string) : option Group :=
  GetGroupByName_loop env name_ (groups env) (stack_garbage env) None None true true.

(* ================================================================= *)
(** ** Help text *)

(** [seprintf(buf, lastof(buf), fmt, arg)] for a format with one [%s]. *)
Fixpoint seprintf1 (fmt arg : string) : string :=
  match fmt with
  | String "%" (String "s" r) => append arg r
  | String c r => String c (seprintf1 r arg)
  | EmptyString => EmptyString
  end.

(** Print generic help for type of matches in commands *)
Definition ConMatchTypeHelp (m_info : list (StringInfo MatchType))
    (target_type : string) (mask : Z) : list event :=
  flat_map (fun mi =>
    if negb (has_bits (req mi) mask) then []            (* Not for this object type. *)
    else if has_bits (req mi) USE_PRINTF
    then [IConsoleHelpF "  %s%s" [PS (name mi); PS (seprintf1 (help mi) target_type)]]
    else [IConsoleHelpF "  %s%s" [PS (name mi); PS (help mi)]]) m_info.

Section Help.
Context {T : Type} `{EnumId T}.

Fixpoint ConCommandsHelp_loop (t_commands : list (StringInfo T)) (mask : Z)
    (alias : string) : list event :=
  match t_commands with
  | [] => []
  | c :: rest =>
      if is_alias c
      then ConCommandsHelp_loop rest mask
             (append (if String.eqb alias "" then " (Aliases: " else append alias ", ")
                     (name c))
      else if negb (has_bits (req c) mask)
      then ConCommandsHelp_loop rest mask ""            (* Reset list of aliases *)
      else
        let alias := if String.eqb alias "" then alias else append alias ")" in
        IConsoleHelpF "  %-15s %s%s" [PS (name c); PS (help c); PS alias]
        :: ConCommandsHelp_loop rest mask ""
  end.

(** Print generic help for town/industry/vehicle commands *)
Definition ConCommandsHelp (target_type argv0 : string)
    (t_commands : list (StringInfo T)) (mask : Z) : list event :=
  [IConsoleHelpF
     "Invoke command on specified %s(s). Usage: '%s <identifier> <command> [<optional command parameters...>]'"
     [PS target_type; PS argv0];
   IConsoleHelp "Command can be:"]
  ++ ConCommandsHelp_loop t_commands mask ""
  ++ [IConsoleHelp "Identifier can be:"]
  ++ ConMatchTypeHelp match_nn_info target_type mask
  ++ [IConsoleHelp
        "Operators < > <= >= and <> can be also used instead of = for following matches:"]
  ++ ConMatchTypeHelp match_info target_type mask
  ++ [IConsoleHelp "You can specify multiple match conditions before the command.";
      IConsoleHelp
        "If you use more than one match condition, you have to separate them by 'and' or '&' parameter. Number of match conditions is not limited."].

End Help.

(* ================================================================= *)
(** ** Tokenizer and filter chain builder *)

(** [Some] of a read past the table, as a fatal stop. *)
Definition in_bounds {A} (what : string) (o : option A) : result A :=
  match o with
  | Some a => Done a
  | None => Crash (OutOfBounds what)
  end.

(** The first entry of [match_nn_info] usable under [mask] whose name equals
    the token, ignoring case. *)
Fixpoint special_match (match_id : string) (mask : Z)
    (nn : list (StringInfo MatchType)) : option MatchType :=
  match nn with
  | [] => None
  | e :: rest =>
      if has_bits (req e) mask && (stricmp match_id (name e) =? 0)
      then Some (id e)
      else special_match match_id mask rest
  end.

(** The characters that start a comparison operator. *)
Definition is_operator_char (c : ascii) : bool :=
  existsb (Ascii.eqb c) ["<"; ">"; "="]%char.

(** The operator found at [match_id[keylen]] and the pointer [id] behind it;
    without an operator [id] stays [match_id]. *)
Definition split_operator (match_id : string) (keylen : nat)
    : string * MatchSubtype :=
  match at_ match_id keylen with
  | Some "="%char => (offset (keylen + 1) match_id, MATCH_EQUAL)
  | Some "<"%char =>
      match at_ match_id (keylen + 1) with
      | Some "="%char => (offset (keylen + 2) match_id, MATCH_LESS_OR_EQUAL)
      | Some ">"%char => (offset (keylen + 2) match_id, MATCH_NOT_EQUAL)
      | _ => (offset (keylen + 1) match_id, MATCH_LESS)
      end
  | Some ">"%char =>
      match at_ match_id (keylen + 1) with
      | Some "="%char => (offset (keylen + 2) match_id, MATCH_GREATER_OR_EQUAL)
      | _ => (offset (keylen + 1) match_id, MATCH_GREATER)
      end
  | _ => (match_id, MATCH_NONE)
  end.

(** Checks [match_id] for known match types and subtypes.  The result is the
    console output and the new [MatchInfo], [None] for the NULL returned on
    an invalid match. *)
Definition CheckMatch_token (match_id : string) (mask : Z)
    : result (list event * option MatchInfo) :=
  (* Check for criteria in form of key=value, key<value, key>=value, etc ... *)
  let keylen := strcspn match_id ["<"; ">"; "="]%char in
  let '(mid, match_subtype) := split_operator match_id keylen in
  keyed <-
    (if (keylen =? 0)%nat then Done (Some MATCH_GENERIC)
     else
       match_ <- in_bounds "match_info" (GetMatchType (take keylen match_id)) ;;
       if id_set match_                                 (* Found some match *)
       then if negb (has_bits (req match_) mask)
            then Done None                              (* invalid match type *)
            else Done (Some (id match_))
       else Done (Some MATCH_GENERIC)) ;;
  match keyed with
  | None =>
      Done ([IConsoleError "You have specified invalid match type for this query."],
            None)
  | Some match_type =>
      (* Check for special match *)
      let match_type :=
        match special_match match_id mask match_nn_info with
        | Some special => special
        | None => match_type
        end in
      (* If no special match is found, keep default generic match *)
      Done ([], Some (mkMatchInfo match_type match_subtype mid None))
  end.

(** [tm->next = m] *)
Definition set_next (tm : MatchInfo) (m : option MatchInfo) : MatchInfo :=
  mkMatchInfo (m_type tm) (m_subtype tm) (m_id tm) m.

Definition is_and (arg : string) : bool :=
  (stricmp arg "and" =? 0) || (stricmp arg "&" =? 0).

(** The [while (argc)] loop of [CheckMatch(argc, argv, mask)]: the output,
    the chain ([None] for NULL) and what is left of [argv]. *)
Fixpoint CheckMatch_loop (mask : Z) (argv : list string) (m : option MatchInfo)
    : result (list event * option MatchInfo * list string) :=
  match argv with
  | [] => Done ([], m, [])
  | arg :: rest =>
      '(out, tm) <- CheckMatch_token arg mask ;;
      match tm with
      | None => Done (out, None, argv)
      | Some tm =>
          let m := Some (set_next tm m) in
          match rest with
          | [] => Done (out, m, [])                     (* Match not followed by command *)
          | next :: rest' =>
              if negb (is_and next) then Done (out, m, rest)
              else                                      (* Match followed by "and" *)
                '(out', m', argv') <- CheckMatch_loop mask rest' m ;;
                Done (out ++ out', m', argv')
          end
      end
  end.

(** Checks argc+argv for known match types and subtypes; [argc] and [argv]
    are passed by reference and come back advanced. *)
Definition CheckMatch (argv : list string) (mask : Z)
    : result (list event * option MatchInfo * list string) :=
  (* Need at least <name> <match> <command> *)
  if argc_of argv <? 3 then Done ([], None, argv)
  else CheckMatch_loop mask (tl argv) None.

(* ================================================================= *)
(** ** Dispatchers *)

(** What a console command hands back: the [bool] it returns and its
    effects. *)
Record outcome := mkOutcome {
  handled : bool;
  log : list event
}.

(** The closing [IConsolePrintF] of the three dispatchers. *)
Definition report_towns (matched affected : Z) : event :=
  IConsolePrintF "Number of towns matched: %d, affected: %d"
    [PI matched; PI affected].
Definition report_industries (matched affected : Z) : event :=
  IConsolePrintF "Number of industries matched: %d, affected: %d"
    [PI matched; PI affected].
Definition report_vehicles (vehicle_name : string) (matched affected : Z) : event :=
  IConsolePrintF "Number of %ss matched: %d, affected: %d"
    [PS vehicle_name; PI matched; PI affected].

(** The loop variables of a dispatcher. *)
Record counters := mkCounters {
  matched : Z;
  affected : Z;
  out : list event
}.

(** Loop through all towns *)
Fixpoint ConTown_loop (env : Env) (m : MatchInfo) (cmd : TownCommand)
    (params_ : list string) (ts : list Town) (c : counters) : result counters :=
  match ts with
  | [] => Done c
  | t :: rest =>
      ok <- TownMatches env t m ;;
      if ok
      then
        (* Town matches criteria; pass rest of parameters to command *)
        '(r, ev) <- DoTownCommand env t cmd params_ ;;
        ConTown_loop env m cmd params_ rest
          (mkCounters (s32 (matched c + 1)) (s32 (affected c + r)) (out c ++ ev))
      else ConTown_loop env m cmd params_ rest c
  end.

(** Perform a town command *)
Definition ConTown (env : Env) (argv : list string) : result outcome :=
  let mask := FOR_TOWN in
  if argc_of argv =? 0
  then Done (mkOutcome true
               (ConCommandsHelp "town" "town" town_commands mask
                ++ [IConsoleHelpF "You can also use:" [];
                    IConsoleHelpF " name of town or ID of town" []]))
  else if argc_of argv <? 3 then Done (mkOutcome false [])
  else
    '(out0, m, argv) <- CheckMatch argv mask ;;
    match m, argv with
    | None, _ => Done (mkOutcome true out0)
    | Some _, [] => Done (mkOutcome false out0)         (* Missing command *)
    | Some m, arg :: params_ =>
        (* Parse command string and get command identifier *)
        cmd <- in_bounds "town_commands" (GetTownCommand arg) ;;
        if negb (id_set cmd)
        then Done (mkOutcome false
                     (out0 ++ [IConsoleError "You have specified invalid command."]))
        else if argc_of argv <? 1 + params cmd
        then Done (mkOutcome true
                     (out0 ++ [IConsoleError "This command requires additional parameter(s)."]))
        else
          let out1 :=
            if negb (game_mode_editor env) && has_bits (req cmd) IN_EDITOR
            then [IConsoleError "This command can be used only in scenario editor"]
            else [] in
          if has_bits (req cmd) IS_ALIAS
          then Crash (AssertFailed "!(cmd.req & IS_ALIAS)")
          else
            c <- ConTown_loop env m (id cmd) params_ (towns env)
                   (mkCounters 0 0 []) ;;
            Done (mkOutcome true
                    (out0 ++ out1 ++ out c
                     ++ [report_towns (matched c) (affected c)]))
    end.

(** Loop through all industries *)
Fixpoint ConIndustry_loop (env : Env) (m : MatchInfo) (cmd : IndustryCommand)
    (params_ : list string) (inds : list Industry) (c : counters) : result counters :=
  match inds with
  | [] => Done c
  | i :: rest =>
      ok <- IndustryMatches env i m ;;
      if ok
      then
        (* Industry matches criteria; pass rest of parameters to command *)
        '(r, ev) <- DoIndustryCommand env i cmd params_ ;;
        ConIndustry_loop env m cmd params_ rest
          (mkCounters (s32 (matched c + 1)) r (out c ++ ev))
      else ConIndustry_loop env m cmd params_ rest c
  end.

(** Perform an industry command *)
Definition ConIndustry (env : Env) (argv : list string) : result outcome :=
  let mask := FOR_INDUSTRY in
  if argc_of argv =? 0
  then Done (mkOutcome true
               (ConCommandsHelp "industry" "industry" ind_commands mask
                ++ [IConsoleHelpF "You can also use:" [];
                    IConsoleHelpF
                      " name of town, to which the industry belongs, or ID of industry" []]))
  else if argc_of argv <? 3 then Done (mkOutcome false [])
  else
    '(out0, m, argv) <- CheckMatch argv mask ;;
    match m, argv with
    | None, _ => Done (mkOutcome true out0)
    | Some _, [] => Done (mkOutcome false out0)         (* Missing command *)
    | Some m, arg :: params_ =>
        cmd <- in_bounds "ind_commands" (GetIndustryCommand arg) ;;
        if negb (id_set cmd)
        then Done (mkOutcome false
                     (out0 ++ [IConsoleError "You have specified invalid command."]))
        else if argc_of argv <? 1 + params cmd
        then Done (mkOutcome true
                     (out0 ++ [IConsoleError "This command requires additional parameter(s)."]))
        else
          let out1 :=
            if negb (game_mode_editor env) && has_bits (req cmd) IN_EDITOR
            then [IConsoleError "This command can be used only in scenario editor"]
            else [] in
          if has_bits (req cmd) IS_ALIAS
          then Crash (AssertFailed "!(cmd.req & IS_ALIAS)")
          else
            c <- ConIndustry_loop env m (id cmd) params_ (industries env)
                   (mkCounters 0 0 []) ;;
            Done (mkOutcome true
                    (out0 ++ out1 ++ out c
                     ++ [report_industries (matched c) (affected c)]))
    end.

(** Check for generic matches and convert them to group matches if
    appropriate: the walk [while (mx) { ...; mx = mx->next; }] with the
    variables [list_type] ([group_list] is [list_type == VL_GROUP_LIST]) and
    [object_id]. *)
Fixpoint convert_group_matches (env : Env) (mx : MatchInfo) (group_list : bool)
    (object_id : Z) : MatchInfo * bool * Z :=
  match mx with
  | mkMatchInfo ty st mid nx =>
      let '(ty, group_list, object_id) :=
        match ty with
        | MATCH_GENERIC =>
            (* Try matching group name for generic match *)
            match GetGroupByName env mid with
            | Some g =>
                if negb group_list
                then (MATCH_ALL, true, g_index g)
                else (MATCH_GROUP, group_list, object_id)
            | None => (ty, group_list, object_id)
            end
        | _ => (ty, group_list, object_id)
        end in
      match nx with
      | None => (mkMatchInfo ty st mid None, group_list, object_id)
      | Some n =>
          let '(n', group_list, object_id) :=
            convert_group_matches env n group_list object_id in
          (mkMatchInfo ty st mid (Some n'), group_list, object_id)
      end
  end.

(** The checks made on a matched vehicle before the command is passed on;
    [Done false] is a [continue]. *)
Definition vehicle_requirements (cmd_req : Z) (v : Vehicle) : result bool :=
  if has_bits cmd_req NOT_CRASHED && has_bits (v_vehstatus v) VS_CRASHED
  then Done false
  else if has_bits cmd_req STOPPED && negb (has_bits (v_vehstatus v) VS_STOPPED)
  then Done false
  else if has_bits cmd_req IN_DEPOT && negb (v_in_depot v)
  then Done false
  else
    (* Check vehicle type in case of commands for multiple vehicle types *)
    match v_type v with
    | VEH_TRAIN => Done (has_bits cmd_req FOR_TRAIN)
    | VEH_ROAD => Done (has_bits cmd_req FOR_ROAD)
    | VEH_SHIP => Done (has_bits cmd_req FOR_SHIP)
    | VEH_AIRCRAFT => Done (has_bits cmd_req FOR_AIRCRAFT)
    | _ => Crash (NotReached "ConVehicleCommand")
    end.

(** For each vehicle in list; [vi] is the list position. *)
Fixpoint ConVehicleCommand_loop (env : Env) (m : MatchInfo)
    (cmd : StringInfo VehicleCommand) (params_ : list string) (vi : nat)
    (vs : list Vehicle) (c : counters) : result counters :=
  match vs with
  | [] => Done c
  | v :: rest =>
      ok <- VehicleMatches env v m ;;
      if ok
      then
        (* Vehicle matches criteria *)
        let c := mkCounters (s32 (matched c + 1)) (affected c) (out c) in
        go <- vehicle_requirements (req cmd) v ;;
        if go
        then
          (* Pass rest of parameters to command *)
          '(r, ev) <- DoVehicleCommand env (InteractiveRandom env vi) v (id cmd) params_ ;;
          ConVehicleCommand_loop env m cmd params_ (S vi) rest
            (mkCounters (matched c) r (out c ++ ev))
        else ConVehicleCommand_loop env m cmd params_ (S vi) rest c
      else ConVehicleCommand_loop env m cmd params_ (S vi) rest c
  end.

(** The [switch (vtype)] that opens [ConVehicleCommand]: the mask and the
    name of the selected kind of vehicle. *)
Definition vehicle_selector (vtype : VehicleType) : result (Z * string) :=
  match vtype with
  | VEH_TRAIN => Done (FOR_TRAIN, "train")
  | VEH_ROAD => Done (FOR_ROAD, "road vehicle")
  | VEH_SHIP => Done (FOR_SHIP, "ship")
  | VEH_AIRCRAFT => Done (FOR_AIRCRAFT, "aircraft")
  | VEH_INVALID => Done (FOR_VEHICLE, "vehicle")
  | _ => Crash (NotReached "ConVehicleCommand")
  end.

(** Perform a vehicle command *)
Definition ConVehicleCommand (env : Env) (argv : list string) (vtype : VehicleType)
    (argv0 : string) : result outcome :=
  '(mask, vehicle_name) <- vehicle_selector vtype ;;
  if argc_of argv =? 0
  then Done (mkOutcome true
               (ConCommandsHelp vehicle_name argv0 veh_commands mask
                ++ [IConsoleHelpF "You can also use:" [];
                    IConsoleHelpF
                      " name of group for all %ss from specified group. Can accept unique prefix of group name"
                      [PS vehicle_name];
                    IConsoleHelpF " %s number for specific %s"
                      [PS vehicle_name; PS vehicle_name]]))
  else if negb (Company_IsValidID env (local_company env))
  then Done (mkOutcome true
               [IConsoleError "You have to own a company to make use of this command."])
  else if argc_of argv <? 3 then Done (mkOutcome false [])
  else
    '(out0, m, argv) <- CheckMatch argv mask ;;
    match m, argv with
    | None, _ => Done (mkOutcome true out0)
    | Some _, [] => Done (mkOutcome false out0)         (* Missing command *)
    | Some m, arg :: params_ =>
        cmd <- in_bounds "veh_commands" (GetVehicleCommand arg) ;;
        if negb (id_set cmd)
        then Done (mkOutcome false
                     (out0 ++ [IConsoleError "You have specified invalid command."]))
        else if argc_of argv <? 1 + params cmd
        then Done (mkOutcome true
                     (out0 ++ [IConsoleError "This command requires additional parameter(s)."]))
        else if negb (has_bits (req cmd) mask)          (* Safety check for correct vehicle type *)
        then Done (mkOutcome true
                     (out0 ++ [IConsolePrintF
                                 " ERROR: The command you have specified cannot be applied to %s."
                                 [PS vehicle_name]]))
        else if has_bits (req cmd) IS_ALIAS
        then Crash (AssertFailed "!(cmd.req & IS_ALIAS)")
        else
          let '(m, _, _) := convert_group_matches env m false 0 in
          (* Generate list of vehicles *)
          c <- ConVehicleCommand_loop env m cmd params_ 0 (sort_list env)
                 (mkCounters 0 0 []) ;;
          Done (mkOutcome true
                  (out0 ++ out c
                   ++ [report_vehicles vehicle_name (matched c) (affected c)]))
    end.

Definition ConTrain (env : Env) (argv : list string) :=
  ConVehicleCommand env argv VEH_TRAIN "train".
Definition ConRoad (env : Env) (argv : list string) :=
  ConVehicleCommand env argv VEH_ROAD "road".
Definition ConShip (env : Env) (argv : list string) :=
  ConVehicleCommand env argv VEH_SHIP "ship".
Definition ConAircraft (env : Env) (argv : list string) :=
  ConVehicleCommand env argv VEH_AIRCRAFT "aircraft".
Definition ConVehicle (env : Env) (argv : list string) :=
  ConVehicleCommand env argv VEH_INVALID "vehicle".

(* ================================================================= *)
(** ** A concrete game state *)

Module Demo.

(** Modelled from the spec: [GetArgumentInteger] of console.cpp, whose body
    is not part of this file ("parse the criterion's literal as an
    integer"; "an unparsable literal makes the predicate evaluate to
    false"): a literal made of decimal digits has its value as a [uint32],
    any other literal does not parse. *)
Fixpoint all_digits (s : string) : bool :=
  match s with
  | EmptyString => true
  | String c r => non_null (digit_val c) && all_digits r
  end.

Definition parse_decimal (s : string) : option Z :=
  match s with
  | EmptyString => None
  | _ => if all_digits s then Some (digits 0 s) else None
  end.

Definition town (index : Z) (name_ : string) (population : Z) : Town :=
  mkTown index name_ (100 + index) population 40 false 0 (fun _ => 0) 0 0 4 0 0
         INVALID_COMPANY 0 0 (fun _ => 0).

Definition alpha : Town := town 0 "Alpha" 1000.
Definition bravo : Town := town 1 "Bravo" 250.

Definition industry (index : Z) (t : Town) : Industry :=
  mkIndustry index (Some t) (500 + index) (80, 0) (40, 0) (10, 0) (5, 0)
             (true, false) (false, false, false).

Definition mine : Industry := industry 0 alpha.
Definition mill : Industry := industry 1 bravo.

Definition vehicle (ty : VehicleType) (index unitnumber : Z) (name_ : string)
    (group : Z) (next : list Wagon) : Vehicle :=
  mkVehicle ty index unitnumber name_ 0 (900 + index) VS_STOPPED 0 true 150 0 2
            400 0 160 24 1000 2000 group (mkOrder OT_NOTHING 0 false) false next.

Definition express : Vehicle :=
  vehicle VEH_TRAIN 10 7 "Express" 3 [mkWagon 11 false; mkWagon 12 true; mkWagon 13 false].
Definition lorry : Vehicle := vehicle VEH_ROAD 20 1 "Lorry" 99 [].

Definition env : Env :=
  mkEnv 0 [0] false [mkGroup 3 0 "Coal"] [alpha; bravo] [mine; mill]
        [express; lorry] "" (fun s => option_map u32 (parse_decimal s))
        parse_decimal parse_decimal (fun interval _ => interval) (fun _ => 5).

End Demo.


(* ================================================================= *)
(** ** Other console commands of the file *)

(** The effects of the commands below: the console and window effects of
    the dispatchers, and the calls these commands make besides. *)
Inductive TextColour := CC_DEFAULT | CC_WARNING | CC_ERROR.
Inductive ScreenshotType := SC_VIEWPORT | SC_ZOOMEDIN | SC_WORLD.

Inductive effect :=
| Console (e : event)
| IConsolePrint (colour : TextColour) (msg : string)
| IConsolePrintFC (colour : TextColour) (fmt : string) (args : list parg)
| IConsoleClose
| MakeScreenshot (type : ScreenshotType) (name_ : option string)
| DoClearSquare (tile : Z)
| NetworkServerKickClient (client_id : Z)
| NetworkServerKickOrBanClient (client_id : Z) (ban : bool)  (* NetworkServerKickOrBanIP(ClientID, bool) *)
| NetworkServerKickOrBanIP (ip : string) (ban : bool)        (* NetworkServerKickOrBanIP(const char *, bool) *)
| BanListErase (index : Z).                                  (* free + _network_ban_list.Erase *)

(** [argv[k]]; read only when [k < argc]. *)
Definition arg (argv : list string) (k : nat) : string := nth k argv "".

(** Print a text buffer line by line to the console; lines are separated by
    a newline.  [line] holds the characters from [p] up to [p2]. *)
Definition newline : ascii := "010"%char.

Fixpoint PrintLineByLine_from (line : string) (p2 : string) : list event :=
  match p2 with
  | EmptyString => []
  | String c rest =>
      if Ascii.eqb c newline
      then IConsolePrintF "%s" [PS line] :: PrintLineByLine_from EmptyString rest
      else PrintLineByLine_from (append line (String c EmptyString)) rest
  end.

Definition PrintLineByLine (buf : string) : list event :=
  PrintLineByLine_from EmptyString buf.

(** Resolve a string to a content type.  [CONTENT_TYPE_END] is 11: the file
    checks that the ten type names of [OutputContentState], indexed by
    [type - 1], number [CONTENT_TYPE_END - CONTENT_TYPE_BEGIN]. *)
Definition CONTENT_TYPE_END : Z := 11.

Definition inv_lookup : list string :=
  [""; "base"; "newgrf"; "ai"; "ailib"; "scenario"; "heightmap"].

Fixpoint StringToContentType_from (str : string) (i : Z) (names : list string) : Z :=
  match names with
  | [] => CONTENT_TYPE_END
  | n :: rest =>
      if strcasecmp str n =? 0 then i else StringToContentType_from str (i + 1) rest
  end.

Definition StringToContentType (str : string) : Z :=
  StringToContentType_from str 1 (tl inv_lookup).   (* there is no type 0 *)

(** The global variables that the hooks and the network commands read, and
    the functions of the network code that they call for a value. *)
Record Network := mkNetwork {
  network_available : bool;                   (* _network_available *)
  network_server : bool;                      (* _network_server *)
  networking : bool;                          (* _networking *)
  client_connected : bool;                    (* MyClient::IsConnected() *)
  newgrf_developer_tools : bool;              (* _settings_client.gui.newgrf_developer_tools *)
  game_mode_menu : bool;                      (* _game_mode == GM_MENU *)
  redirect_console_to_client : Z;             (* _redirect_console_to_client *)
  client_exists : Z -> bool;                  (* NetworkClientInfo::GetByClientID(id) != NULL *)
  kicked_clients : Z -> Z;                    (* value of NetworkServerKickOrBanIP(ClientID, bool) *)
  kicked_addresses : string -> Z;             (* value of NetworkServerKickOrBanIP(const char *, bool) *)
  network_ban_list : list string              (* _network_ban_list *)
}.

Inductive ConsoleHookResult := CHR_ALLOW | CHR_DISALLOW | CHR_HIDE.

Definition echo_error (echo : bool) (msg : string) : list event :=
  if echo then [IConsoleError msg] else [].

(** Check network availability and inform in console about failure of
    detection. *)
Definition NetworkAvailable (net : Network) (echo : bool) : bool * list event :=
  if negb (network_available net)
  then (false, echo_error echo
                 "You cannot use this command because there is no network available.")
  else (true, []).

(** Check whether we are a server. *)
Definition ConHookServerOnly (net : Network) (echo : bool)
    : ConsoleHookResult * list event :=
  let '(ok, out) := NetworkAvailable net echo in
  if negb ok then (CHR_DISALLOW, out)
  else if negb (network_server net)
  then (CHR_DISALLOW,
        out ++ echo_error echo "This command is only available to a network server.")
  else (CHR_ALLOW, out).

(** Check whether we are a client in a network game. *)
Definition ConHookClientOnly (net : Network) (echo : bool)
    : ConsoleHookResult * list event :=
  let '(ok, out) := NetworkAvailable net echo in
  if negb ok then (CHR_DISALLOW, out)
  else if network_server net
  then (CHR_DISALLOW,
        out ++ echo_error echo "This command is not available to a network server.")
  else (CHR_ALLOW, out).

(** Check whether we are in a multiplayer game. *)
Definition ConHookNeedNetwork (net : Network) (echo : bool)
    : ConsoleHookResult * list event :=
  let '(ok, out) := NetworkAvailable net echo in
  if negb ok then (CHR_DISALLOW, out)
  else if negb (networking net)
          || (negb (network_server net) && negb (client_connected net))
  then (CHR_DISALLOW,
        out ++ echo_error echo
                 "Not connected. This command is only available in multiplayer.")
  else (CHR_ALLOW, out).

(** Check whether we are in single player mode. *)
Definition ConHookNoNetwork (net : Network) (echo : bool)
    : ConsoleHookResult * list event :=
  if networking net
  then (CHR_DISALLOW, echo_error echo "This command is forbidden in multiplayer.")
  else (CHR_ALLOW, []).

Definition ConHookNewGRFDeveloperTool (net : Network) (echo : bool)
    : ConsoleHookResult * list event :=
  if newgrf_developer_tools net
  then if game_mode_menu net
       then (CHR_DISALLOW,
             echo_error echo "This command is only available in game and editor.")
       else ConHookNoNetwork net echo
  else (CHR_HIDE, []).

(** The map as the tile commands see it. *)
Record MapInfo := mkMap {
  MapSize : Z;
  MapSizeX : Z;
  MapSizeY : Z;
  TileXY : Z -> Z -> Z
}.

(** Reset a tile to bare land in debug mode. *)
Definition ConResetTile (env : Env) (argv : list string) : bool * list effect :=
  if argc_of argv =? 0
  then (true,
        [Console (IConsoleHelp "Reset a tile to bare land. Usage: 'resettile <tile>'");
         Console (IConsoleHelp
                    "Tile can be either decimal (34161) or hexadecimal (0x4a5B)")])
  else if argc_of argv =? 2
  then match GetArgumentInteger env (arg argv 1) with
       | Some result_ => (true, [DoClearSquare result_])
       | None => (false, [])
       end
  else (false, []).

(** Scroll to a tile on the map. *)
Definition ConScrollToTile (env : Env) (map : MapInfo) (argv : list string)
    : bool * list effect :=
  match argc_of argv with
  | 0 =>
      (true,
       [Console (IConsoleHelp "Center the screen on a given tile.");
        Console (IConsoleHelp "Usage: 'scrollto <tile>' or 'scrollto <x> <y>'");
        Console (IConsoleHelp
                   "Numbers can be either decimal (34161) or hexadecimal (0x4a5B).")])
  | 2 =>
      match GetArgumentInteger env (arg argv 1) with
      | Some result_ =>
          if result_ >=? MapSize map
          then (true, [IConsolePrint CC_ERROR "Tile does not exist"])
          else (true, [Console (ScrollMainWindowToTile result_)])
      | None => (false, [])
      end
  | 3 =>
      match GetArgumentInteger env (arg argv 1), GetArgumentInteger env (arg argv 2) with
      | Some x, Some y =>
          if (x >=? MapSizeX map) || (y >=? MapSizeY map)
          then (true, [IConsolePrint CC_ERROR "Tile does not exist"])
          else (true, [Console (ScrollMainWindowToTile (TileXY map x y))])
      | _, _ => (false, [])
      end
  | _ => (false, [])
  end.

(** Create a screenshot of the game. *)
Definition ConScreenShot (argv : list string) : bool * list effect :=
  let argc := argc_of argv in
  if argc =? 0
  then (true,
        [Console (IConsoleHelp
           "Create a screenshot of the game. Usage: 'screenshot [big | giant | no_con] [file name]'");
         Console (IConsoleHelp
           "'big' makes a zoomed-in screenshot of the visible area, 'giant' makes a screenshot of the whole map, 'no_con' hides the console to create the screenshot. 'big' or 'giant' screenshots are always drawn without console")])
  else if argc >? 3 then (false, [])
  else
    let second := if argc >? 2 then Some (arg argv 2) else None in
    if argc >? 1
    then
      if strcmp_eq (arg argv 1) "big"
      then (true, [MakeScreenshot SC_ZOOMEDIN second])      (* screenshot big [filename] *)
      else if strcmp_eq (arg argv 1) "giant"
      then (true, [MakeScreenshot SC_WORLD second])         (* screenshot giant [filename] *)
      else if strcmp_eq (arg argv 1) "no_con"
      then (true, [IConsoleClose; MakeScreenshot SC_VIEWPORT second])
      else if argc =? 2
      then (true, [MakeScreenshot SC_VIEWPORT (Some (arg argv 1))])  (* screenshot filename *)
      else (false, [])                                      (* invalid *)
    else (true, [MakeScreenshot SC_VIEWPORT None]).

(** [strchr(s, c) != NULL] *)
Fixpoint has_char (c : ascii) (s : string) : bool :=
  match s with
  | EmptyString => false
  | String c' rest => Ascii.eqb c' c || has_char c rest
  end.

Definition CLIENT_ID_SERVER : Z := 1.

(** Kick or ban a client, given by ID or by address. *)
Definition ConKickOrBan (net : Network) (argv1 : string) (ban : bool)
    : bool * list effect :=
  let report (n : Z) : list effect :=
    if n =? 0
    then [IConsolePrint CC_DEFAULT
            (if ban then "Client not online, address added to banlist"
             else "Client not found")]
    else [IConsolePrintFC CC_DEFAULT "%sed %u client(s)"
            [PS (if ban then "Bann" else "Kick"); PI n]] in
  if negb (has_char "." argv1) && negb (has_char ":" argv1)
  then
    (* banning with ID; [ClientID] is kept as the integer that [atoi] gives *)
    let client_id := atoi argv1 in
    (* Don't kill the server, or the client doing the rcon. *)
    if (client_id =? CLIENT_ID_SERVER) || (client_id =? redirect_console_to_client net)
    then (true, [IConsolePrintFC CC_ERROR "ERROR: Silly boy, you can not %s yourself!"
                   [PS (if ban then "ban" else "kick")]])
    else if negb (client_exists net client_id)
    then (true, [Console (IConsoleError "Invalid client")])
    else if negb ban
    then (true, [NetworkServerKickClient client_id])  (* Kick only this client *)
    else
      (* When banning, kick+ban all clients with that IP *)
      (true, NetworkServerKickOrBanClient client_id ban
             :: report (kicked_clients net client_id))
  else (true, NetworkServerKickOrBanIP argv1 ban :: report (kicked_addresses net argv1)).

Definition ConKick (net : Network) (argv : list string) : bool * list effect :=
  if argc_of argv =? 0
  then (true,
        [Console (IConsoleHelp
                    "Kick a client from a network game. Usage: 'kick <ip | client-id>'");
         Console (IConsoleHelp "For client-id's, see the command 'clients'")])
  else if negb (argc_of argv =? 2) then (false, [])
  else ConKickOrBan net (arg argv 1) false.

Definition ConBan (net : Network) (argv : list string) : bool * list effect :=
  if argc_of argv =? 0
  then (true,
        [Console (IConsoleHelp
                    "Ban a client from a network game. Usage: 'ban <ip | client-id>'");
         Console (IConsoleHelp "For client-id's, see the command 'clients'");
         Console (IConsoleHelp
                    "If the client is no longer online, you can still ban his/her IP")])
  else if negb (argc_of argv =? 2) then (false, [])
  else ConKickOrBan net (arg argv 1) true.

(** The loop [for (index = 0; index < Length(); index++) if (strcmp(...) == 0)
    break;] of [ConUnBan]: the index where it stops, from [index] on. *)
Fixpoint ban_list_find (ip : string) (index : Z) (bans : list string) : Z :=
  match bans with
  | [] => index
  | b :: rest => if strcmp_eq b ip then index else ban_list_find ip (index + 1) rest
  end.

(** Unban a client, given by the banned address or by the index in the ban
    list.  The message is formatted into a buffer of 64 bytes. *)
Definition ConUnBan (net : Network) (argv : list string) : bool * list effect :=
  if argc_of argv =? 0
  then (true,
        [Console (IConsoleHelp
                    "Unban a client from a network game. Usage: 'unban <ip | banlist-index>'");
         Console (IConsoleHelp
                    "For a list of banned IP's, see the command 'banlist'")])
  else if negb (argc_of argv =? 2) then (false, [])
  else
    let length_ := Z.of_nat (List.length (network_ban_list net)) in
    (* Try by IP. *)
    let index := ban_list_find (arg argv 1) 0 (network_ban_list net) in
    (* Try by index. *)
    let index := if index >=? length_ then u32 (atoi (arg argv 1) - 1) else index in
    if index <? length_
    then (true,
          [IConsolePrint CC_DEFAULT
             (take 63 (append "Unbanned " (nth (Z.to_nat index) (network_ban_list net) "")));
           BanListErase index])
    else (true,
          [IConsolePrint CC_DEFAULT "Invalid list index or IP not in ban-list.";
           IConsolePrint CC_DEFAULT
             "For a list of banned IP's, see the command 'banlist'"]).

(* ================================================================= *)
(** ** Vocabulary of the properties *)

Section TableShape.
Context {T : Type} `{EnumId T}.

(** The descriptor that the entry at index [i] denotes: the first entry
    from [i] on that is not an alias. *)
Definition real_at (tbl : list (StringInfo T)) (i : nat) : option (StringInfo T) :=
  skip_aliases (skipn i tbl).

(** Every entry denotes a descriptor of the table: no run of aliases
    reaches the end ("all aliases must be listed right before their
    commands"). *)
Fixpoint aliases_resolve (tbl : list (StringInfo T)) : bool :=
  match tbl with
  | [] => true
  | _ :: rest => non_null (skip_aliases tbl) && aliases_resolve rest
  end.

(** Every entry that is not an alias has an ID other than the invalid 0. *)
Definition real_ids_set (tbl : list (StringInfo T)) : bool :=
  forallb (fun d => is_alias d || id_set d) tbl.

Definition info_eqb (a b : StringInfo T) : bool :=
  (enum_val (id a) =? enum_val (id b)) && String.eqb (name a) (name b)
  && (params a =? params b) && (req a =? req b) && String.eqb (help a) (help b).

(** Two entries that are not aliases and carry the same ID are the same
    descriptor. *)
Definition ids_identify (tbl : list (StringInfo T)) : bool :=
  forallb (fun a => forallb (fun b =>
    is_alias a || is_alias b || negb (enum_val (id a) =? enum_val (id b))
    || info_eqb a b) tbl) tbl.

Definition well_formed_table (tbl : list (StringInfo T)) : bool :=
  aliases_resolve tbl && real_ids_set tbl && ids_identify tbl.

(** The entry at index [i] has the query as a case-insensitive prefix, as
    [str_isprefix] tests it. *)
Definition prefix_hit (q : string) (tbl : list (StringInfo T)) (i : nat) : Prop :=
  exists d, nth_error tbl i = Some d /\ str_isprefix q (name d) = true.

End TableShape.

(** The criteria of a chain, each on its own ([next] cleared), head first. *)
Fixpoint criteria (m : MatchInfo) : list MatchInfo :=
  match m with
  | mkMatchInfo ty st mid nx =>
      mkMatchInfo ty st mid None
      :: match nx with Some n => criteria n | None => [] end
  end.

(** The token holds one of [< > =]. *)
Fixpoint has_operator (s : string) : bool :=
  match s with
  | EmptyString => false
  | String c r => is_operator_char c || has_operator r
  end.

(** The tokenizer as the specification words it: split at the first of
    [< > =]; [=] is Equal, [<=] LessOrEqual, [<>] NotEqual, [<] Less,
    [>=] GreaterOrEqual, [>] Greater; the key is what precedes the operator
    and the value what follows it; without an operator the token is the key. *)
Fixpoint tokenize (token : string) : string * MatchSubtype * string :=
  match token with
  | EmptyString => (EmptyString, MATCH_NONE, EmptyString)
  | String "=" r => (EmptyString, MATCH_EQUAL, r)
  | String "<" (String "=" r) => (EmptyString, MATCH_LESS_OR_EQUAL, r)
  | String "<" (String ">" r) => (EmptyString, MATCH_NOT_EQUAL, r)
  | String "<" r => (EmptyString, MATCH_LESS, r)
  | String ">" (String "=" r) => (EmptyString, MATCH_GREATER_OR_EQUAL, r)
  | String ">" r => (EmptyString, MATCH_GREATER, r)
  | String c r => let '(key, op, value) := tokenize r in (String c key, op, value)
  end.


(** An error line of the console. *)
Definition is_error (e : event) : Prop := exists msg, e = IConsoleError msg.

(** The last line a console call printed. *)
Definition final (l : list event) : event := last l (IConsoleError "").

(** The count invariant on the loop variables of a dispatcher. *)
Definition counted (c : counters) : Prop := 0 <= affected c <= matched c.

(** Filter tokens joined by the continuation keyword: the first token, then
    pairs of a separator and a token. *)
Definition and_joined (first : string) (more : list (string * string)) : list string :=
  first :: flat_map (fun st => [fst st; snd st]) more.

(** The chain that grows from the front: each new criterion gets the chain
    built so far as its [next]. *)
Definition link_all (ms : list MatchInfo) (m0 : option MatchInfo) : option MatchInfo :=
  fold_left (fun acc m => Some (set_next m acc)) ms m0.

(** The error line of a filter key that is not valid for the selector. *)
Definition invalid_match_type : event :=
  IConsoleError "You have specified invalid match type for this query.".

(** A line of help text. *)
Definition is_help_line (e : event) : Prop :=
  match e with
  | IConsoleHelp _ | IConsoleHelpF _ _ => True
  | _ => False
  end.

(** The error lines of the dispatchers. *)
Definition need_parameters : event :=
  IConsoleError "This command requires additional parameter(s).".
Definition need_company : event :=
  IConsoleError "You have to own a company to make use of this command.".

(** The entities of a pool that a filter chain accepts. *)
Definition accepts {A} (test : A -> result bool) (x : A) : bool :=
  match test x with Done true => true | _ => false end.
Definition town_hits (env : Env) (m : MatchInfo) (ts : list Town) : list Town :=
  filter (accepts (fun t => TownMatches env t m)) ts.
Definition industry_hits (env : Env) (m : MatchInfo) (inds : list Industry)
    : list Industry :=
  filter (accepts (fun i => IndustryMatches env i m)) inds.

(** A type is generic or comes from an entry of the two tables that is
    valid under the mask. *)
Definition type_from_tables (mask : Z) (ty : MatchType) : Prop :=
  ty = MATCH_GENERIC
  \/ exists e, In e (match_nn_info ++ match_info) /\ id e = ty
               /\ has_bits (req e) mask = true.

(** The groups of the pool, each with the text of the name buffer at the
    time it is compared: the buffer is rewritten for a group of the local
    company only. *)
Fixpoint rendered (env : Env) (gs : list Group) (buf : string)
    : list (Group * string) :=
  match gs with
  | [] => []
  | g :: rest =>
      let buf := if g_owner g =? local_company env then g_name g else buf in
      (g, buf) :: rendered env rest buf
  end.

(** The three tiers of a name lookup: equal, equal ignoring case, prefix
    ignoring case. *)
Definition name_tier (text name_ : string) : Prop :=
  text = name_ \/ stricmp text name_ = 0 \/ str_isprefix name_ text = true.

(** The command named on a line of the command help. *)
Definition help_line_name (e : event) : option string :=
  match e with
  | IConsoleHelpF _ (PS n :: _) => Some n
  | _ => None
  end.




(** A text buffer made of lines, each closed by a newline. *)
Fixpoint join_lines (lines : list string) : string :=
  match lines with
  | [] => EmptyString
  | l :: rest => append l (String newline (join_lines rest))
  end.

(** The five console hooks of the file. *)
Definition hooks : list (Network -> bool -> ConsoleHookResult * list event) :=
  [ConHookServerOnly; ConHookClientOnly; ConHookNeedNetwork; ConHookNoNetwork;
   ConHookNewGRFDeveloperTool].

Fixpoint distinct_names (nn : list (StringInfo MatchType)) : bool :=
  match nn with
  | [] => true
  | h :: rest =>
      forallb (fun b => negb (stricmp (name h) (name b) =? 0)) rest
      && distinct_names rest
  end.

(* ================================================================= *)
(** * Properties *)

(** ** Sanity checks of the embedding *)

Example resolve_open : option_map (@id _) (GetTownCommand "OPEN") = Some TOWN_OPEN.
Proof. reflexivity. Qed.
Example resolve_show : option_map (@id _) (GetTownCommand "sho") = Some TOWN_OPEN.
Proof. reflexivity. Qed.
Example resolve_c : option_map (@id _) (GetTownCommand "c") = Some TOWN_INVALID_COMMAND.
Proof. reflexivity. Qed.
Example resolve_cen : option_map (@id _) (GetTownCommand "cen") = Some TOWN_CENTER.
Proof. reflexivity. Qed.

Example atoi_42 : atoi " 42x" = 42. Proof. reflexivity. Qed.
Example atoi_neg : atoi "-7" = -7. Proof. reflexivity. Qed.
Example atoi_word : atoi "zzz" = 0. Proof. reflexivity. Qed.

Example tokenize_speed : tokenize "speed>=100" = ("speed", MATCH_GREATER_OR_EQUAL, "100").
Proof. reflexivity. Qed.

(** The program's four tables have the shape the resolver relies on. *)
Example veh_commands_well_formed : well_formed_table veh_commands = true.
Proof. vm_compute. reflexivity. Qed.
Example town_commands_well_formed : well_formed_table town_commands = true.
Proof. vm_compute. reflexivity. Qed.
Example ind_commands_well_formed : well_formed_table ind_commands = true.
Proof. vm_compute. reflexivity. Qed.
Example match_info_well_formed : well_formed_table match_info = true.
Proof. vm_compute. reflexivity. Qed.


(** The scenarios of the specification on the concrete game state: a
    speed filter with [info]; [wsell] without its parameter; an inclusive
    [>=] on the population. *)
Example scenario_speed :
  VehicleMatches Demo.env
    (mkVehicle VEH_TRAIN 10 7 "Express" 0 910 0 0 false 150 120 2 400 0 160 24
       1000 2000 3 (mkOrder OT_NOTHING 0 false) false [])
    (mkMatchInfo MATCH_SPEED MATCH_GREATER "100" None) = Done true.
Proof. reflexivity. Qed.

Example scenario_wsell_without_parameter :
  ConTrain Demo.env ["train"; "all"; "wsell"]
  = Done (mkOutcome true
            [IConsoleError "This command requires additional parameter(s)."]).
Proof. reflexivity. Qed.

Example scenario_population :
  option_map (fun r => fst (fst r))
    (match CheckMatch ["town"; "population>=1000"; "print"] FOR_TOWN with
     | Done r => Some r
     | Crash _ => None
     end) = Some []
  /\ TownMatches Demo.env Demo.alpha
       (mkMatchInfo MATCH_TOWN_POPULATION MATCH_GREATER_OR_EQUAL "1000" None)
     = Done true.
Proof. split; reflexivity. Qed.

(** ** Strings *)

Lemma stricmp_zero_lower : forall s1 s2, stricmp s1 s2 = 0 <-> lower s1 = lower s2.
Proof.
  unfold stricmp.
  induction s1 as [|c1 r1 IH]; destruct s2 as [|c2 r2]; simpl;
    try (split; [lia | discriminate]); try tauto.
  destruct (Ascii.eqb_spec (tolower c1) (tolower c2)) as [E|N].
  - rewrite IH, E. split; [intros ->; reflexivity | intros [=]; assumption].
  - split.
    + destruct (code (tolower c1) <? code (tolower c2)); lia.
    + intros [= E _]. contradiction.
Qed.

Lemma stricmp_refl : forall s, stricmp s s = 0.
Proof. intro s. apply stricmp_zero_lower. reflexivity. Qed.

Lemma tolower_idem : forall c, tolower (tolower c) = tolower c.
Proof.
  intros [b0 b1 b2 b3 b4 b5 b6 b7].
  destruct b0, b1, b2, b3, b4, b5, b6, b7; reflexivity.
Qed.

(** What [str_isprefix] decides: the query is not empty and, letter case
    aside, the name starts with it. *)
Lemma str_isprefix_from_spec : forall s1 s2 b,
  str_isprefix_from b s1 s2 = true <->
  (b = true \/ s1 <> EmptyString) /\ exists rest, lower s2 = append (lower s1) rest.
Proof.
  induction s1 as [|c1 r1 IH]; intros s2 b; simpl.
  - split.
    + intros ->. split; [now left | exists (lower s2); reflexivity].
    + intros [[E|N] _]; [assumption | contradiction].
  - destruct s2 as [|c2 r2]; simpl.
    + split; [discriminate | intros [_ [rest E]]; discriminate].
    + destruct (Ascii.eqb_spec (tolower c1) (tolower c2)) as [E|N].
      * rewrite IH, E. split.
        -- intros [_ [rest R]]. split; [right; discriminate |].
           exists rest. now rewrite R.
        -- intros [_ [rest [= R]]]. split; [now left | now exists rest].
      * split; [discriminate | intros [_ [rest [= E _]]]; congruence].
Qed.

Lemma str_isprefix_spec : forall q n,
  str_isprefix q n = true <->
  q <> EmptyString /\ exists rest, lower n = append (lower q) rest.
Proof.
  intros q n. unfold str_isprefix. rewrite str_isprefix_from_spec.
  split; intros [A B]; split; try assumption.
  - destruct A; [discriminate | assumption].
  - now right.
Qed.

(* ================================================================= *)
(** ** The resolver *)

Section ResolverProps.
Context {T : Type} `{EnumId T}.
Variable q : string.
Variable invalid_value : StringInfo T.

Implicit Types arr tbl : list (StringInfo T).
Implicit Types d cmd real : StringInfo T.

Lemma skip_aliases_real : forall arr real,
  skip_aliases arr = Some real -> is_alias real = false /\ In real arr.
Proof.
  induction arr as [|d rest IH]; simpl; intros real E; [discriminate|].
  destruct (is_alias d) eqn:A.
  - destruct (IH _ E); auto.
  - injection E as <-. auto.
Qed.

Lemma aliases_resolve_cons : forall d rest,
  aliases_resolve (d :: rest) = true ->
  (exists real, skip_aliases (d :: rest) = Some real) /\ aliases_resolve rest = true.
Proof.
  intros d rest R. cbn [aliases_resolve] in R.
  apply andb_true_iff in R as [N R]. split; [|exact R].
  destruct (skip_aliases (d :: rest)) as [real|]; [eauto | discriminate].
Qed.

Lemma prefix_hit_tail : forall d rest i,
  prefix_hit q rest i -> prefix_hit q (d :: rest) (S i).
Proof. intros d rest i [e [N P]]. exists e. auto. Qed.

Lemma prefix_hit_head : forall d rest,
  str_isprefix q (name d) = true -> prefix_hit q (d :: rest) 0.
Proof. intros d rest P. exists d. auto. Qed.

Lemma prefix_hit_inv : forall d rest i,
  prefix_hit q (d :: rest) i ->
  (i = 0%nat /\ str_isprefix q (name d) = true)
  \/ exists k, i = S k /\ prefix_hit q rest k.
Proof.
  intros d rest [|k] [e [N P]]; simpl in N.
  - injection N as <-. auto.
  - right. exists k. split; [reflexivity | exists e; auto].
Qed.

Lemma id_clash : forall a b,
  id_set a = false -> id_set b = true ->
  (enum_val (id b) =? enum_val (id a)) = false.
Proof.
  unfold id_set. intros a b A B.
  apply negb_false_iff, Z.eqb_eq in A. apply negb_true_iff, Z.eqb_neq in B.
  apply Z.eqb_neq. congruence.
Qed.

(** First tier: the first entry whose name equals the query decides. *)
Lemma exact_from : forall arr,
  aliases_resolve arr = true ->
  (exists d, In d arr /\ stricmp q (name d) = 0) ->
  forall cmd u, exists i d real,
    nth_error arr i = Some d /\ stricmp q (name d) = 0
    /\ (forall j e, (j < i)%nat -> nth_error arr j = Some e -> stricmp q (name e) <> 0)
    /\ real_at arr i = Some real /\ is_alias real = false
    /\ GetStringInfo_from q invalid_value arr cmd u = Some real.
Proof.
  induction arr as [|d0 rest IH]; intros R [d [I E]] cmd u; [destruct I|].
  destruct (aliases_resolve_cons _ _ R) as [[real0 S0] R'].
  cbn [GetStringInfo_from]. rewrite S0.
  destruct (stricmp q (name d0) =? 0) eqn:X.
  - apply Z.eqb_eq in X. exists 0%nat, d0, real0.
    repeat split; auto; try lia.
    apply (skip_aliases_real _ S0).
  - apply Z.eqb_neq in X.
    assert (I' : exists d, In d rest /\ stricmp q (name d) = 0).
    { destruct I as [<-|I]; [contradiction | eauto]. }
    assert (step : forall cmd' u', exists i d real,
      nth_error (d0 :: rest) i = Some d /\ stricmp q (name d) = 0
      /\ (forall j e, (j < i)%nat -> nth_error (d0 :: rest) j = Some e ->
                      stricmp q (name e) <> 0)
      /\ real_at (d0 :: rest) i = Some real /\ is_alias real = false
      /\ GetStringInfo_from q invalid_value rest cmd' u' = Some real).
    { intros cmd' u'.
      destruct (IH R' I' cmd' u') as (i & e & real & N & E' & F & RA & A & G).
      exists (S i), e, real. repeat split; auto.
      intros [|j] e' L N'; simpl in N'.
      - injection N' as <-. exact X.
      - apply (F j e'); [lia | exact N']. }
    destruct (str_isprefix q (name d0)
              && negb (enum_val (id real0) =? enum_val (id cmd))); apply step.
Qed.

(** With no name equal to the query, a scan that has lost uniqueness ends
    in the invalid value. *)
Lemma ambiguous_from : forall arr cmd,
  aliases_resolve arr = true ->
  (forall d, In d arr -> stricmp q (name d) <> 0) ->
  GetStringInfo_from q invalid_value arr cmd false = Some invalid_value.
Proof.
  induction arr as [|d0 rest IH]; intros cmd R NE.
  - simpl. now rewrite andb_false_r.
  - destruct (aliases_resolve_cons _ _ R) as [[real0 S0] R'].
    cbn [GetStringInfo_from]. rewrite S0.
    destruct (stricmp q (name d0) =? 0) eqn:X.
    { apply Z.eqb_eq in X. exfalso. apply (NE d0); simpl; auto. }
    assert (NE' : forall d, In d rest -> stricmp q (name d) <> 0)
      by (intros; apply NE; simpl; auto).
    destruct (str_isprefix q (name d0)
              && negb (enum_val (id real0) =? enum_val (id cmd))).
    + destruct (id_set cmd); apply IH; auto.
    + apply IH; auto.
Qed.

(** A found command and a later hit on another ID: ambiguous. *)
Lemma second_id_from : forall arr cmd,
  aliases_resolve arr = true ->
  (forall d, In d arr -> stricmp q (name d) <> 0) ->
  id_set cmd = true ->
  (exists i r, prefix_hit q arr i /\ real_at arr i = Some r
               /\ enum_val (id r) <> enum_val (id cmd)) ->
  GetStringInfo_from q invalid_value arr cmd true = Some invalid_value.
Proof.
  induction arr as [|d0 rest IH]; intros cmd R NE C (i & r & P & RA & D).
  - destruct P as [e [N _]]. destruct i; discriminate.
  - destruct (aliases_resolve_cons _ _ R) as [[real0 S0] R'].
    cbn [GetStringInfo_from]. rewrite S0.
    destruct (stricmp q (name d0) =? 0) eqn:X.
    { apply Z.eqb_eq in X. exfalso. apply (NE d0); simpl; auto. }
    assert (NE' : forall d, In d rest -> stricmp q (name d) <> 0)
      by (intros; apply NE; simpl; auto).
    destruct (str_isprefix q (name d0)) eqn:P0; cbn [andb].
    + destruct (enum_val (id real0) =? enum_val (id cmd)) eqn:S; cbn [negb].
      * apply Z.eqb_eq in S.
        apply IH; auto.
        destruct (prefix_hit_inv P) as [[-> _]|[k [-> Pk]]].
        -- unfold real_at in RA; simpl skipn in RA. congruence.
        -- exists k, r. auto.
      * rewrite C. apply ambiguous_from; auto.
    + apply IH; auto.
      destruct (prefix_hit_inv P) as [[-> P0']|[k [-> Pk]]]; [congruence|].
      exists k, r. auto.
Qed.

(** All hits denote [d], which is already the found command. *)
Lemma same_id_from : forall arr d,
  aliases_resolve arr = true ->
  (forall e, In e arr -> stricmp q (name e) <> 0) ->
  id_set d = true ->
  (forall i, prefix_hit q arr i -> real_at arr i = Some d) ->
  GetStringInfo_from q invalid_value arr d true = Some d.
Proof.
  induction arr as [|d0 rest IH]; intros d R NE C A.
  - simpl. now rewrite C.
  - destruct (aliases_resolve_cons _ _ R) as [[real0 S0] R'].
    cbn [GetStringInfo_from]. rewrite S0.
    destruct (stricmp q (name d0) =? 0) eqn:X.
    { apply Z.eqb_eq in X. exfalso. apply (NE d0); simpl; auto. }
    assert (A' : forall i, prefix_hit q rest i -> real_at rest i = Some d).
    { intros i P. apply (A (S i)), prefix_hit_tail, P. }
    assert (NE' : forall e, In e rest -> stricmp q (name e) <> 0)
      by (intros; apply NE; simpl; auto).
    destruct (str_isprefix q (name d0)) eqn:P0; cbn [andb].
    + specialize (A 0%nat (prefix_hit_head _ _ P0)).
      unfold real_at in A; simpl skipn in A.
      assert (real0 = d) as -> by congruence.
      rewrite Z.eqb_refl. cbn [negb]. apply IH; auto.
    + apply IH; auto.
Qed.

(** All hits denote [d] and nothing is found yet. *)
Lemma unique_from : forall arr d,
  aliases_resolve arr = true ->
  (forall e, In e arr -> stricmp q (name e) <> 0) ->
  id_set invalid_value = false -> id_set d = true ->
  (exists i, prefix_hit q arr i) ->
  (forall i, prefix_hit q arr i -> real_at arr i = Some d) ->
  GetStringInfo_from q invalid_value arr invalid_value true = Some d.
Proof.
  induction arr as [|d0 rest IH]; intros d R NE CI C [i P] A.
  - destruct P as [e [N _]]. destruct i; discriminate.
  - destruct (aliases_resolve_cons _ _ R) as [[real0 S0] R'].
    cbn [GetStringInfo_from]. rewrite S0.
    destruct (stricmp q (name d0) =? 0) eqn:X.
    { apply Z.eqb_eq in X. exfalso. apply (NE d0); simpl; auto. }
    assert (A' : forall i, prefix_hit q rest i -> real_at rest i = Some d).
    { intros k Pk. apply (A (S k)), prefix_hit_tail, Pk. }
    assert (NE' : forall e, In e rest -> stricmp q (name e) <> 0)
      by (intros; apply NE; simpl; auto).
    destruct (str_isprefix q (name d0)) eqn:P0; cbn [andb].
    + pose proof (A 0%nat (prefix_hit_head _ _ P0)) as A0.
      unfold real_at in A0; simpl skipn in A0.
      assert (real0 = d) as -> by congruence.
      rewrite (id_clash _ _ CI C), CI. cbn [negb].
      apply same_id_from; auto.
    + apply IH; auto.
      destruct (prefix_hit_inv P) as [[-> P0']|[k [-> Pk]]]; [congruence|].
      exists k. exact Pk.
Qed.

Lemma real_at_id_set : forall arr i r,
  real_ids_set arr = true -> real_at arr i = Some r -> id_set r = true.
Proof.
  intros arr i r S RA. unfold real_at in RA.
  destruct (skip_aliases_real _ RA) as [NA I].
  assert (I' : In r arr).
  { rewrite <- (firstn_skipn i arr). apply in_or_app. now right. }
  unfold real_ids_set in S. rewrite forallb_forall in S.
  specialize (S r I'). rewrite NA in S. exact S.
Qed.

(** Two hits on different IDs and nothing found yet. *)
Lemma distinct_from : forall arr,
  aliases_resolve arr = true -> real_ids_set arr = true ->
  (forall e, In e arr -> stricmp q (name e) <> 0) ->
  id_set invalid_value = false ->
  (exists i j ri rj, prefix_hit q arr i /\ prefix_hit q arr j
     /\ real_at arr i = Some ri /\ real_at arr j = Some rj
     /\ enum_val (id ri) <> enum_val (id rj)) ->
  GetStringInfo_from q invalid_value arr invalid_value true = Some invalid_value.
Proof.
  induction arr as [|d0 rest IH]; intros R S NE CI (i & j & ri & rj & Pi & Pj & Ri & Rj & D).
  - destruct Pi as [e [N _]]. destruct i; discriminate.
  - destruct (aliases_resolve_cons _ _ R) as [[real0 S0] R'].
    assert (S' : real_ids_set rest = true).
    { unfold real_ids_set in *. simpl in S. apply andb_true_iff in S. tauto. }
    assert (C0 : id_set real0 = true).
    { apply (real_at_id_set (d0 :: rest) 0 S). exact S0. }
    cbn [GetStringInfo_from]. rewrite S0.
    destruct (stricmp q (name d0) =? 0) eqn:X.
    { apply Z.eqb_eq in X. exfalso. apply (NE d0); simpl; auto. }
    assert (NE' : forall e, In e rest -> stricmp q (name e) <> 0)
      by (intros; apply NE; simpl; auto).
    unfold real_at in Ri, Rj.
    destruct (str_isprefix q (name d0)) eqn:P0; cbn [andb].
    + rewrite (id_clash _ _ CI C0), CI. cbn [negb].
      apply second_id_from; auto.
      destruct (prefix_hit_inv Pi) as [[-> _]|[ki [-> Pki]]];
        destruct (prefix_hit_inv Pj) as [[-> _]|[kj [-> Pkj]]];
        simpl skipn in Ri, Rj.
      * congruence.
      * exists kj, rj. repeat split; auto. congruence.
      * exists ki, ri. repeat split; auto. congruence.
      * destruct (Z.eq_dec (enum_val (id ri)) (enum_val (id real0))) as [E|N].
        -- exists kj, rj. repeat split; auto. congruence.
        -- exists ki, ri. repeat split; auto.
    + apply IH; auto.
      destruct (prefix_hit_inv Pi) as [[-> P0']|[ki [-> Pki]]]; [congruence|].
      destruct (prefix_hit_inv Pj) as [[-> P0']|[kj [-> Pkj]]]; [congruence|].
      exists ki, kj, ri, rj. simpl skipn in Ri, Rj. auto.
Qed.

Lemma info_eqb_eq : forall a b, info_eqb a b = true -> a = b.
Proof.
  intros [ia na pa ra ha] [ib nb pb rb hb]. unfold info_eqb. simpl.
  rewrite !andb_true_iff. intros [[[[I N] P] R] Hh].
  apply Z.eqb_eq, enum_val_inj in I. apply String.eqb_eq in N, Hh.
  apply Z.eqb_eq in P, R. congruence.
Qed.

Lemma ids_identify_spec : forall tbl a b,
  ids_identify tbl = true -> In a tbl -> In b tbl ->
  is_alias a = false -> is_alias b = false ->
  enum_val (id a) = enum_val (id b) -> a = b.
Proof.
  intros tbl a b I Ia Ib Aa Ab E.
  unfold ids_identify in I. rewrite forallb_forall in I.
  specialize (I a Ia). rewrite forallb_forall in I. specialize (I b Ib).
  rewrite Aa, Ab in I. apply Z.eqb_eq in E. rewrite E in I.
  apply info_eqb_eq. exact I.
Qed.

Lemma real_at_in : forall tbl i r,
  real_at tbl i = Some r -> is_alias r = false /\ In r tbl.
Proof.
  intros tbl i r RA. destruct (skip_aliases_real _ RA) as [A I].
  split; [exact A|]. rewrite <- (firstn_skipn i tbl). apply in_or_app. now right.
Qed.

End ResolverProps.

(** C8 — exact match.  In a table where every alias run ends in a command,
    a query that equals, ignoring case, the name of some entry (aliases
    included) resolves at once to the non-alias descriptor found by scanning
    forward from the first such entry; nothing is assumed about the query
    being a prefix of other entries. *)
Theorem exact_match_resolves {T : Type} `{EnumId T} :
  forall (q : string) (invalid_value : StringInfo T) (tbl : list (StringInfo T)),
  aliases_resolve tbl = true ->
  (exists d, In d tbl /\ stricmp q (name d) = 0) ->
  exists i d real,
    nth_error tbl i = Some d /\ stricmp q (name d) = 0
    /\ (forall j e, (j < i)%nat -> nth_error tbl j = Some e -> stricmp q (name e) <> 0)
    /\ real_at tbl i = Some real /\ is_alias real = false
    /\ GetStringInfo q invalid_value tbl = Some real.
Proof.
  intros q invalid_value tbl R E. unfold GetStringInfo.
  apply exact_from; assumption.
Qed.

(** "CLONE" equals the name of [clone] and is a prefix of [clone_shared]; "SHOW"
    is an alias. *)
Lemma exact_match_resolves_witness :
  (exists i d real,
     nth_error veh_commands i = Some d /\ stricmp "CLONE" (name d) = 0
     /\ (forall j e, (j < i)%nat -> nth_error veh_commands j = Some e ->
                     stricmp "CLONE" (name e) <> 0)
     /\ real_at veh_commands i = Some real /\ is_alias real = false
     /\ GetStringInfo "CLONE" INVALID_COMMAND_VEHICLE veh_commands = Some real)
  /\ option_map (@id _) (GetVehicleCommand "CLONE") = Some VEHICLE_CLONE
  /\ option_map (@id _) (GetVehicleCommand "SHOW") = Some VEHICLE_OPEN.
Proof.
  split; [|split; reflexivity].
  apply exact_match_resolves; [reflexivity|].
  exists (nth 2 veh_commands INVALID_COMMAND_VEHICLE).
  split; [right; right; left; reflexivity | reflexivity].
Defined.

(** C9 — prefix match.  In a well-formed table (alias runs end in a command,
    commands carry a valid ID, an ID names one descriptor) and for a query
    that equals no entry's name: if the query is a prefix of at least one
    entry and all such entries denote the same descriptor, that descriptor
    is returned; if two of them denote distinct descriptors, the invalid
    descriptor is returned. *)
Theorem prefix_match_resolves {T : Type} `{EnumId T} :
  forall (q : string) (invalid_value : StringInfo T) (tbl : list (StringInfo T)),
  well_formed_table tbl = true ->
  id_set invalid_value = false ->
  (forall d, In d tbl -> stricmp q (name d) <> 0) ->
  (forall real,
     (exists i, prefix_hit q tbl i) ->
     (forall i, prefix_hit q tbl i -> real_at tbl i = Some real) ->
     GetStringInfo q invalid_value tbl = Some real)
  /\ (forall i j ri rj,
        prefix_hit q tbl i -> prefix_hit q tbl j ->
        real_at tbl i = Some ri -> real_at tbl j = Some rj -> ri <> rj ->
        GetStringInfo q invalid_value tbl = Some invalid_value).
Proof.
  intros q invalid_value tbl W CI NE.
  unfold well_formed_table in W. rewrite !andb_true_iff in W.
  destruct W as [[R S] I]. unfold GetStringInfo. split.
  - intros real [i P] A.
    apply unique_from; eauto.
    apply (real_at_id_set tbl i S). apply A, P.
  - intros i j ri rj Pi Pj Ri Rj D.
    apply distinct_from; auto.
    exists i, j, ri, rj. repeat split; auto.
    intro E. apply D.
    destruct (real_at_in _ _ Ri), (real_at_in _ _ Rj).
    apply (ids_identify_spec tbl); auto.
Qed.

Ltac by_entries i N P :=
  repeat (destruct i as [|i];
          [cbn in N; injection N as <-; try discriminate P; try reflexivity|]);
  try (destruct i; discriminate N).

(** "cen" is a prefix of the alias [centre] and of [center], one command;
    "c" is a prefix of [center] and of [count]. *)
Lemma prefix_match_resolves_witness :
  GetIndustryCommand "cen" = Some (nth 1 ind_commands INVALID_COMMAND_INDUSTRY)
  /\ GetIndustryCommand "c" = Some INVALID_COMMAND_INDUSTRY.
Proof.
  split.
  - refine (proj1 (prefix_match_resolves "cen" INVALID_COMMAND_INDUSTRY ind_commands
                     eq_refl eq_refl _) _ _ _).
    + intros d I. repeat (destruct I as [<-|I]; [discriminate|]). destruct I.
    + exists 0%nat, (nth 0 ind_commands INVALID_COMMAND_INDUSTRY).
      split; reflexivity.
    + intros i [d [N P]]. by_entries i N P.
  - refine (proj2 (prefix_match_resolves "c" INVALID_COMMAND_INDUSTRY ind_commands
                     eq_refl eq_refl _) 1%nat 2%nat _ _ _ _ eq_refl eq_refl _).
    + intros d I. repeat (destruct I as [<-|I]; [discriminate|]). destruct I.
    + exists (nth 1 ind_commands INVALID_COMMAND_INDUSTRY). split; reflexivity.
    + exists (nth 2 ind_commands INVALID_COMMAND_INDUSTRY). split; reflexivity.
    + discriminate.
Defined.

(* ================================================================= *)
(** ** The matchers *)

(** Induction along the [next] pointers of a chain. *)
Lemma MatchInfo_chain_ind : forall P : MatchInfo -> Prop,
  (forall ty st mid, P (mkMatchInfo ty st mid None)) ->
  (forall ty st mid n, P n -> P (mkMatchInfo ty st mid (Some n))) ->
  forall m, P m.
Proof.
  intros P last_ link. fix IH 1.
  intros [ty st mid [n|]]; [apply link, IH | apply last_].
Qed.

Section ChainProps.

(** A matcher is any function that checks the rest of the chain first and
    then its own criterion, the way the three matchers are written. *)
Variable one : MatchType -> MatchSubtype -> string -> result bool.
Variable matches : MatchInfo -> result bool.
Hypothesis matches_eq : forall ty st mid nx,
  matches (mkMatchInfo ty st mid nx) =
  (rest <- match nx with Some n => matches n | None => Done true end ;;
   if rest then one ty st mid else Done false).

Lemma matches_single : forall ty st mid,
  matches (mkMatchInfo ty st mid None) = one ty st mid.
Proof. intros. rewrite matches_eq. reflexivity. Qed.

Lemma matches_link : forall ty st mid n,
  matches (mkMatchInfo ty st mid (Some n)) = Done true <->
  matches (mkMatchInfo ty st mid None) = Done true /\ matches n = Done true.
Proof.
  intros. rewrite matches_single, matches_eq.
  destruct (matches n) as [[|]|c]; simpl; split;
    try tauto; try (intros [_ E]; discriminate); try discriminate.
Qed.

Lemma matches_all : forall m,
  matches m = Done true <-> (forall c, In c (criteria m) -> matches c = Done true).
Proof.
  induction m as [ty st mid|ty st mid n IH] using MatchInfo_chain_ind.
  - simpl. split.
    + intros E c [<-|[]]. exact E.
    + intros A. apply A. now left.
  - rewrite matches_link, IH. cbn [criteria]. split.
    + intros [E A] c [<-|I]; auto.
    + intros A. split; [apply A; now left | intros c I; apply A; now right].
Qed.

Lemma matches_permutation : forall m1 m2,
  Permutation (criteria m1) (criteria m2) ->
  (matches m1 = Done true <-> matches m2 = Done true).
Proof.
  intros m1 m2 P. rewrite !matches_all. split; intros A c I; apply A.
  - apply Permutation_sym in P. apply (Permutation_in _ P I).
  - apply (Permutation_in _ P I).
Qed.

End ChainProps.

Lemma VehicleMatches_eq : forall env v ty st mid nx,
  VehicleMatches env v (mkMatchInfo ty st mid nx) =
  (rest <- match nx with Some n => VehicleMatches env v n | None => Done true end ;;
   if rest then VehicleMatches_one env v ty st mid else Done false).
Proof. reflexivity. Qed.

Lemma TownMatches_eq : forall env t ty st mid nx,
  TownMatches env t (mkMatchInfo ty st mid nx) =
  (rest <- match nx with Some n => TownMatches env t n | None => Done true end ;;
   if rest then TownMatches_one env t ty st mid else Done false).
Proof. reflexivity. Qed.

Lemma IndustryMatches_eq : forall env i ty st mid nx,
  IndustryMatches env i (mkMatchInfo ty st mid nx) =
  (rest <- match nx with Some n => IndustryMatches env i n | None => Done true end ;;
   if rest then IndustryMatches_one env i ty st mid else Done false).
Proof. reflexivity. Qed.

(** C7 — AND semantics.  An entity matches a chain exactly when it matches
    every criterion of the chain taken alone, for vehicles, towns and
    industries; hence two chains with the same criteria in another order
    match the same entities. *)
Theorem chain_is_conjunction : forall env : Env,
  (forall v m,
     VehicleMatches env v m = Done true <->
     (forall c, In c (criteria m) -> VehicleMatches env v c = Done true))
  /\ (forall t m,
        TownMatches env t m = Done true <->
        (forall c, In c (criteria m) -> TownMatches env t c = Done true))
  /\ (forall i m,
        IndustryMatches env i m = Done true <->
        (forall c, In c (criteria m) -> IndustryMatches env i c = Done true))
  /\ (forall v t i m1 m2,
        Permutation (criteria m1) (criteria m2) ->
        (VehicleMatches env v m1 = Done true <-> VehicleMatches env v m2 = Done true)
        /\ (TownMatches env t m1 = Done true <-> TownMatches env t m2 = Done true)
        /\ (IndustryMatches env i m1 = Done true <->
            IndustryMatches env i m2 = Done true)).
Proof.
  intro env.
  split; [|split; [|split]].
  - intros v m. apply (@matches_all _ _ (VehicleMatches_eq env v)).
  - intros t m. apply (@matches_all _ _ (TownMatches_eq env t)).
  - intros i m. apply (@matches_all _ _ (IndustryMatches_eq env i)).
  - intros v t i m1 m2 P. split; [|split].
    + apply (@matches_permutation _ _ (VehicleMatches_eq env v) _ _ P).
    + apply (@matches_permutation _ _ (TownMatches_eq env t) _ _ P).
    + apply (@matches_permutation _ _ (IndustryMatches_eq env i) _ _ P).
Qed.

(* ================================================================= *)
(** ** The tokenizer and the chain builder *)

Ltac ascii_cases c :=
  destruct c as [[] [] [] [] [] [] [] []].

Lemma is_operator_char_inv : forall c,
  is_operator_char c = true -> c = "<"%char \/ c = ">"%char \/ c = "="%char.
Proof.
  intros c E. unfold is_operator_char in E. simpl in E.
  rewrite !orb_true_iff in E.
  destruct E as [E|[E|[E|E]]]; try discriminate; apply Ascii.eqb_eq in E; auto.
Qed.

Lemma tokenize_cons : forall c r,
  is_operator_char c = false ->
  tokenize (String c r) =
  let '(key, op, value) := tokenize r in (String c key, op, value).
Proof. intros c r E. ascii_cases c; try discriminate E; reflexivity. Qed.

Lemma operator_at_keylen : forall s,
  has_operator s = true ->
  exists c, at_ s (strcspn s ["<"; ">"; "="]%char) = Some c
            /\ is_operator_char c = true.
Proof.
  induction s as [|c r IH]; cbn [has_operator strcspn]; intro E; [discriminate|].
  fold (is_operator_char c). destruct (is_operator_char c) eqn:O.
  - exists c. auto.
  - apply IH, E.
Qed.

Lemma split_operator_cons : forall c r k c',
  at_ r k = Some c' -> is_operator_char c' = true ->
  split_operator (String c r) (S k) = split_operator r k.
Proof.
  intros c r k c' A O. unfold split_operator.
  change (at_ (String c r) (S k)) with (at_ r k).
  change (at_ (String c r) (S k + 1)) with (at_ r (k + 1)).
  change (offset (S k + 1) (String c r)) with (offset (k + 1) r).
  change (offset (S k + 2) (String c r)) with (offset (k + 2) r).
  rewrite A.
  destruct (is_operator_char_inv _ O) as [-> | [-> | ->]]; reflexivity.
Qed.

(** The scan of [CheckMatch] finds the key, the operator and the value of
    the specification's tokenizer. *)
Lemma split_operator_tokenize : forall token,
  has_operator token = true ->
  let keylen := strcspn token ["<"; ">"; "="]%char in
  tokenize token = (take keylen token, snd (split_operator token keylen),
                    fst (split_operator token keylen))
  /\ snd (split_operator token keylen) <> MATCH_NONE
  /\ (String.length (fst (split_operator token keylen)) < String.length token)%nat.
Proof.
  induction token as [|c r IH]; intro E; [discriminate|].
  cbn [has_operator] in E. cbn [strcspn]. fold (is_operator_char c).
  destruct (is_operator_char c) eqn:O.
  - destruct (is_operator_char_inv _ O) as [-> | [-> | ->]].
    + destruct r as [|c2 r2]; [repeat split; simpl; (discriminate || lia)|].
      ascii_cases c2; repeat split; simpl; (discriminate || lia).
    + destruct r as [|c2 r2]; [repeat split; simpl; (discriminate || lia)|].
      ascii_cases c2; repeat split; simpl; (discriminate || lia).
    + repeat split; simpl; (discriminate || lia).
  - simpl in E. destruct (IH E) as (Tk & N & L).
    destruct (operator_at_keylen _ E) as (c' & A & O').
    rewrite (@split_operator_cons c _ _ _ A O'), (@tokenize_cons c r O), Tk.
    repeat split; auto. simpl. lia.
Qed.

Lemma is_operator_char_lower : forall c,
  is_operator_char (tolower c) = is_operator_char c.
Proof. intro c. ascii_cases c; reflexivity. Qed.

Lemma has_operator_lower : forall s, has_operator (lower s) = has_operator s.
Proof.
  induction s as [|c r IH]; simpl; [reflexivity|].
  now rewrite is_operator_char_lower, IH.
Qed.

(** A token with an operator equals no special keyword. *)
Lemma special_match_operator : forall token mask nn,
  has_operator token = true ->
  forallb (fun e => negb (has_operator (name e))) nn = true ->
  special_match token mask nn = None.
Proof.
  intros token mask nn E. induction nn as [|e rest IH]; simpl; intro F; [reflexivity|].
  apply andb_true_iff in F as [Fe Fr]. rewrite (IH Fr).
  destruct (stricmp token (name e) =? 0) eqn:X; [|now rewrite andb_false_r].
  apply Z.eqb_eq, stricmp_zero_lower in X.
  apply negb_true_iff in Fe.
  rewrite <- has_operator_lower, <- X, has_operator_lower in Fe. congruence.
Qed.

(** C3, amended — For a token that holds a comparison operator and whose
    key does not resolve in the numeric match table, the built criterion is
    a generic match whose subtype is the operator and whose literal is the
    substring after the operator; the literal is shorter than the token. *)
Theorem unresolved_key_is_generic :
  forall (token : string) (mask : Z) (key value : string) (op : MatchSubtype)
         (d : StringInfo MatchType),
  has_operator token = true ->
  tokenize token = (key, op, value) ->
  GetMatchType key = Some d -> id_set d = false ->
  CheckMatch_token token mask
  = Done ([], Some (mkMatchInfo MATCH_GENERIC op value None))
  /\ op <> MATCH_NONE
  /\ (String.length value < String.length token)%nat.
Proof.
  intros token mask key value op d E Tk G U.
  destruct (split_operator_tokenize token E) as (Tk' & N & L).
  rewrite Tk in Tk'. injection Tk' as -> -> ->.
  split; [|split; assumption].
  unfold CheckMatch_token.
  destruct (split_operator token (strcspn token ["<"; ">"; "="]%char))
    as [mid match_subtype].
  simpl fst in *; simpl snd in *.
  rewrite (special_match_operator token mask match_nn_info E eq_refl).
  destruct (strcspn token ["<"; ">"; "="]%char =? 0)%nat; [reflexivity|].
  rewrite G. simpl. rewrite U. reflexivity.
Qed.

(** [foo] is no match keyword; the literal of the criterion is [bar]. *)
Lemma unresolved_key_is_generic_witness :
  CheckMatch_token "foo<>bar" FOR_TOWN
  = Done ([], Some (mkMatchInfo MATCH_GENERIC MATCH_NOT_EQUAL "bar" None))
  /\ MATCH_NOT_EQUAL <> MATCH_NONE
  /\ (String.length "bar" < String.length "foo<>bar")%nat.
Proof.
  apply (unresolved_key_is_generic "foo<>bar" FOR_TOWN (key := "foo")
           (d := INVALID_MATCH)); reflexivity.
Defined.

(** C3, as stated, fails: the token "foo=bar" has an operator and the key
    [foo] does not resolve, yet the literal of the generic criterion is
    "bar", not the whole token. *)
Lemma unresolved_key_counterexample :
  has_operator "foo=bar" = true
  /\ GetMatchType "foo" = Some INVALID_MATCH
  /\ exists m, CheckMatch_token "foo=bar" FOR_TOWN = Done ([], Some m)
               /\ m_type m = MATCH_GENERIC
               /\ m_id m = "bar" /\ m_id m <> "foo=bar".
Proof.
  split; [reflexivity|]. split; [reflexivity|].
  exists (mkMatchInfo MATCH_GENERIC MATCH_EQUAL "bar" None).
  repeat split. discriminate.
Qed.

(** A token that builds a criterion prints nothing; a token that does not
    prints one error. *)
Lemma CheckMatch_token_out : forall token mask out tm,
  CheckMatch_token token mask = Done (out, tm) ->
  match tm with
  | Some _ => out = []
  | None => out = [IConsoleError "You have specified invalid match type for this query."]
  end.
Proof.
  intros token mask out tm. unfold CheckMatch_token.
  destruct (split_operator _ _) as [mid st].
  destruct (strcspn token _ =? 0)%nat; simpl.
  - intros [= <- <-]. reflexivity.
  - destruct (GetMatchType _) as [d|]; simpl; [|discriminate].
    destruct (id_set d); [destruct (has_bits (req d) mask)|]; simpl;
      intros [= <- <-]; reflexivity.
Qed.


Lemma CheckMatch_loop_out : forall mask (n : nat) argv m0 out m rest,
  (List.length argv <= n)%nat ->
  CheckMatch_loop mask argv m0 = Done (out, m, rest) ->
  Forall is_error out /\ (m <> None -> out = []).
Proof.
  induction n as [|n IH]; intros argv m0 out m rest Len;
    destruct argv as [|arg more]; simpl in *; try lia;
    try (intros [= <- <- <-]; auto).
  destruct (CheckMatch_token arg mask) as [[o tm]|c] eqn:Tk; simpl; [|discriminate].
  pose proof (CheckMatch_token_out _ _ Tk) as O.
  destruct tm as [tm|].
  - subst o. destruct more as [|next more'].
    + intros [= <- <- <-]. auto.
    + destruct (is_and next); simpl.
      * destruct (CheckMatch_loop mask more' (Some (set_next tm m0)))
          as [[[o' m'] a']|c] eqn:L; simpl; [|discriminate].
        intros [= <- <- <-]. simpl. eapply IH; [|exact L]. simpl in Len; lia.
      * intros [= <- <- <-]. auto.
  - intros [= <- <- <-]. subst o. split.
    + repeat constructor. eexists; reflexivity.
    + intro N; contradiction.
Qed.

Lemma CheckMatch_out : forall argv mask out m rest,
  CheckMatch argv mask = Done (out, m, rest) ->
  Forall is_error out
  /\ (m <> None -> out = [] /\ (argc_of argv <? 3) = false).
Proof.
  intros argv mask out m rest. unfold CheckMatch.
  destruct (argc_of argv <? 3).
  - intros [= <- <- <-]. split; [constructor | intro N; contradiction].
  - intro L. destruct (CheckMatch_loop_out _ _ _ (Nat.le_refl _) L) as [F E].
    split; [exact F | intro N; split; [apply E, N | reflexivity]].
Qed.

(* ================================================================= *)
(** ** The dispatchers *)

Lemma argc_at_least_3 : forall argv,
  (argc_of argv <? 3) = false -> (argc_of argv =? 0) = false.
Proof. intros argv L. apply Z.ltb_ge in L. apply Z.eqb_neq. lia. Qed.

(** C2, amended — When the filter chain builds and the command token does
    not resolve in the command table of the kind, each of the three
    dispatchers prints the one error "You have specified invalid command."
    and returns handled = false (the caller then prints the usage); no
    entity is visited and nothing else happens. *)
Theorem unknown_command_unhandled :
  forall (env : Env) (argv : list string) (m : MatchInfo) (arg : string)
         (params_ : list string),
  let unhandled :=
    Done (mkOutcome false [IConsoleError "You have specified invalid command."]) in
  (forall out0 d,
     CheckMatch argv FOR_TOWN = Done (out0, Some m, arg :: params_) ->
     GetTownCommand arg = Some d -> id_set d = false ->
     ConTown env argv = unhandled)
  /\ (forall out0 d,
        CheckMatch argv FOR_INDUSTRY = Done (out0, Some m, arg :: params_) ->
        GetIndustryCommand arg = Some d -> id_set d = false ->
        ConIndustry env argv = unhandled)
  /\ (forall vtype argv0 mask vehicle_name out0 d,
        vehicle_selector vtype = Done (mask, vehicle_name) ->
        Company_IsValidID env (local_company env) = true ->
        CheckMatch argv mask = Done (out0, Some m, arg :: params_) ->
        GetVehicleCommand arg = Some d -> id_set d = false ->
        ConVehicleCommand env argv vtype argv0 = unhandled).
Proof.
  intros env argv m arg params_ unhandled. subst unhandled.
  split; [|split].
  - intros out0 d B G U.
    destruct (CheckMatch_out _ _ B) as [_ E].
    destruct E as [-> L]; [discriminate|].
    unfold ConTown. rewrite (argc_at_least_3 _ L), L, B. cbn [bind].
    rewrite G. cbn [bind in_bounds]. rewrite U. reflexivity.
  - intros out0 d B G U.
    destruct (CheckMatch_out _ _ B) as [_ E].
    destruct E as [-> L]; [discriminate|].
    unfold ConIndustry. rewrite (argc_at_least_3 _ L), L, B. cbn [bind].
    rewrite G. cbn [bind in_bounds]. rewrite U. reflexivity.
  - intros vtype argv0 mask vehicle_name out0 d S C B G U.
    destruct (CheckMatch_out _ _ B) as [_ E].
    destruct E as [-> L]; [discriminate|].
    unfold ConVehicleCommand. rewrite S. cbn [bind].
    rewrite (argc_at_least_3 _ L), C, L, B. cbn [bind negb].
    rewrite G. cbn [bind in_bounds]. rewrite U. reflexivity.
Qed.

(** The three dispatchers on the unknown command [bogus]. *)
Lemma unknown_command_unhandled_witness :
  ConTown Demo.env ["town"; "all"; "bogus"]
  = Done (mkOutcome false [IConsoleError "You have specified invalid command."])
  /\ ConIndustry Demo.env ["industry"; "production>10"; "bogus"; "1"]
     = Done (mkOutcome false [IConsoleError "You have specified invalid command."])
  /\ ConVehicleCommand Demo.env ["train"; "crashed"; "&"; "speed<5"; "bogus"]
       VEH_TRAIN "train"
     = Done (mkOutcome false [IConsoleError "You have specified invalid command."]).
Proof.
  split; [|split].
  - apply (proj1 (unknown_command_unhandled Demo.env ["town"; "all"; "bogus"]
                    (mkMatchInfo MATCH_ALL MATCH_NONE "all" None) "bogus" [])
             [] INVALID_COMMAND_TOWN); reflexivity.
  - apply (proj1 (proj2 (unknown_command_unhandled Demo.env
                    ["industry"; "production>10"; "bogus"; "1"]
                    (mkMatchInfo MATCH_INDUSTRY_PRODUCTION MATCH_GREATER "10" None)
                    "bogus" ["1"]))
             [] INVALID_COMMAND_INDUSTRY); reflexivity.
  - apply (proj2 (proj2 (unknown_command_unhandled Demo.env
                    ["train"; "crashed"; "&"; "speed<5"; "bogus"]
                    (mkMatchInfo MATCH_SPEED MATCH_LESS "5"
                       (Some (mkMatchInfo MATCH_CRASHED MATCH_NONE "crashed" None)))
                    "bogus" []))
             VEH_TRAIN "train" FOR_TRAIN "train" [] INVALID_COMMAND_VEHICLE);
      reflexivity.
Defined.

(** C2, as stated, fails: "town all bogus" builds its chain, [bogus] does
    not resolve, and [ConTown] returns false, not true. *)
Lemma unknown_command_counterexample :
  CheckMatch ["town"; "all"; "bogus"] FOR_TOWN
  = Done ([], Some (mkMatchInfo MATCH_ALL MATCH_NONE "all" None), ["bogus"])
  /\ GetTownCommand "bogus" = Some INVALID_COMMAND_TOWN
  /\ exists o, ConTown Demo.env ["town"; "all"; "bogus"] = Done o
               /\ handled o <> true.
Proof.
  split; [reflexivity|]. split; [reflexivity|].
  eexists. split; [reflexivity | discriminate].
Qed.

(* ================================================================= *)
(** ** Generic matches *)





(* ================================================================= *)
(** ** Selling wagons *)

(** The counter of collected wagons never leaves 0. *)
Lemma sell_scan_collects_nothing : forall min max tr_v in_while i st,
  num_to_sell st = 0 ->
  num_to_sell (sell_scan min max in_while i tr_v st) = 0.
Proof.
  induction tr_v as [|w next IH]; intros in_while i st Z0; simpl.
  - destruct (negb in_while && negb (i <=? max)); exact Z0.
  - destruct (negb in_while && negb (i <=? max)); [exact Z0|].
    destruct (w_articulated w); [apply IH, Z0|].
    destruct (i >=? min); [|apply IH, Z0].
    cbn [num_to_sell]. rewrite Z0.
    change (0 >=? to_be_sold_len) with false. cbv iota.
    apply IH. reflexivity.
Qed.

(** C10 — For a train and wagon arguments that parse to a range
    [min <= max] (or to one number), the wsell handler submits no action at
    all and returns 1. *)
Theorem wsell_sells_nothing :
  forall (env : Env) (rnd : Z) (v : Vehicle) (arg0 : string) (more : list string)
         (min : Z),
  v_type v = VEH_TRAIN ->
  GetArgumentInteger env arg0 = Some min ->
  (more = [] \/
   exists arg1 rest max,
     more = arg1 :: rest /\ GetArgumentInteger env arg1 = Some max /\ min <= max) ->
  DoVehicleCommand env rnd v TRAIN_SELL_WAGON (arg0 :: more) = Done (1, []).
Proof.
  intros env rnd v arg0 more min Ty P0 R.
  assert (scan : forall max,
    Done (1, map (fun sold => DoCommandP (v_tile v) sold 0 (CmdSellVeh VEH_TRAIN))
               (firstn (Z.to_nat (num_to_sell
                  (sell_scan min max false 0 (chain v)
                     (mkSell (repeat 0 (Z.to_nat to_be_sold_len)) 0))))
                  (to_be_sold
                     (sell_scan min max false 0 (chain v)
                        (mkSell (repeat 0 (Z.to_nat to_be_sold_len)) 0)))))
    = Done (1, @nil event)).
  { intro max. rewrite sell_scan_collects_nothing by reflexivity. reflexivity. }
  unfold DoVehicleCommand. rewrite Ty, P0.
  destruct R as [->|(arg1 & rest & max & -> & P1 & Le)].
  - apply scan.
  - rewrite P1. apply Z.ltb_ge in Le. rewrite Le. apply scan.
Qed.

(** The train Express with the range 1..3: three parts are in range, none
    is sold. *)
Lemma wsell_sells_nothing_witness :
  DoVehicleCommand Demo.env 0 Demo.express TRAIN_SELL_WAGON ["1"; "3"] = Done (1, []).
Proof.
  apply (@wsell_sells_nothing Demo.env 0 Demo.express "1" ["3"] 1);
    [reflexivity | reflexivity |].
  right. exists "3", [], 3. repeat split. discriminate.
Defined.

(* ================================================================= *)
(** ** Defects shown on the concrete game state *)

(** C5 — The builder accepts the train-only key [wagons] under the mask of
    the [vehicle] selector, and the matcher then meets a road vehicle: the
    assertion [v->type == VEH_TRAIN] fails.  Under the [train] selector the
    bare key [group] builds a criterion without operator, for which
    [NumericMatch] reaches NOT_REACHED on a train that is in a group. *)
Theorem matcher_assertion_reachable :
  CheckMatch ["vehicle"; "wagons>3"; "count"] FOR_VEHICLE
  = Done ([], Some (mkMatchInfo MATCH_WAGONS MATCH_GREATER "3" None), ["count"])
  /\ VehicleMatches Demo.env Demo.lorry (mkMatchInfo MATCH_WAGONS MATCH_GREATER "3" None)
     = Crash (AssertFailed "v->type == VEH_TRAIN")
  /\ ConVehicle Demo.env ["vehicle"; "wagons>3"; "count"]
     = Crash (AssertFailed "v->type == VEH_TRAIN")
  /\ CheckMatch ["train"; "group"; "count"] FOR_TRAIN
     = Done ([], Some (mkMatchInfo MATCH_GROUP MATCH_NONE "group" None), ["count"])
  /\ ConTrain Demo.env ["train"; "group"; "count"] = Crash (NotReached "NumericMatch").
Proof. repeat split. Qed.

(** C1 — Two industries match [all] and [count] accepts both, yet the
    report says one affected; the same for two vehicles.  The town
    dispatcher, which adds instead of assigning, reports two. *)
Theorem affected_is_overwritten :
  Forall (fun i =>
            IndustryMatches Demo.env i (mkMatchInfo MATCH_ALL MATCH_NONE "all" None)
            = Done true
            /\ DoIndustryCommand Demo.env i INDUSTRY_COUNT [] = Done (1, []))
         (industries Demo.env)
  /\ List.length (industries Demo.env) = 2%nat
  /\ ConIndustry Demo.env ["industry"; "all"; "count"]
     = Done (mkOutcome true [report_industries 2 1])
  /\ Forall (fun v =>
               VehicleMatches Demo.env v (mkMatchInfo MATCH_ALL MATCH_NONE "all" None)
               = Done true
               /\ vehicle_requirements FOR_VEHICLE v = Done true
               /\ DoVehicleCommand Demo.env 0 v VEHICLE_COUNT [] = Done (1, []))
            (sort_list Demo.env)
  /\ List.length (sort_list Demo.env) = 2%nat
  /\ ConVehicle Demo.env ["vehicle"; "all"; "count"]
     = Done (mkOutcome true [report_vehicles "vehicle" 2 1])
  /\ ConTown Demo.env ["town"; "all"; "count"]
     = Done (mkOutcome true [report_towns 2 2]).
Proof. repeat (split || constructor). Qed.

(* ================================================================= *)
(** ** The counters of the report *)

Lemma s32_small : forall x, - 2 ^ 31 <= x < 2 ^ 31 -> s32 x = x.
Proof. intros x R. unfold s32. rewrite Z.mod_small; lia. Qed.

Lemma DoTownCommand_result : forall env t command argv r ev,
  DoTownCommand env t command argv = Done (r, ev) -> r = 1.
Proof.
  intros env t command argv r ev E.
  destruct command; cbn in E; try discriminate E; now injection E as <- _.
Qed.

Lemma DoIndustryCommand_result : forall env i command argv r ev,
  DoIndustryCommand env i command argv = Done (r, ev) -> r = 1.
Proof.
  intros env i command argv r ev E. unfold DoIndustryCommand in E.
  destruct (i_produced_cargo_valid i) as [p0 p1].
  destruct (i_accepts_cargo_valid i) as [[a0 a1] a2].
  destruct (i_town i); destruct command; try discriminate E; now injection E as <- _.
Qed.

Ltac break_result E :=
  repeat match type of E with
         | Done _ = Done _ => fail 1
         | Crash _ = Done _ => discriminate E
         | context [match ?x with _ => _ end] => destruct x eqn:?
         end.

Lemma DoVehicleCommand_result : forall env rnd v command argv r ev,
  DoVehicleCommand env rnd v command argv = Done (r, ev) -> r = 0 \/ r = 1.
Proof.
  intros env rnd v command argv r ev E. unfold DoVehicleCommand in E.
  destruct command; break_result E; injection E as <- _; auto.
Qed.

Lemma ConTown_loop_counts : forall env m cmd params_ ts c c',
  ConTown_loop env m cmd params_ ts c = Done c' ->
  counted c -> matched c + Z.of_nat (List.length ts) < 2 ^ 31 ->
  counted c'.
Proof.
  unfold counted.
  induction ts as [|t rest IH]; intros c c' E C B; simpl in E.
  - now injection E as <-.
  - cbn [List.length] in B. rewrite Nat2Z.inj_succ in B.
    destruct (TownMatches env t m) as [[|]|x]; cbn [bind] in E; try discriminate E.
    + destruct (DoTownCommand env t cmd params_) as [[r ev]|x] eqn:D;
        cbn [bind] in E; try discriminate E.
      apply DoTownCommand_result in D. subst r.
      apply IH in E; auto; cbn [matched affected]; rewrite !s32_small; lia.
    + apply IH in E; auto. lia.
Qed.

(** The town dispatcher counts every town that it matches. *)
Lemma ConTown_loop_affects_all : forall env m cmd params_ ts c c',
  ConTown_loop env m cmd params_ ts c = Done c' ->
  0 <= matched c -> affected c = matched c ->
  matched c + Z.of_nat (List.length ts) < 2 ^ 31 ->
  affected c' = matched c'.
Proof.
  induction ts as [|t rest IH]; intros c c' E P A B; simpl in E.
  - now injection E as <-.
  - cbn [List.length] in B. rewrite Nat2Z.inj_succ in B.
    destruct (TownMatches env t m) as [[|]|x]; cbn [bind] in E; try discriminate E.
    + destruct (DoTownCommand env t cmd params_) as [[r ev]|x] eqn:D;
        cbn [bind] in E; try discriminate E.
      apply DoTownCommand_result in D. subst r.
      apply IH in E; auto; cbn [matched affected]; rewrite !s32_small; lia.
    + apply IH in E; auto. lia.
Qed.

Lemma ConIndustry_loop_counts : forall env m cmd params_ inds c c',
  ConIndustry_loop env m cmd params_ inds c = Done c' ->
  counted c -> matched c + Z.of_nat (List.length inds) < 2 ^ 31 ->
  counted c'.
Proof.
  unfold counted.
  induction inds as [|i rest IH]; intros c c' E C B; simpl in E.
  - now injection E as <-.
  - cbn [List.length] in B. rewrite Nat2Z.inj_succ in B.
    destruct (IndustryMatches env i m) as [[|]|x]; cbn [bind] in E; try discriminate E.
    + destruct (DoIndustryCommand env i cmd params_) as [[r ev]|x] eqn:D;
        cbn [bind] in E; try discriminate E.
      apply DoIndustryCommand_result in D. subst r.
      apply IH in E; auto; cbn [matched affected]; rewrite ?s32_small; lia.
    + apply IH in E; auto. lia.
Qed.

Lemma ConVehicleCommand_loop_counts : forall env m cmd params_ vs vi c c',
  ConVehicleCommand_loop env m cmd params_ vi vs c = Done c' ->
  counted c -> matched c + Z.of_nat (List.length vs) < 2 ^ 31 ->
  counted c'.
Proof.
  unfold counted.
  induction vs as [|v rest IH]; intros vi c c' E C B; simpl in E.
  - now injection E as <-.
  - cbn [List.length] in B. rewrite Nat2Z.inj_succ in B.
    destruct (VehicleMatches env v m) as [[|]|x]; cbn [bind] in E; try discriminate E.
    + destruct (vehicle_requirements (req cmd) v) as [[|]|x];
        cbn [bind] in E; try discriminate E.
      * destruct (DoVehicleCommand env (InteractiveRandom env vi) v (id cmd) params_)
          as [[r ev]|x] eqn:D; cbn [bind] in E; try discriminate E.
        apply DoVehicleCommand_result in D.
        apply IH in E; auto; cbn [matched affected]; rewrite ?s32_small; lia.
      * apply IH in E; auto; cbn [matched affected]; rewrite ?s32_small; lia.
    + apply IH in E; auto. lia.
Qed.

Lemma final_snoc : forall l e, final (l ++ [e]) = e.
Proof. intros. apply last_last. Qed.

Lemma final_errors : forall l, Forall is_error l -> is_error (final l).
Proof.
  intros l F. unfold final.
  destruct l as [|e l'] using rev_ind.
  - exists "". reflexivity.
  - rewrite last_last. apply Forall_app in F as [_ F]. now inversion F.
Qed.

Lemma final_tail2 : forall l a b, final (l ++ [a; b]) = b.
Proof.
  intros l a b. change [a; b] with ([a] ++ [b]). rewrite app_assoc. apply final_snoc.
Qed.

Lemma final_tail3 : forall l a b c, final (l ++ [a; b; c]) = c.
Proof.
  intros l a b c. change [a; b; c] with ([a; b] ++ [c]).
  rewrite app_assoc. apply final_snoc.
Qed.

Lemma report_not_error : forall fmt args, ~ is_error (IConsolePrintF fmt args).
Proof. intros fmt args [msg E]. discriminate E. Qed.

Ltac final_of L :=
  apply (f_equal final) in L; rewrite final_snoc in L; cbn [log] in L.

(** C6 — Count invariant.  When a dispatcher ends with its report line
    (the pool holding fewer than [2^31] entities, so that the [int]
    counters do not overflow), the reported counts satisfy
    [affected <= matched]. *)
Theorem affected_at_most_matched :
  forall (env : Env) (argv : list string),
  (forall o pre m a,
     Z.of_nat (List.length (towns env)) < 2 ^ 31 ->
     ConTown env argv = Done o ->
     log o = pre ++ [report_towns m a] -> a <= m)
  /\ (forall o pre m a,
        Z.of_nat (List.length (industries env)) < 2 ^ 31 ->
        ConIndustry env argv = Done o ->
        log o = pre ++ [report_industries m a] -> a <= m)
  /\ (forall vtype argv0 o pre vehicle_name m a,
        Z.of_nat (List.length (sort_list env)) < 2 ^ 31 ->
        ConVehicleCommand env argv vtype argv0 = Done o ->
        log o = pre ++ [report_vehicles vehicle_name m a] -> a <= m).
Proof.
  intros env argv. split; [|split].
  - intros o pre m a B E L. final_of L. unfold ConTown in E.
    set (hp := ConCommandsHelp _ _ _ _) in E; clearbody hp.
    destruct (argc_of argv =? 0).
    { injection E as <-. cbn [log] in L. rewrite final_tail2 in L. discriminate L. }
    destruct (argc_of argv <? 3).
    { injection E as <-. discriminate L. }
    destruct (CheckMatch argv FOR_TOWN) as [[[out0 mm] rest]|x] eqn:C;
      cbn [bind] in E; [|discriminate E].
    destruct (CheckMatch_out _ _ C) as [F _].
    assert (NF : final out0 <> report_towns m a).
    { intro X. apply final_errors in F. rewrite X in F.
      exact (report_not_error F). }
    destruct mm as [mm|]; [|injection E as <-; contradiction].
    destruct rest as [|arg params_]; [injection E as <-; contradiction|].
    destruct (GetTownCommand arg) as [cmd|]; cbn [bind in_bounds] in E; [|discriminate E].
    destruct (negb (id_set cmd)).
    { injection E as <-. cbn [log] in L. rewrite final_snoc in L. discriminate L. }
    destruct (argc_of (arg :: params_) <? 1 + params cmd).
    { injection E as <-. cbn [log] in L. rewrite final_snoc in L. discriminate L. }
    destruct (has_bits (req cmd) IS_ALIAS); [discriminate E|].
    destruct (ConTown_loop env mm (id cmd) params_ (towns env) (mkCounters 0 0 []))
      as [c|x] eqn:Lp; cbn [bind] in E; [|discriminate E].
    injection E as <-. cbn [log] in L.
    rewrite !app_assoc, final_snoc in L. injection L as <- <-.
    apply ConTown_loop_counts in Lp; unfold counted in *; cbn; try lia.
  - intros o pre m a B E L. final_of L. unfold ConIndustry in E.
    set (hp := ConCommandsHelp _ _ _ _) in E; clearbody hp.
    destruct (argc_of argv =? 0).
    { injection E as <-. cbn [log] in L. rewrite final_tail2 in L. discriminate L. }
    destruct (argc_of argv <? 3).
    { injection E as <-. discriminate L. }
    destruct (CheckMatch argv FOR_INDUSTRY) as [[[out0 mm] rest]|x] eqn:C;
      cbn [bind] in E; [|discriminate E].
    destruct (CheckMatch_out _ _ C) as [F _].
    assert (NF : final out0 <> report_industries m a).
    { intro X. apply final_errors in F. rewrite X in F.
      exact (report_not_error F). }
    destruct mm as [mm|]; [|injection E as <-; contradiction].
    destruct rest as [|arg params_]; [injection E as <-; contradiction|].
    destruct (GetIndustryCommand arg) as [cmd|]; cbn [bind in_bounds] in E;
      [|discriminate E].
    destruct (negb (id_set cmd)).
    { injection E as <-. cbn [log] in L. rewrite final_snoc in L. discriminate L. }
    destruct (argc_of (arg :: params_) <? 1 + params cmd).
    { injection E as <-. cbn [log] in L. rewrite final_snoc in L. discriminate L. }
    destruct (has_bits (req cmd) IS_ALIAS); [discriminate E|].
    destruct (ConIndustry_loop env mm (id cmd) params_ (industries env)
                (mkCounters 0 0 [])) as [c|x] eqn:Lp; cbn [bind] in E; [|discriminate E].
    injection E as <-. cbn [log] in L.
    rewrite !app_assoc, final_snoc in L. injection L as <- <-.
    apply ConIndustry_loop_counts in Lp; unfold counted in *; cbn; try lia.
  - intros vtype argv0 o pre vehicle_name m a B E L. final_of L.
    unfold ConVehicleCommand in E.
    destruct (vehicle_selector vtype) as [[mask vname]|x]; cbn [bind] in E;
      [|discriminate E].
    set (hp := ConCommandsHelp _ _ _ _) in E; clearbody hp.
    destruct (argc_of argv =? 0).
    { injection E as <-. cbn [log] in L. rewrite final_tail3 in L. discriminate L. }
    destruct (negb (Company_IsValidID env (local_company env))).
    { injection E as <-. discriminate L. }
    destruct (argc_of argv <? 3).
    { injection E as <-. discriminate L. }
    destruct (CheckMatch argv mask) as [[[out0 mm] rest]|x] eqn:C;
      cbn [bind] in E; [|discriminate E].
    destruct (CheckMatch_out _ _ C) as [F _].
    assert (NF : final out0 <> report_vehicles vehicle_name m a).
    { intro X. apply final_errors in F. rewrite X in F.
      exact (report_not_error F). }
    destruct mm as [mm|]; [|injection E as <-; contradiction].
    destruct rest as [|arg params_]; [injection E as <-; contradiction|].
    destruct (GetVehicleCommand arg) as [cmd|]; cbn [bind in_bounds] in E;
      [|discriminate E].
    destruct (negb (id_set cmd)).
    { injection E as <-. cbn [log] in L. rewrite final_snoc in L. discriminate L. }
    destruct (argc_of (arg :: params_) <? 1 + params cmd).
    { injection E as <-. cbn [log] in L. rewrite final_snoc in L. discriminate L. }
    destruct (negb (has_bits (req cmd) mask)).
    { injection E as <-. cbn [log] in L. rewrite final_snoc in L. discriminate L. }
    destruct (has_bits (req cmd) IS_ALIAS); [discriminate E|].
    destruct (convert_group_matches env mm false 0) as [[mm' gl] oid].
    destruct (ConVehicleCommand_loop env mm' cmd params_ 0 (sort_list env)
                (mkCounters 0 0 [])) as [c|x] eqn:Lp; cbn [bind] in E; [|discriminate E].
    injection E as <-. cbn [log] in L.
    rewrite !app_assoc, final_snoc in L. injection L as _ <- <-.
    apply ConVehicleCommand_loop_counts in Lp; unfold counted in *; cbn; try lia.
Qed.

(** The three reports on the concrete game state: 2/2 towns, 2/1
    industries, 2/1 vehicles. *)
Lemma affected_at_most_matched_witness :
  (exists pre m a,
     ConTown Demo.env ["town"; "all"; "count"]
     = Done (mkOutcome true (pre ++ [report_towns m a])) /\ a <= m)
  /\ (exists pre m a,
        ConIndustry Demo.env ["industry"; "all"; "count"]
        = Done (mkOutcome true (pre ++ [report_industries m a])) /\ a <= m)
  /\ (exists pre m a,
        ConVehicle Demo.env ["vehicle"; "all"; "count"]
        = Done (mkOutcome true (pre ++ [report_vehicles "vehicle" m a])) /\ a <= m).
Proof.
  split; [|split].
  - exists [], 2, 2. split; [reflexivity|].
    apply (proj1 (affected_at_most_matched Demo.env ["town"; "all"; "count"])
             (mkOutcome true [report_towns 2 2]) [] 2 2); reflexivity.
  - exists [], 2, 1. split; [reflexivity|].
    apply (proj1 (proj2 (affected_at_most_matched Demo.env ["industry"; "all"; "count"]))
             (mkOutcome true [report_industries 2 1]) [] 2 1); reflexivity.
  - exists [], 2, 1. split; [reflexivity|].
    apply (proj2 (proj2 (affected_at_most_matched Demo.env ["vehicle"; "all"; "count"]))
             VEH_INVALID "vehicle" (mkOutcome true [report_vehicles "vehicle" 2 1])
             [] "vehicle" 2 1); reflexivity.
Defined.

(** Scenario B: chaining [and all] after [crashed] changes nothing, in
    either order. *)
Lemma chain_is_conjunction_witness :
  CheckMatch ["train"; "crashed"; "and"; "all"; "count"] FOR_TRAIN
  = Done ([], Some (mkMatchInfo MATCH_ALL MATCH_NONE "all"
                      (Some (mkMatchInfo MATCH_CRASHED MATCH_NONE "crashed" None))),
          ["count"])
  /\ (VehicleMatches Demo.env Demo.express
        (mkMatchInfo MATCH_ALL MATCH_NONE "all"
           (Some (mkMatchInfo MATCH_CRASHED MATCH_NONE "crashed" None))) = Done true <->
      VehicleMatches Demo.env Demo.express
        (mkMatchInfo MATCH_CRASHED MATCH_NONE "crashed"
           (Some (mkMatchInfo MATCH_ALL MATCH_NONE "all" None))) = Done true).
Proof.
  split; [reflexivity|].
  apply (proj2 (proj2 (proj2 (chain_is_conjunction Demo.env)))
           Demo.express Demo.alpha Demo.mine
           (mkMatchInfo MATCH_ALL MATCH_NONE "all"
              (Some (mkMatchInfo MATCH_CRASHED MATCH_NONE "crashed" None)))
           (mkMatchInfo MATCH_CRASHED MATCH_NONE "crashed"
              (Some (mkMatchInfo MATCH_ALL MATCH_NONE "all" None)))).
  apply perm_swap.
Defined.

(* ================================================================= *)
(** * Further properties of the code *)

(** ** The resolver, continued *)

(** X1 — [str_isprefix] accepts exactly the non-empty queries that the
    name starts with, letter case aside: an empty query is a prefix of
    nothing, a query longer than the name is not a prefix, and a non-empty
    query equal to the name (ignoring case) is one. *)
Theorem str_isprefix_meaning : forall q n : string,
  (str_isprefix q n = true <->
   q <> EmptyString /\ exists rest, lower n = append (lower q) rest)
  /\ str_isprefix EmptyString n = false
  /\ (str_isprefix q n = true -> (String.length q <= String.length n)%nat)
  /\ (q <> EmptyString -> stricmp q n = 0 -> str_isprefix q n = true).
Proof.
  intros q n. split; [apply str_isprefix_spec|]. split; [reflexivity|]. split.
  - intro P. apply str_isprefix_spec in P as [_ [rest E]].
    assert (L : forall s, String.length (lower s) = String.length s)
      by (induction s; simpl; congruence).
    rewrite <- (L q), <- (L n), E.
    clear. induction (lower q); simpl; lia.
  - intros N E. apply str_isprefix_spec. split; [exact N|].
    apply stricmp_zero_lower in E. exists EmptyString. rewrite E.
    clear. induction (lower n); simpl; congruence.
Qed.

Lemma str_isprefix_meaning_witness :
  (String.length "cen" <= String.length "centre")%nat
  /\ str_isprefix "OPEN" "open" = true.
Proof.
  split.
  - apply (proj1 (proj2 (proj2 (str_isprefix_meaning "cen" "centre")))). reflexivity.
  - apply (proj2 (proj2 (proj2 (str_isprefix_meaning "OPEN" "open"))));
      [discriminate | reflexivity].
Defined.

Section ResolverMore.
Context {T : Type} `{EnumId T}.
Variable invalid_value : StringInfo T.

Implicit Types arr tbl : list (StringInfo T).

Lemma GetStringInfo_from_result : forall q arr cmd u d,
  GetStringInfo_from q invalid_value arr cmd u = Some d ->
  d = invalid_value \/ d = cmd \/ (In d arr /\ is_alias d = false).
Proof.
  induction arr as [|d0 rest IH]; intros cmd u d; cbn [GetStringInfo_from].
  - destruct (id_set cmd && u); intros [= <-]; auto.
  - destruct (skip_aliases (d0 :: rest)) as [real|] eqn:S; [|discriminate].
    destruct (skip_aliases_real _ S) as [A I].
    destruct (stricmp q (name d0) =? 0).
    { intros [= <-]. auto. }
    destruct (str_isprefix q (name d0) && negb (enum_val (id real) =? enum_val (id cmd)));
      intro E; apply IH in E as [E|[E|[E E']]]; subst; simpl; auto.
Qed.

Lemma GetStringInfo_from_returns : forall q arr cmd u,
  aliases_resolve arr = true ->
  exists d, GetStringInfo_from q invalid_value arr cmd u = Some d.
Proof.
  induction arr as [|d0 rest IH]; intros cmd u R; cbn [GetStringInfo_from]; [eauto|].
  destruct (aliases_resolve_cons _ _ R) as [[real S] R']. rewrite S.
  destruct (stricmp q (name d0) =? 0); [eauto|].
  destruct (str_isprefix q (name d0) && negb (enum_val (id real) =? enum_val (id cmd)));
    apply IH, R'.
Qed.

Lemma GetStringInfo_from_overrun : forall q arr cmd u,
  aliases_resolve arr = false ->
  (forall e, In e arr -> stricmp q (name e) <> 0) ->
  GetStringInfo_from q invalid_value arr cmd u = None.
Proof.
  induction arr as [|d0 rest IH]; intros cmd u R NE; [discriminate R|].
  cbn [GetStringInfo_from]. cbn [aliases_resolve] in R.
  destruct (skip_aliases (d0 :: rest)) as [real|]; [|reflexivity].
  cbn [non_null andb] in R.
  destruct (stricmp q (name d0) =? 0) eqn:X.
  { apply Z.eqb_eq in X. exfalso. apply (NE d0); simpl; auto. }
  assert (NE' : forall e, In e rest -> stricmp q (name e) <> 0)
    by (intros; apply NE; simpl; auto).
  destruct (str_isprefix q (name d0) && negb (enum_val (id real) =? enum_val (id cmd)));
    apply IH; auto.
Qed.

Lemma GetStringInfo_from_no_hit : forall q arr u,
  aliases_resolve arr = true ->
  (forall e, In e arr -> stricmp q (name e) <> 0) ->
  (forall e, In e arr -> str_isprefix q (name e) = false) ->
  GetStringInfo_from q invalid_value arr invalid_value u = Some invalid_value.
Proof.
  induction arr as [|d0 rest IH]; intros u R NE NP; cbn [GetStringInfo_from].
  - now destruct (id_set invalid_value && u).
  - destruct (aliases_resolve_cons _ _ R) as [[real S] R']. rewrite S.
    destruct (stricmp q (name d0) =? 0) eqn:X.
    { apply Z.eqb_eq in X. exfalso. apply (NE d0); simpl; auto. }
    rewrite (NP d0) by (simpl; auto). cbn [andb].
    apply IH; auto; intros; [apply NE | apply NP]; simpl; auto.
Qed.

Lemma strcasecmp_lower_l : forall s1 s2, strcasecmp (lower s1) s2 = strcasecmp s1 s2.
Proof.
  induction s1 as [|c1 r1 IH]; destruct s2 as [|c2 r2]; simpl; try reflexivity.
  now rewrite tolower_idem, IH.
Qed.

Lemma str_isprefix_from_lower_l : forall s1 s2 b,
  str_isprefix_from b (lower s1) s2 = str_isprefix_from b s1 s2.
Proof.
  induction s1 as [|c1 r1 IH]; destruct s2 as [|c2 r2]; intro b; simpl; try reflexivity.
  now rewrite tolower_idem, IH.
Qed.

Lemma GetStringInfo_from_lower : forall q arr cmd u,
  GetStringInfo_from (lower q) invalid_value arr cmd u
  = GetStringInfo_from q invalid_value arr cmd u.
Proof.
  induction arr as [|d0 rest IH]; intros cmd u; cbn [GetStringInfo_from]; [reflexivity|].
  unfold stricmp, str_isprefix.
  rewrite strcasecmp_lower_l, str_isprefix_from_lower_l.
  destruct (skip_aliases (d0 :: rest)); [|reflexivity].
  destruct (strcasecmp q (name d0) =? 0); [reflexivity|].
  destruct (str_isprefix_from false q (name d0) && _); apply IH.
Qed.

End ResolverMore.

(** X2 — Alias indirection.  Whatever the query and the table, a
    descriptor that [GetStringInfo] returns is the invalid value or an
    entry of the table that is not an alias: the alias sentinel never comes
    back. *)
Theorem resolver_never_returns_alias {T : Type} `{EnumId T} :
  forall (q : string) (invalid_value d : StringInfo T) (tbl : list (StringInfo T)),
  GetStringInfo q invalid_value tbl = Some d ->
  d = invalid_value \/ (In d tbl /\ is_alias d = false).
Proof.
  intros q invalid_value d tbl E. unfold GetStringInfo in E.
  apply GetStringInfo_from_result in E. tauto.
Qed.

Lemma resolver_never_returns_alias_witness :
  nth 6 town_commands INVALID_COMMAND_TOWN = INVALID_COMMAND_TOWN
  \/ (In (nth 6 town_commands INVALID_COMMAND_TOWN) town_commands
      /\ is_alias (nth 6 town_commands INVALID_COMMAND_TOWN) = false).
Proof.
  apply (@resolver_never_returns_alias _ _ "show"). reflexivity.
Defined.

(** X3 — Bounds of the alias scan.  On a table in which every run of
    aliases ends in a command the resolver always returns; on a table that
    ends in an alias, a query that equals no name makes the scan read past
    the end of the table. *)
Theorem resolver_stays_in_table {T : Type} `{EnumId T} :
  forall (q : string) (invalid_value : StringInfo T) (tbl : list (StringInfo T)),
  (aliases_resolve tbl = true ->
   exists d, GetStringInfo q invalid_value tbl = Some d)
  /\ (aliases_resolve tbl = false ->
      (forall e, In e tbl -> stricmp q (name e) <> 0) ->
      GetStringInfo q invalid_value tbl = None).
Proof.
  intros q invalid_value tbl. split.
  - apply GetStringInfo_from_returns.
  - apply GetStringInfo_from_overrun.
Qed.

Lemma resolver_stays_in_table_witness :
  (exists d, GetVehicleCommand "wse" = Some d)
  /\ GetStringInfo "x" INVALID_COMMAND_TOWN
       [mkInfo TOWN_COUNT "count" 0 FOR_TOWN ""; mkInfo TOWN_COMMAND_ALIAS "tally" 0 0 ""]
     = None.
Proof.
  split.
  - apply (proj1 (resolver_stays_in_table "wse" INVALID_COMMAND_VEHICLE veh_commands)).
    reflexivity.
  - apply (proj2 (resolver_stays_in_table "x" INVALID_COMMAND_TOWN _)); [reflexivity|].
    intros e [<-|[<-|[]]]; discriminate.
Defined.

(** X4 — Not found.  When no entry's name equals the query and the query
    is a prefix of none, the invalid value is returned; so is it for the
    empty query on any table without an empty name. *)
Theorem resolver_not_found {T : Type} `{EnumId T} :
  forall (q : string) (invalid_value : StringInfo T) (tbl : list (StringInfo T)),
  aliases_resolve tbl = true ->
  ((forall e, In e tbl -> stricmp q (name e) <> 0) ->
   (forall e, In e tbl -> str_isprefix q (name e) = false) ->
   GetStringInfo q invalid_value tbl = Some invalid_value)
  /\ ((forall e, In e tbl -> name e <> EmptyString) ->
      GetStringInfo EmptyString invalid_value tbl = Some invalid_value).
Proof.
  intros q invalid_value tbl R. split.
  - intros NE NP. now apply GetStringInfo_from_no_hit.
  - intros NN. apply GetStringInfo_from_no_hit; auto.
    intros e I E. apply stricmp_zero_lower in E.
    apply (NN e I). destruct (name e); [reflexivity | discriminate E].
Qed.

Lemma resolver_not_found_witness :
  GetIndustryCommand "" = Some INVALID_COMMAND_INDUSTRY.
Proof.
  refine (proj2 (resolver_not_found "" INVALID_COMMAND_INDUSTRY ind_commands _) _);
    [reflexivity|].
  intros e I. repeat (destruct I as [<-|I]; [discriminate|]). destruct I.
Defined.

(** X5 — The resolver ignores the letter case of the query: two queries
    with the same lower-case form resolve alike in every table. *)
Theorem resolver_ignores_case {T : Type} `{EnumId T} :
  forall (q q' : string) (invalid_value : StringInfo T) (tbl : list (StringInfo T)),
  lower q = lower q' ->
  GetStringInfo q invalid_value tbl = GetStringInfo q' invalid_value tbl.
Proof.
  intros q q' invalid_value tbl E. unfold GetStringInfo.
  rewrite <- (GetStringInfo_from_lower invalid_value q),
          <- (GetStringInfo_from_lower invalid_value q'), E.
  reflexivity.
Qed.

Lemma resolver_ignores_case_witness :
  GetVehicleCommand "WSell" = GetVehicleCommand "wsell".
Proof. apply resolver_ignores_case. reflexivity. Defined.

(* ================================================================= *)
(** ** The tokenizer, continued *)

Lemma no_operator_scan : forall s,
  has_operator s = false ->
  at_ s (strcspn s ["<"; ">"; "="]%char) = None
  /\ take (strcspn s ["<"; ">"; "="]%char) s = s
  /\ ((strcspn s ["<"; ">"; "="]%char =? 0)%nat = true -> s = EmptyString).
Proof.
  induction s as [|c r IH]; cbn [has_operator strcspn]; intro E; [auto|].
  fold (is_operator_char c). apply orb_false_iff in E as [O E]. rewrite O.
  destruct (IH E) as (A & Tk & _). repeat split.
  - exact A.
  - simpl. now rewrite Tk.
  - discriminate.
Qed.

Lemma no_operator_split : forall s,
  has_operator s = false ->
  split_operator s (strcspn s ["<"; ">"; "="]%char) = (s, MATCH_NONE).
Proof.
  intros s E. unfold split_operator. now rewrite (proj1 (no_operator_scan s E)).
Qed.

Lemma tokenize_key : forall token,
  fst (fst (tokenize token)) = take (strcspn token ["<"; ">"; "="]%char) token.
Proof.
  induction token as [|c r IH]; [reflexivity|].
  cbn [strcspn]. fold (is_operator_char c). destruct (is_operator_char c) eqn:O.
  - destruct (is_operator_char_inv _ O) as [-> | [-> | ->]]; try reflexivity.
    + destruct r as [|c2 r2]; [reflexivity|]. ascii_cases c2; reflexivity.
    + destruct r as [|c2 r2]; [reflexivity|]. ascii_cases c2; reflexivity.
  - rewrite (@tokenize_cons c r O).
    destruct (tokenize r) as [[k o] v]. simpl in *. now rewrite IH.
Qed.

Lemma key_empty_iff : forall token,
  (strcspn token ["<"; ">"; "="]%char =? 0)%nat = true <->
  fst (fst (tokenize token)) = EmptyString.
Proof.
  intro token. rewrite tokenize_key.
  destruct token as [|c r]; [simpl; tauto|].
  cbn [strcspn]. destruct (existsb (Ascii.eqb c) _); simpl; split;
    (reflexivity || discriminate).
Qed.

(** X6 — A token without comparison operator, when it builds a criterion,
    builds one with no operator whose literal is the whole token, standing
    alone. *)
Theorem bare_token_criterion :
  forall (token : string) (mask : Z) (out_ : list event) (m : MatchInfo),
  has_operator token = false ->
  CheckMatch_token token mask = Done (out_, Some m) ->
  m_subtype m = MATCH_NONE /\ m_id m = token /\ m_next m = None /\ out_ = [].
Proof.
  intros token mask out_ m E B. unfold CheckMatch_token in B.
  rewrite (no_operator_split token E) in B.
  destruct (strcspn token _ =? 0)%nat; cbn [bind] in B.
  - injection B as <- <-. auto.
  - destruct (GetMatchType _) as [d|]; cbn [bind in_bounds] in B; [|discriminate B].
    destruct (id_set d); [destruct (negb (has_bits (req d) mask))|];
      cbn [bind] in B; try discriminate B; injection B as <- <-; auto.
Qed.

Lemma bare_token_criterion_witness :
  m_subtype (mkMatchInfo MATCH_SPEED MATCH_NONE "speed" None) = MATCH_NONE
  /\ m_id (mkMatchInfo MATCH_SPEED MATCH_NONE "speed" None) = "speed"
  /\ m_next (mkMatchInfo MATCH_SPEED MATCH_NONE "speed" None) = None
  /\ @nil event = [].
Proof.
  apply (@bare_token_criterion "speed" FOR_TRAIN); reflexivity.
Defined.

(** X7 — A filter key that resolves to a match keyword which is not valid
    under the mask of the selector makes the token fail: one error line is
    printed and no criterion is built. *)
Theorem inapplicable_key_fails :
  forall (token : string) (mask : Z) (key value : string) (op : MatchSubtype)
         (d : StringInfo MatchType),
  tokenize token = (key, op, value) -> key <> EmptyString ->
  GetMatchType key = Some d -> id_set d = true ->
  has_bits (req d) mask = false ->
  CheckMatch_token token mask = Done ([invalid_match_type], None).
Proof.
  intros token mask key value op d Tk NK G S A.
  pose proof (tokenize_key token) as K. rewrite Tk in K. simpl in K.
  unfold CheckMatch_token.
  destruct (split_operator token _) as [mid st].
  destruct (strcspn token _ =? 0)%nat eqn:Z0.
  - apply key_empty_iff in Z0. rewrite Tk in Z0. contradiction.
  - rewrite <- K, G. cbn [bind in_bounds]. rewrite S, A. reflexivity.
Qed.

Lemma inapplicable_key_fails_witness :
  CheckMatch_token "population>5" FOR_TRAIN = Done ([invalid_match_type], None).
Proof.
  apply (@inapplicable_key_fails "population>5" FOR_TRAIN "population" "5" MATCH_GREATER
           (nth 12 match_info INVALID_MATCH)); try reflexivity.
  discriminate.
Defined.

(** X8 — A token [key op value] whose key resolves to a match keyword valid
    under the mask builds the criterion of that keyword with the operator
    and the value of the token. *)
Theorem applicable_key_criterion :
  forall (token : string) (mask : Z) (key value : string) (op : MatchSubtype)
         (d : StringInfo MatchType),
  has_operator token = true ->
  tokenize token = (key, op, value) -> key <> EmptyString ->
  GetMatchType key = Some d -> id_set d = true ->
  has_bits (req d) mask = true ->
  CheckMatch_token token mask = Done ([], Some (mkMatchInfo (id d) op value None)).
Proof.
  intros token mask key value op d E Tk NK G S A.
  destruct (split_operator_tokenize token E) as (Tk' & _ & _).
  rewrite Tk in Tk'. injection Tk' as -> -> ->.
  unfold CheckMatch_token.
  destruct (split_operator token (strcspn token ["<"; ">"; "="]%char))
    as [mid match_subtype].
  simpl fst in *; simpl snd in *.
  rewrite (special_match_operator token mask match_nn_info E eq_refl).
  destruct (strcspn token _ =? 0)%nat eqn:Z0.
  - apply key_empty_iff in Z0. rewrite Tk in Z0. contradiction.
  - rewrite G. cbn [bind in_bounds]. rewrite S, A. reflexivity.
Qed.

Lemma applicable_key_criterion_witness :
  CheckMatch_token "Pop<=5000" FOR_TOWN
  = Done ([], Some (mkMatchInfo MATCH_TOWN_POPULATION MATCH_LESS_OR_EQUAL "5000" None)).
Proof.
  apply (@applicable_key_criterion "Pop<=5000" FOR_TOWN "Pop" "5000" MATCH_LESS_OR_EQUAL
           (nth 12 match_info INVALID_MATCH)); try reflexivity.
  discriminate.
Defined.

Lemma special_match_hit : forall token mask nn e,
  distinct_names nn = true ->
  In e nn -> has_bits (req e) mask = true -> stricmp token (name e) = 0 ->
  special_match token mask nn = Some (id e).
Proof.
  induction nn as [|h rest IH]; intros e D I A E; [destruct I|].
  cbn [distinct_names] in D. apply andb_true_iff in D as [Dh Dr].
  cbn [special_match]. destruct I as [<-|I].
  - rewrite A. apply Z.eqb_eq in E. now rewrite E.
  - assert (X : (stricmp token (name h) =? 0) = false).
    { apply Z.eqb_neq. intro X.
      rewrite forallb_forall in Dh. specialize (Dh e I).
      apply negb_true_iff, Z.eqb_neq in Dh. apply Dh.
      apply stricmp_zero_lower. apply stricmp_zero_lower in X, E. congruence. }
    rewrite X, andb_false_r. now apply IH.
Qed.

Lemma special_names_unresolved : forall e,
  In e match_nn_info ->
  GetMatchType (lower (name e)) = Some INVALID_MATCH
  /\ has_operator (name e) = false /\ lower (name e) <> EmptyString.
Proof.
  intros e I. repeat (destruct I as [<-|I]; [repeat split; discriminate|]).
  destruct I.
Qed.

Lemma GetMatchType_lower : forall q, GetMatchType (lower q) = GetMatchType q.
Proof. intro q. apply GetStringInfo_from_lower. Qed.

(** X9 — Special keywords.  A token that equals, ignoring case, the name of
    a special keyword valid under the mask ([all], [*], [broken], [crashed],
    [depot], [statue], [no_statue]) builds the criterion of that keyword,
    without operator. *)
Theorem special_keyword_criterion :
  forall (token : string) (mask : Z) (e : StringInfo MatchType),
  In e match_nn_info -> has_bits (req e) mask = true ->
  stricmp token (name e) = 0 ->
  CheckMatch_token token mask
  = Done ([], Some (mkMatchInfo (id e) MATCH_NONE token None)).
Proof.
  intros token mask e I A E.
  destruct (@special_names_unresolved e I) as (G & O & NE).
  pose proof E as L. apply stricmp_zero_lower in L.
  assert (O' : has_operator token = false).
  { rewrite <- has_operator_lower, L, has_operator_lower. exact O. }
  destruct (no_operator_scan token O') as (_ & Tk & Z0).
  unfold CheckMatch_token.
  rewrite (no_operator_split token O'), Tk.
  rewrite (@special_match_hit token mask match_nn_info e eq_refl I A E).
  destruct (strcspn token _ =? 0)%nat; [reflexivity|].
  rewrite <- GetMatchType_lower, L, G. reflexivity.
Qed.

Lemma special_keyword_criterion_witness :
  CheckMatch_token "Crashed" FOR_SHIP
  = Done ([], Some (mkMatchInfo MATCH_CRASHED MATCH_NONE "Crashed" None)).
Proof.
  apply (@special_keyword_criterion "Crashed" FOR_SHIP (nth 3 match_nn_info INVALID_MATCH));
    [right; right; right; left; reflexivity | reflexivity | reflexivity].
Defined.

(* ================================================================= *)
(** ** The chain builder, continued *)

Lemma CheckMatch_loop_last : forall mask t1 m1 cmd params_ m0,
  CheckMatch_token t1 mask = Done ([], Some m1) -> is_and cmd = false ->
  CheckMatch_loop mask (t1 :: cmd :: params_) m0
  = Done ([], Some (set_next m1 m0), cmd :: params_).
Proof.
  intros mask t1 m1 cmd params_ m0 B NA.
  cbn [CheckMatch_loop]. rewrite B. cbn [bind]. rewrite NA. reflexivity.
Qed.

Lemma CheckMatch_loop_and : forall mask t1 m1 sep rest m0 r,
  CheckMatch_token t1 mask = Done ([], Some m1) -> is_and sep = true ->
  CheckMatch_loop mask rest (Some (set_next m1 m0)) = Done ([], fst r, snd r) ->
  CheckMatch_loop mask (t1 :: sep :: rest) m0 = Done ([], fst r, snd r).
Proof.
  intros mask t1 m1 sep rest m0 r B S L.
  change (CheckMatch_loop mask (t1 :: sep :: rest) m0)
    with (xt <- CheckMatch_token t1 mask ;;
          match xt with
          | (out_, Some tm) =>
              if negb (is_and sep) then Done (out_, Some (set_next tm m0), sep :: rest)
              else
                xr <- CheckMatch_loop mask rest (Some (set_next tm m0)) ;;
                match xr with (out', m', argv') => Done (out_ ++ out', m', argv') end
          | (out_, None) => Done (out_, None, t1 :: sep :: rest)
          end).
  rewrite B. cbn [bind]. rewrite S. cbn [negb]. rewrite L. reflexivity.
Qed.

Lemma CheckMatch_loop_joined : forall mask more t1 m1 ms cmd params_ m0,
  CheckMatch_token t1 mask = Done ([], Some m1) ->
  Forall2 (fun st m => is_and (fst st) = true
                       /\ CheckMatch_token (snd st) mask = Done ([], Some m)) more ms ->
  is_and cmd = false ->
  CheckMatch_loop mask (and_joined t1 more ++ cmd :: params_) m0
  = Done ([], link_all (m1 :: ms) m0, cmd :: params_).
Proof.
  induction more as [|[sep t2] more IH]; intros t1 m1 ms cmd params_ m0 B1 F NA.
  - inversion F; subst. apply CheckMatch_loop_last; assumption.
  - inversion F as [|st m2 more' ms' [S B2] F']; subst. simpl in S, B2.
    change (and_joined t1 ((sep, t2) :: more) ++ cmd :: params_)
      with (t1 :: sep :: (and_joined t2 more ++ cmd :: params_)).
    apply (@CheckMatch_loop_and mask t1 m1 sep _ m0
             (link_all (m1 :: m2 :: ms') m0, cmd :: params_) B1 S).
    apply (IH t2 m2 ms' cmd params_ (Some (set_next m1 m0)) B2 F' NA).
Qed.

Lemma criteria_link_all : forall ms m0 c,
  Forall (fun m => m_next m = None) ms ->
  link_all ms m0 = Some c ->
  criteria c = rev ms ++ match m0 with Some c0 => criteria c0 | None => [] end.
Proof.
  unfold link_all.
  induction ms as [|m ms IH]; intros m0 c F E; simpl in E.
  - subst m0. reflexivity.
  - inversion F as [|? ? N F']; subst.
    rewrite (IH _ _ F' E). simpl. rewrite <- app_assoc. f_equal.
    destruct m as [ty st mid nx]. simpl in N. subst nx. reflexivity.
Qed.

Lemma link_all_some : forall ms o, o <> None -> link_all ms o <> None.
Proof.
  unfold link_all. induction ms as [|m ms IH]; intros o N; simpl; [exact N|].
  apply IH. discriminate.
Qed.

(** X10 — Filter tokens joined by [and] or [&] and followed by a command
    build one chain: when every token builds a criterion, [CheckMatch]
    prints nothing, hands back the command and its parameters untouched,
    and returns the criteria of the tokens in reverse order (the chain grows
    from the front). *)
Theorem chain_of_joined_tokens :
  forall (mask : Z) (selector t1 : string) (more : list (string * string))
         (m1 : MatchInfo) (ms : list MatchInfo) (cmd : string) (params_ : list string),
  CheckMatch_token t1 mask = Done ([], Some m1) ->
  Forall2 (fun st m => is_and (fst st) = true
                       /\ CheckMatch_token (snd st) mask = Done ([], Some m)) more ms ->
  is_and cmd = false ->
  exists chain_,
    CheckMatch (selector :: and_joined t1 more ++ cmd :: params_) mask
    = Done ([], Some chain_, cmd :: params_)
    /\ criteria chain_ = rev (m1 :: ms).
Proof.
  intros mask selector t1 more m1 ms cmd params_ B1 F NA.
  assert (N : Forall (fun m => m_next m = None) (m1 :: ms)).
  { constructor.
    - pose proof B1 as X. unfold CheckMatch_token in X.
      destruct (split_operator _ _) as [mid st].
      destruct (strcspn t1 _ =? 0)%nat; cbn [bind] in X.
      + now injection X as <-.
      + destruct (GetMatchType _) as [d|]; cbn [bind in_bounds] in X; [|discriminate X].
        destruct (id_set d); [destruct (negb (has_bits (req d) mask))|];
          cbn [bind] in X; try discriminate X; now injection X as <-.
    - clear B1. induction F as [|st m more' ms' [_ X] F' IH]; constructor; [|exact IH].
      unfold CheckMatch_token in X.
      destruct (split_operator _ _) as [mid st'].
      destruct (strcspn (snd st) _ =? 0)%nat; cbn [bind] in X.
      + now injection X as <-.
      + destruct (GetMatchType _) as [d|]; cbn [bind in_bounds] in X; [|discriminate X].
        destruct (id_set d); [destruct (negb (has_bits (req d) mask))|];
          cbn [bind] in X; try discriminate X; now injection X as <-. }
  destruct (link_all (m1 :: ms) None) as [c|] eqn:L.
  - exists c. split.
    + unfold CheckMatch.
      assert (A3 : (argc_of (selector :: and_joined t1 more ++ cmd :: params_) <? 3) = false).
      { apply Z.ltb_ge. unfold argc_of, and_joined. cbn [List.length app].
        rewrite length_app. cbn [List.length]. lia. }
      rewrite A3. cbn [tl].
      rewrite (@CheckMatch_loop_joined mask more t1 m1 ms cmd params_ None B1 F NA).
      now rewrite L.
    + rewrite (criteria_link_all _ N L). apply app_nil_r.
  - exfalso. apply (@link_all_some ms (Some (set_next m1 None))); [discriminate|].
    exact L.
Qed.

Lemma chain_of_joined_tokens_witness :
  exists chain_,
    CheckMatch ("train" :: and_joined "crashed" [("and", "speed>10"); ("&", "age<3")]
                ++ "info" :: []) FOR_TRAIN
    = Done ([], Some chain_, ["info"])
    /\ criteria chain_
       = rev [mkMatchInfo MATCH_CRASHED MATCH_NONE "crashed" None;
              mkMatchInfo MATCH_SPEED MATCH_GREATER "10" None;
              mkMatchInfo MATCH_AGE MATCH_LESS "3" None].
Proof.
  apply chain_of_joined_tokens; [reflexivity | | reflexivity].
  repeat constructor.
Defined.

(* ================================================================= *)
(** ** The dispatchers, continued *)

Lemma CheckMatch_loop_null : forall mask (n : nat) argv m0 out_ rest,
  (List.length argv <= n)%nat ->
  argv <> [] \/ m0 <> None ->
  CheckMatch_loop mask argv m0 = Done (out_, None, rest) ->
  out_ = [invalid_match_type].
Proof.
  induction n as [|n IH]; intros argv m0 out_ rest Len NE;
    destruct argv as [|a more]; simpl in Len; try lia;
    try (destruct NE as [NE|NE]; [contradiction|];
         simpl; intros [= _ E _]; contradiction).
  cbn [CheckMatch_loop].
  destruct (CheckMatch_token a mask) as [[o tm]|c] eqn:Tk; cbn [bind]; [|discriminate].
  pose proof (CheckMatch_token_out _ _ Tk) as O.
  destruct tm as [tm|].
  - subst o. destruct more as [|next more']; [discriminate|].
    destruct (is_and next); cbn [negb]; [|discriminate].
    destruct (CheckMatch_loop mask more' (Some (set_next tm m0)))
      as [[[o' m'] a']|c] eqn:L; cbn [bind]; [|discriminate].
    intros [= <- -> <-]. simpl.
    apply (IH more' (Some (set_next tm m0)) o' a'); [simpl in Len; lia | | exact L].
    right. discriminate.
  - intros [= <- <-]. exact O.
Qed.

Lemma CheckMatch_null : forall argv mask out_ rest,
  3 <= argc_of argv ->
  CheckMatch argv mask = Done (out_, None, rest) ->
  out_ = [invalid_match_type].
Proof.
  intros argv mask out_ rest A B. unfold CheckMatch in B.
  assert (L : (argc_of argv <? 3) = false) by (apply Z.ltb_ge; exact A).
  rewrite L in B.
  apply (@CheckMatch_loop_null mask _ (tl argv) None out_ rest (Nat.le_refl _)); [|exact B].
  left. destruct argv as [|a [|b r]]; unfold argc_of in A; simpl in *; try lia.
  discriminate.
Qed.

(** X11 — A filter token that does not build aborts the whole line: each
    dispatcher then prints the one error of the token and returns
    handled = true, without resolving the command or visiting an entity. *)
Theorem failed_filter_is_handled :
  forall (env : Env) (argv : list string) (out_ : list event) (rest : list string),
  3 <= argc_of argv ->
  (CheckMatch argv FOR_TOWN = Done (out_, None, rest) ->
   ConTown env argv = Done (mkOutcome true [invalid_match_type]))
  /\ (CheckMatch argv FOR_INDUSTRY = Done (out_, None, rest) ->
      ConIndustry env argv = Done (mkOutcome true [invalid_match_type]))
  /\ (forall vtype argv0 mask vehicle_name,
        vehicle_selector vtype = Done (mask, vehicle_name) ->
        Company_IsValidID env (local_company env) = true ->
        CheckMatch argv mask = Done (out_, None, rest) ->
        ConVehicleCommand env argv vtype argv0
        = Done (mkOutcome true [invalid_match_type])).
Proof.
  intros env argv out_ rest A.
  assert (L : (argc_of argv <? 3) = false) by (apply Z.ltb_ge; exact A).
  split; [|split].
  - intro B. pose proof (CheckMatch_null _ _ A B) as ->.
    unfold ConTown. rewrite (argc_at_least_3 _ L), L, B. reflexivity.
  - intro B. pose proof (CheckMatch_null _ _ A B) as ->.
    unfold ConIndustry. rewrite (argc_at_least_3 _ L), L, B. reflexivity.
  - intros vtype argv0 mask vehicle_name S C B.
    pose proof (CheckMatch_null _ _ A B) as ->.
    unfold ConVehicleCommand. rewrite S. cbn [bind].
    rewrite (argc_at_least_3 _ L), C, L, B. reflexivity.
Qed.

Lemma failed_filter_is_handled_witness :
  ConTown Demo.env ["town"; "all"; "and"; "speed>3"; "count"]
  = Done (mkOutcome true [invalid_match_type])
  /\ ConVehicleCommand Demo.env ["ship"; "wagons=2"; "count"] VEH_SHIP "ship"
     = Done (mkOutcome true [invalid_match_type]).
Proof.
  split.
  - apply (proj1 (@failed_filter_is_handled Demo.env
                    ["town"; "all"; "and"; "speed>3"; "count"]
                    [invalid_match_type] ["speed>3"; "count"] ltac:(vm_compute; discriminate)));
      reflexivity.
  - apply (proj2 (proj2 (@failed_filter_is_handled Demo.env
                    ["ship"; "wagons=2"; "count"]
                    [invalid_match_type] ["wagons=2"; "count"]
                    ltac:(vm_compute; discriminate)))
             VEH_SHIP "ship" FOR_SHIP "ship"); reflexivity.
Defined.

(** X12 — A line whose filters build but which ends before a command
    ("town all and") is not handled: each dispatcher returns false and
    prints nothing, so that the usage text is shown. *)
Theorem missing_command_is_unhandled :
  forall (env : Env) (argv : list string) (out_ : list event) (m : MatchInfo),
  (CheckMatch argv FOR_TOWN = Done (out_, Some m, []) ->
   ConTown env argv = Done (mkOutcome false []))
  /\ (CheckMatch argv FOR_INDUSTRY = Done (out_, Some m, []) ->
      ConIndustry env argv = Done (mkOutcome false []))
  /\ (forall vtype argv0 mask vehicle_name,
        vehicle_selector vtype = Done (mask, vehicle_name) ->
        Company_IsValidID env (local_company env) = true ->
        CheckMatch argv mask = Done (out_, Some m, []) ->
        ConVehicleCommand env argv vtype argv0 = Done (mkOutcome false [])).
Proof.
  intros env argv out_ m. split; [|split].
  - intro B. destruct (CheckMatch_out _ _ B) as [_ E].
    destruct E as [-> L]; [discriminate|].
    unfold ConTown. rewrite (argc_at_least_3 _ L), L, B. reflexivity.
  - intro B. destruct (CheckMatch_out _ _ B) as [_ E].
    destruct E as [-> L]; [discriminate|].
    unfold ConIndustry. rewrite (argc_at_least_3 _ L), L, B. reflexivity.
  - intros vtype argv0 mask vehicle_name S C B.
    destruct (CheckMatch_out _ _ B) as [_ E].
    destruct E as [-> L]; [discriminate|].
    unfold ConVehicleCommand. rewrite S. cbn [bind].
    rewrite (argc_at_least_3 _ L), C, L, B. reflexivity.
Qed.

Lemma missing_command_is_unhandled_witness :
  ConTown Demo.env ["town"; "all"; "and"] = Done (mkOutcome false [])
  /\ ConIndustry Demo.env ["industry"; "percent>50"; "&"] = Done (mkOutcome false []).
Proof.
  split.
  - apply (proj1 (@missing_command_is_unhandled Demo.env ["town"; "all"; "and"] []
                    (mkMatchInfo MATCH_ALL MATCH_NONE "all" None))).
    reflexivity.
  - apply (proj1 (proj2 (@missing_command_is_unhandled Demo.env
                    ["industry"; "percent>50"; "&"] []
                    (mkMatchInfo MATCH_INDUSTRY_PERCENT MATCH_GREATER "50" None)))).
    reflexivity.
Defined.

Lemma ConMatchTypeHelp_lines : forall m_info target mask,
  Forall is_help_line (ConMatchTypeHelp m_info target mask).
Proof.
  intros m_info target mask. unfold ConMatchTypeHelp.
  induction m_info as [|mi rest IH]; simpl; [constructor|].
  apply Forall_app. split; [|exact IH].
  destruct (negb (has_bits (req mi) mask)); [constructor|].
  destruct (has_bits (req mi) USE_PRINTF); repeat constructor.
Qed.

Lemma ConCommandsHelp_loop_lines {T : Type} `{EnumId T} :
  forall (cmds : list (StringInfo T)) mask alias,
  Forall is_help_line (ConCommandsHelp_loop cmds mask alias).
Proof.
  induction cmds as [|c rest IH]; intros mask alias; simpl; [constructor|].
  destruct (is_alias c); [apply IH|].
  destruct (negb (has_bits (req c) mask)); [apply IH|].
  constructor; [exact I | apply IH].
Qed.

Lemma ConCommandsHelp_lines {T : Type} `{EnumId T} :
  forall target argv0 (cmds : list (StringInfo T)) mask,
  Forall is_help_line (ConCommandsHelp target argv0 cmds mask).
Proof.
  intros. unfold ConCommandsHelp.
  apply Forall_app; split; [repeat constructor|].
  apply Forall_app; split; [apply ConCommandsHelp_loop_lines|].
  apply Forall_app; split; [repeat constructor|].
  apply Forall_app; split; [apply ConMatchTypeHelp_lines|].
  apply Forall_app; split; [repeat constructor|].
  apply Forall_app; split; [apply ConMatchTypeHelp_lines|].
  repeat constructor.
Qed.

(** X13 — Help path.  Called without arguments, each dispatcher returns
    handled = true and prints help lines only: nothing is resolved,
    matched or submitted, whatever the game state (a vehicle selector does
    not even need a company). *)
Theorem help_path_is_inert :
  forall env : Env,
  (exists l, ConTown env [] = Done (mkOutcome true l) /\ Forall is_help_line l)
  /\ (exists l, ConIndustry env [] = Done (mkOutcome true l) /\ Forall is_help_line l)
  /\ (forall vtype argv0 mask vehicle_name,
        vehicle_selector vtype = Done (mask, vehicle_name) ->
        exists l, ConVehicleCommand env [] vtype argv0 = Done (mkOutcome true l)
                  /\ Forall is_help_line l).
Proof.
  intro env. split; [|split].
  - eexists. split; [reflexivity|].
    apply Forall_app. split; [apply ConCommandsHelp_lines | repeat constructor].
  - eexists. split; [reflexivity|].
    apply Forall_app. split; [apply ConCommandsHelp_lines | repeat constructor].
  - intros vtype argv0 mask vehicle_name S.
    unfold ConVehicleCommand. rewrite S. cbn [bind].
    eexists. split; [reflexivity|].
    apply Forall_app. split; [apply ConCommandsHelp_lines | repeat constructor].
Qed.

Lemma help_path_is_inert_witness :
  exists l, ConVehicleCommand Demo.env [] VEH_AIRCRAFT "aircraft" = Done (mkOutcome true l)
            /\ Forall is_help_line l.
Proof.
  apply (proj2 (proj2 (help_path_is_inert Demo.env))
           VEH_AIRCRAFT "aircraft" FOR_AIRCRAFT "aircraft").
  reflexivity.
Defined.

(** X14 — Too short a line.  With one or two tokens (selector and at most
    one more) the town and industry dispatchers print nothing and return
    false; so does a vehicle dispatcher when the player owns a company,
    while without a company it prints its one error and returns true for
    every line that is not empty. *)
Theorem short_line_is_unhandled :
  forall (env : Env) (argv : list string),
  (argc_of argv = 1 \/ argc_of argv = 2 ->
   ConTown env argv = Done (mkOutcome false [])
   /\ ConIndustry env argv = Done (mkOutcome false []))
  /\ (forall vtype argv0 mask vehicle_name,
        vehicle_selector vtype = Done (mask, vehicle_name) ->
        (argc_of argv = 1 \/ argc_of argv = 2 ->
         Company_IsValidID env (local_company env) = true ->
         ConVehicleCommand env argv vtype argv0 = Done (mkOutcome false []))
        /\ (argv <> [] ->
            Company_IsValidID env (local_company env) = false ->
            ConVehicleCommand env argv vtype argv0 = Done (mkOutcome true [need_company]))).
Proof.
  intros env argv. split.
  - intro A.
    assert (Z0 : (argc_of argv =? 0) = false) by (apply Z.eqb_neq; lia).
    assert (L3 : (argc_of argv <? 3) = true) by (apply Z.ltb_lt; lia).
    unfold ConTown, ConIndustry. rewrite Z0, L3. auto.
  - intros vtype argv0 mask vehicle_name S. split.
    + intros A C.
      assert (Z0 : (argc_of argv =? 0) = false) by (apply Z.eqb_neq; lia).
      assert (L3 : (argc_of argv <? 3) = true) by (apply Z.ltb_lt; lia).
      unfold ConVehicleCommand. rewrite S. cbn [bind]. rewrite Z0, C, L3. reflexivity.
    + intros NE C.
      assert (Z0 : (argc_of argv =? 0) = false).
      { apply Z.eqb_neq. destruct argv; [contradiction|]. unfold argc_of. simpl. lia. }
      unfold ConVehicleCommand. rewrite S. cbn [bind]. rewrite Z0, C. reflexivity.
Qed.

Lemma short_line_is_unhandled_witness :
  ConTown Demo.env ["town"; "all"] = Done (mkOutcome false [])
  /\ ConVehicleCommand (mkEnv 5 [0] false [] [] [] [] "" (fun _ => None) (fun _ => None)
                          (fun _ => None) (fun i _ => i) (fun _ => 0))
       ["train"; "all"; "count"] VEH_TRAIN "train"
     = Done (mkOutcome true [need_company]).
Proof.
  split.
  - apply (proj1 (short_line_is_unhandled Demo.env ["town"; "all"])). right. reflexivity.
  - apply (proj2 (proj2 (short_line_is_unhandled _ ["train"; "all"; "count"])
                    VEH_TRAIN "train" FOR_TRAIN "train" eq_refl));
      [discriminate | reflexivity].
Defined.

(** X15 — Refusals of a vehicle line.  When the filters build and the
    command resolves, the dispatcher still refuses the whole line, with one
    error and handled = true and without visiting a vehicle, (a) when fewer
    parameters follow than the command requires ([interval] and [wsell]
    require one), and otherwise (b) when the command is not for the
    selected kind of vehicle ([ignore] for ships, [turn] for aircraft, the
    wagon commands for anything but trains). *)
Theorem vehicle_line_refusals :
  forall (env : Env) (argv : list string) (vtype : VehicleType) (argv0 : string)
         (mask : Z) (vehicle_name : string) (out_ : list event) (m : MatchInfo)
         (cmd : string) (params_ : list string) (d : StringInfo VehicleCommand),
  vehicle_selector vtype = Done (mask, vehicle_name) ->
  Company_IsValidID env (local_company env) = true ->
  CheckMatch argv mask = Done (out_, Some m, cmd :: params_) ->
  GetVehicleCommand cmd = Some d -> id_set d = true ->
  (argc_of (cmd :: params_) < 1 + params d ->
   ConVehicleCommand env argv vtype argv0 = Done (mkOutcome true [need_parameters]))
  /\ (1 + params d <= argc_of (cmd :: params_) ->
      has_bits (req d) mask = false ->
      ConVehicleCommand env argv vtype argv0
      = Done (mkOutcome true
                [IConsolePrintF
                   " ERROR: The command you have specified cannot be applied to %s."
                   [PS vehicle_name]])).
Proof.
  intros env argv vtype argv0 mask vehicle_name out_ m cmd params_ d S C B G I.
  destruct (CheckMatch_out _ _ B) as [_ E].
  destruct E as [-> L]; [discriminate|].
  unfold ConVehicleCommand. rewrite S. cbn [bind].
  rewrite (argc_at_least_3 _ L), C, L, B. cbn [bind negb].
  rewrite G. cbn [bind in_bounds]. rewrite I. cbn [negb].
  split.
  - intro P. apply Z.ltb_lt in P. rewrite P. reflexivity.
  - intros P A. apply Z.ltb_ge in P. rewrite P, A. reflexivity.
Qed.

Lemma vehicle_line_refusals_witness :
  ConVehicleCommand Demo.env ["vehicle"; "7"; "interval"] VEH_INVALID "vehicle"
  = Done (mkOutcome true [need_parameters])
  /\ ConVehicleCommand Demo.env ["aircraft"; "all"; "turn"] VEH_AIRCRAFT "aircraft"
     = Done (mkOutcome true
               [IConsolePrintF
                  " ERROR: The command you have specified cannot be applied to %s."
                  [PS "aircraft"]]).
Proof.
  split.
  - apply (proj1 (@vehicle_line_refusals Demo.env ["vehicle"; "7"; "interval"]
                    VEH_INVALID "vehicle" FOR_VEHICLE "vehicle" []
                    (mkMatchInfo MATCH_GENERIC MATCH_NONE "7" None) "interval" []
                    (nth 8 veh_commands INVALID_COMMAND_VEHICLE)
                    eq_refl eq_refl eq_refl eq_refl eq_refl)).
    reflexivity.
  - apply (proj2 (@vehicle_line_refusals Demo.env ["aircraft"; "all"; "turn"]
                    VEH_AIRCRAFT "aircraft" FOR_AIRCRAFT "aircraft" []
                    (mkMatchInfo MATCH_ALL MATCH_NONE "all" None) "turn" []
                    (nth 19 veh_commands INVALID_COMMAND_VEHICLE)
                    eq_refl eq_refl eq_refl eq_refl eq_refl));
      first [reflexivity | vm_compute; discriminate].
Defined.

Lemma ConTown_loop_hits : forall env m cmd params_ ts c c',
  ConTown_loop env m cmd params_ ts c = Done c' ->
  0 <= matched c -> matched c + Z.of_nat (List.length ts) < 2 ^ 31 ->
  matched c' = matched c + Z.of_nat (List.length (town_hits env m ts)).
Proof.
  unfold town_hits.
  induction ts as [|t rest IH]; intros c c' E P B; simpl in E.
  - injection E as <-. simpl. lia.
  - cbn [List.length] in B. rewrite Nat2Z.inj_succ in B.
    cbn [filter].
    assert (A : accepts (fun t0 => TownMatches env t0 m) t
                = match TownMatches env t m with Done true => true | _ => false end)
      by reflexivity.
    rewrite !A. clear A.
    destruct (TownMatches env t m) as [[|]|x]; cbn [bind] in E; try discriminate E.
    + destruct (DoTownCommand env t cmd params_) as [[r ev]|x] eqn:D;
        cbn [bind] in E; try discriminate E.
      assert (S : s32 (matched c + 1) = matched c + 1) by (apply s32_small; lia).
      apply IH in E; cbn [matched] in *; rewrite ?S in *; try lia.
      cbn [List.length]. lia.
    + apply IH in E; auto. lia.
Qed.

Lemma ConIndustry_loop_hits : forall env m cmd params_ inds c c',
  ConIndustry_loop env m cmd params_ inds c = Done c' ->
  0 <= matched c -> matched c + Z.of_nat (List.length inds) < 2 ^ 31 ->
  matched c' = matched c + Z.of_nat (List.length (industry_hits env m inds))
  /\ affected c' = match industry_hits env m inds with [] => affected c | _ => 1 end.
Proof.
  unfold industry_hits.
  induction inds as [|i rest IH]; intros c c' E P B; simpl in E.
  - injection E as <-. simpl. lia.
  - cbn [List.length] in B. rewrite Nat2Z.inj_succ in B.
    cbn [filter].
    assert (A : accepts (fun i0 => IndustryMatches env i0 m) i
                = match IndustryMatches env i m with Done true => true | _ => false end)
      by reflexivity.
    rewrite !A. clear A.
    destruct (IndustryMatches env i m) as [[|]|x]; cbn [bind] in E; try discriminate E.
    + destruct (DoIndustryCommand env i cmd params_) as [[r ev]|x] eqn:D;
        cbn [bind] in E; try discriminate E.
      apply DoIndustryCommand_result in D. subst r.
      assert (S : s32 (matched c + 1) = matched c + 1) by (apply s32_small; lia).
      apply IH in E; cbn [matched affected] in *; rewrite ?S in *; try lia.
      destruct E as [E1 E2]. split; [cbn [List.length]; lia|].
      rewrite E2. now destruct (filter _ rest).
    + apply IH in E; auto. lia.
Qed.

Lemma town_report : forall env argv out0 chain_ rest o pre m a,
  Z.of_nat (List.length (towns env)) < 2 ^ 31 ->
  CheckMatch argv FOR_TOWN = Done (out0, Some chain_, rest) ->
  ConTown env argv = Done o ->
  log o = pre ++ [report_towns m a] ->
  m = Z.of_nat (List.length (town_hits env chain_ (towns env))) /\ a = m.
Proof.
  intros env argv out0 chain_ rest o pre m a B C E L. final_of L.
  destruct (CheckMatch_out _ _ C) as [_ X].
  destruct X as [-> A3]; [discriminate|].
  unfold ConTown in E. rewrite (argc_at_least_3 _ A3), A3, C in E. cbn [bind] in E.
  destruct rest as [|arg params_]; [injection E as <-; discriminate L|].
  destruct (GetTownCommand arg) as [cmd|]; cbn [bind in_bounds] in E; [|discriminate E].
  destruct (negb (id_set cmd)).
  { injection E as <-. discriminate L. }
  destruct (argc_of (arg :: params_) <? 1 + params cmd).
  { injection E as <-. discriminate L. }
  destruct (has_bits (req cmd) IS_ALIAS); [discriminate E|].
  destruct (ConTown_loop env chain_ (id cmd) params_ (towns env) (mkCounters 0 0 []))
    as [c|x] eqn:Lp; cbn [bind] in E; [|discriminate E].
  injection E as <-. cbn [log] in L.
  rewrite !app_assoc, final_snoc in L. injection L as <- <-.
  pose proof (@ConTown_loop_hits _ _ _ _ _ _ _ Lp) as H1.
  pose proof (@ConTown_loop_affects_all _ _ _ _ _ _ _ Lp) as H2.
  cbn [matched affected] in H1, H2.
  assert (H3 : affected c = matched c) by (apply H2; lia).
  split; [apply H1; lia | exact H3].
Qed.

Lemma industry_report : forall env argv out0 chain_ rest o pre m a,
  Z.of_nat (List.length (industries env)) < 2 ^ 31 ->
  CheckMatch argv FOR_INDUSTRY = Done (out0, Some chain_, rest) ->
  ConIndustry env argv = Done o ->
  log o = pre ++ [report_industries m a] ->
  m = Z.of_nat (List.length (industry_hits env chain_ (industries env)))
  /\ a = Z.min m 1.
Proof.
  intros env argv out0 chain_ rest o pre m a B C E L. final_of L.
  destruct (CheckMatch_out _ _ C) as [_ X].
  destruct X as [-> A3]; [discriminate|].
  unfold ConIndustry in E. rewrite (argc_at_least_3 _ A3), A3, C in E. cbn [bind] in E.
  destruct rest as [|arg params_]; [injection E as <-; discriminate L|].
  destruct (GetIndustryCommand arg) as [cmd|]; cbn [bind in_bounds] in E;
    [|discriminate E].
  destruct (negb (id_set cmd)).
  { injection E as <-. discriminate L. }
  destruct (argc_of (arg :: params_) <? 1 + params cmd).
  { injection E as <-. discriminate L. }
  destruct (has_bits (req cmd) IS_ALIAS); [discriminate E|].
  destruct (ConIndustry_loop env chain_ (id cmd) params_ (industries env)
              (mkCounters 0 0 [])) as [c|x] eqn:Lp; cbn [bind] in E; [|discriminate E].
  injection E as <-. cbn [log] in L.
  rewrite !app_assoc, final_snoc in L. injection L as <- <-.
  destruct (@ConIndustry_loop_hits _ _ _ _ _ _ _ Lp) as [H1 H2];
    cbn [matched affected] in *; try lia.
  split; [exact H1|]. rewrite H2, H1.
  destruct (industry_hits env chain_ (industries env)); cbn [List.length]; lia.
Qed.

(** X16 — What the reports count.  When a town line ends with its report,
    [matched] is the number of towns of the pool that the filter chain
    accepts and [affected] is the same number.  When an industry line ends
    with its report, [matched] is the number of industries that the chain
    accepts, while [affected] is 1 as soon as one industry matched and 0
    otherwise: that dispatcher stores the last command's return value
    instead of adding it up. *)
Theorem reports_count_hits :
  forall (env : Env) (argv : list string) (out0 : list event) (chain_ : MatchInfo)
         (rest : list string) (o : outcome) (pre : list event) (m a : Z),
  (Z.of_nat (List.length (towns env)) < 2 ^ 31 ->
   CheckMatch argv FOR_TOWN = Done (out0, Some chain_, rest) ->
   ConTown env argv = Done o ->
   log o = pre ++ [report_towns m a] ->
   m = Z.of_nat (List.length (town_hits env chain_ (towns env))) /\ a = m)
  /\ (Z.of_nat (List.length (industries env)) < 2 ^ 31 ->
      CheckMatch argv FOR_INDUSTRY = Done (out0, Some chain_, rest) ->
      ConIndustry env argv = Done o ->
      log o = pre ++ [report_industries m a] ->
      m = Z.of_nat (List.length (industry_hits env chain_ (industries env)))
      /\ a = Z.min m 1).
Proof.
  intros. split; [apply town_report | apply industry_report].
Qed.

Lemma reports_count_hits_witness :
  (1 = Z.of_nat (List.length
         (town_hits Demo.env (mkMatchInfo MATCH_TOWN_POPULATION MATCH_GREATER "500" None)
            (towns Demo.env)))
   /\ 1 = 1)
  /\ (2 = Z.of_nat (List.length
            (industry_hits Demo.env (mkMatchInfo MATCH_ALL MATCH_NONE "all" None)
               (industries Demo.env)))
      /\ 1 = Z.min 2 1).
Proof.
  split.
  - apply (proj1 (@reports_count_hits Demo.env ["town"; "population>500"; "count"] []
                    (mkMatchInfo MATCH_TOWN_POPULATION MATCH_GREATER "500" None) ["count"]
                    (mkOutcome true [report_towns 1 1]) [] 1 1)); reflexivity.
  - apply (proj2 (@reports_count_hits Demo.env ["industry"; "all"; "count"] []
                    (mkMatchInfo MATCH_ALL MATCH_NONE "all" None) ["count"]
                    (mkOutcome true [report_industries 2 1]) [] 2 1)); reflexivity.
Defined.

(** X17 — A vehicle command that reports failure (returns 0) has printed
    nothing, opened no window and submitted no game command. *)
Theorem failed_vehicle_command_is_silent :
  forall (env : Env) (rnd : Z) (v : Vehicle) (command : VehicleCommand)
         (argv : list string) (ev : list event),
  DoVehicleCommand env rnd v command argv = Done (0, ev) -> ev = [].
Proof.
  intros env rnd v command argv ev E. unfold DoVehicleCommand in E.
  destruct command; break_result E; injection E; intros; congruence.
Qed.

Lemma failed_vehicle_command_is_silent_witness :
  DoVehicleCommand Demo.env 0 Demo.lorry VEHICLE_STOP ["stop"] = Done (0, [])
  /\ @nil event = [].
Proof.
  split; [reflexivity|].
  apply (@failed_vehicle_command_is_silent Demo.env 0 Demo.lorry VEHICLE_STOP
           ["stop"] []).
  reflexivity.
Defined.

(* ================================================================= *)
(** ** Matchers on the criteria that the tokenizer builds *)

Lemma special_match_some : forall token mask nn ty,
  special_match token mask nn = Some ty ->
  exists e, In e nn /\ id e = ty /\ has_bits (req e) mask = true.
Proof.
  induction nn as [|h rest IH]; intros ty; cbn [special_match]; [discriminate|].
  destruct (has_bits (req h) mask) eqn:A; cbn [andb].
  - destruct (stricmp token (name h) =? 0).
    + intros [= <-]. exists h. split; [left; reflexivity | split; [reflexivity | exact A]].
    + intro E. destruct (IH _ E) as [e [I R]]. exists e. split; [right; exact I | exact R].
  - intro E. destruct (IH _ E) as [e [I R]]. exists e. split; [right; exact I | exact R].
Qed.

Lemma GetStringInfo_result {T : Type} `{EnumId T} :
  forall q (inv : StringInfo T) tbl d,
  GetStringInfo q inv tbl = Some d -> id_set inv = false -> id_set d = true -> In d tbl.
Proof.
  intros q inv tbl d G N I. unfold GetStringInfo in G.
  apply GetStringInfo_from_result in G.
  destruct G as [-> | [-> | [X _]]]; [congruence | congruence | exact X].
Qed.

Lemma GetMatchType_unfold : forall q,
  GetMatchType q = GetStringInfo q INVALID_MATCH match_info.
Proof. reflexivity. Qed.

Lemma GetMatchType_result : forall q d,
  GetMatchType q = Some d -> id_set d = true -> In d match_info.
Proof.
  intros q d G I. rewrite GetMatchType_unfold in G.
  apply (GetStringInfo_result _ _ _ G); [reflexivity | exact I].
Qed.

Lemma special_or_keyed : forall token mask ty,
  type_from_tables mask ty ->
  type_from_tables mask
    match special_match token mask match_nn_info with
    | Some special => special
    | None => ty
    end.
Proof.
  intros token mask ty Hty.
  destruct (special_match token mask match_nn_info) as [sp|] eqn:Sp; [|exact Hty].
  destruct (special_match_some _ _ _ Sp) as [e [I [E A]]].
  right. exists e. split; [apply in_or_app; left; exact I | split; assumption].
Qed.

(** The type of a built criterion is generic or comes from the tables. *)
Lemma CheckMatch_token_type : forall token mask out_ c,
  CheckMatch_token token mask = Done (out_, Some c) ->
  type_from_tables mask (m_type c).
Proof.
  intros token mask out_ c. unfold CheckMatch_token.
  destruct (split_operator _ _) as [mid st].
  destruct (strcspn token _ =? 0)%nat; cbn [bind].
  - intros [= _ <-]. cbn [m_type]. apply special_or_keyed. left. reflexivity.
  - destruct (GetMatchType _) as [d|] eqn:G; cbn [bind in_bounds]; [|discriminate].
    destruct (id_set d) eqn:I.
    + destruct (has_bits (req d) mask) eqn:A; cbn [negb bind]; [|discriminate].
      intros [= _ <-]. cbn [m_type]. apply special_or_keyed. right. exists d.
      split; [|split; [reflexivity | exact A]].
      apply in_or_app. right. exact (GetMatchType_result _ G I).
    + cbn [bind]. intros [= _ <-]. cbn [m_type]. apply special_or_keyed.
      left. reflexivity.
Qed.

Ltac numeric_case H :=
  unfold NumericValueSubMatch;
  repeat match goal with
         | |- context [if ?x then _ else _] => destruct x
         end;
  try (eexists; reflexivity);
  match goal with
  | |- context [GetArgumentInteger ?env ?mid] =>
      let G := fresh "G" in
      destruct (GetArgumentInteger env mid) as [?|] eqn:G;
      [|eexists; reflexivity];
      match goal with
      | |- context [NumericMatch _ ?st _] =>
          destruct st; cbn [NumericMatch];
          first [eexists; reflexivity | discriminate (H eq_refl ltac:(discriminate))]
      end
  end.

(** Every key or keyword valid for towns has its case in [TownMatches]. *)
Lemma TownMatches_one_entries : forall e,
  In e (match_nn_info ++ match_info) -> has_bits (req e) FOR_TOWN = true ->
  forall env t st mid,
  (st = MATCH_NONE -> id e <> MATCH_GENERIC -> GetArgumentInteger env mid = None) ->
  exists b, TownMatches_one env t (id e) st mid = Done b.
Proof.
  intros e I. cbn in I.
  repeat (destruct I as [<-|I];
          [intro A; vm_compute in A;
           first [discriminate A
                 | clear A; intros env t st mid H; cbn [id] in H;
                   unfold TownMatches_one; cbn [id]; numeric_case H]|]).
  destruct I.
Qed.

(** Every key or keyword valid for industries has its case in
    [IndustryMatches]. *)
Lemma IndustryMatches_one_entries : forall e,
  In e (match_nn_info ++ match_info) -> has_bits (req e) FOR_INDUSTRY = true ->
  forall env i st mid,
  i_town i <> None ->
  (st = MATCH_NONE -> id e <> MATCH_GENERIC -> GetArgumentInteger env mid = None) ->
  exists b, IndustryMatches_one env i (id e) st mid = Done b.
Proof.
  intros e I. cbn in I.
  repeat (destruct I as [<-|I];
          [intro A; vm_compute in A;
           first [discriminate A
                 | clear A; intros env i st mid N H; cbn [id] in H;
                   unfold IndustryMatches_one; destruct (i_town i) as [town|];
                   [|exfalso; apply N; reflexivity]; cbn [id]; numeric_case H]|]).
  destruct I.
Qed.

Lemma TownMatches_chain_done : forall env t m,
  (forall c, In c (criteria m) ->
     exists b, TownMatches_one env t (m_type c) (m_subtype c) (m_id c) = Done b) ->
  exists b, TownMatches env t m = Done b.
Proof.
  intros env t m. induction m as [ty st mid|ty st mid n IH] using MatchInfo_chain_ind;
    intro Hc.
  - destruct (Hc (mkMatchInfo ty st mid None) (or_introl eq_refl)) as [b E].
    exists b. exact E.
  - cbn [TownMatches].
    destruct IH as [b' E'].
    { intros c I. apply Hc. right. exact I. }
    rewrite E'. cbn [bind]. destruct b'; [|eexists; reflexivity].
    exact (Hc (mkMatchInfo ty st mid None) (or_introl eq_refl)).
Qed.

Lemma IndustryMatches_chain_done : forall env i m,
  (forall c, In c (criteria m) ->
     exists b, IndustryMatches_one env i (m_type c) (m_subtype c) (m_id c) = Done b) ->
  exists b, IndustryMatches env i m = Done b.
Proof.
  intros env i m. induction m as [ty st mid|ty st mid n IH] using MatchInfo_chain_ind;
    intro Hc.
  - destruct (Hc (mkMatchInfo ty st mid None) (or_introl eq_refl)) as [b E].
    exists b. exact E.
  - cbn [IndustryMatches].
    destruct IH as [b' E'].
    { intros c I. apply Hc. right. exact I. }
    rewrite E'. cbn [bind]. destruct b'; [|eexists; reflexivity].
    exact (Hc (mkMatchInfo ty st mid None) (or_introl eq_refl)).
Qed.

(** X18 — Town and industry filters cannot stop the game.  Every key and
    keyword that the tokenizer accepts for towns has its case in
    [TownMatches], and likewise for industries: on a chain whose criteria
    were built under the selector's mask, the matcher returns a boolean for
    every town, and for every industry that has a town, provided the
    number parser rejects the text of a key or keyword given without an
    operator (as it rejects all text that is not a number). *)
Theorem built_filters_always_decide :
  forall (env : Env) (chain_ : MatchInfo),
  (forall c, In c (criteria chain_) ->
     m_subtype c = MATCH_NONE -> m_type c <> MATCH_GENERIC ->
     GetArgumentInteger env (m_id c) = None) ->
  ((forall c, In c (criteria chain_) ->
      exists token out_, CheckMatch_token token FOR_TOWN = Done (out_, Some c)) ->
   forall t, exists b, TownMatches env t chain_ = Done b)
  /\ ((forall c, In c (criteria chain_) ->
         exists token out_, CheckMatch_token token FOR_INDUSTRY = Done (out_, Some c)) ->
      forall i, i_town i <> None -> exists b, IndustryMatches env i chain_ = Done b).
Proof.
  intros env chain_ Hp. split.
  - intros Hb t. apply TownMatches_chain_done. intros c I.
    destruct (Hb c I) as [token [out_ B]].
    destruct (CheckMatch_token_type _ _ B) as [G | [e [Ie [Ee A]]]].
    + rewrite G. eexists. reflexivity.
    + rewrite <- Ee. apply (@TownMatches_one_entries e Ie A).
      rewrite Ee. exact (Hp c I).
  - intros Hb i N. apply IndustryMatches_chain_done. intros c I.
    destruct (Hb c I) as [token [out_ B]].
    destruct (CheckMatch_token_type _ _ B) as [G | [e [Ie [Ee A]]]].
    + rewrite G. unfold IndustryMatches_one.
      destruct (i_town i); [eexists; reflexivity | exfalso; apply N; reflexivity].
    + rewrite <- Ee. apply (@IndustryMatches_one_entries e Ie A env i _ _ N).
      rewrite Ee. exact (Hp c I).
Qed.

Lemma built_filters_always_decide_witness :
  exists b,
    TownMatches Demo.env Demo.alpha
      (mkMatchInfo MATCH_TOWN_POPULATION MATCH_GREATER "500"
         (Some (mkMatchInfo MATCH_GENERIC MATCH_NONE "alpha" None))) = Done b.
Proof.
  apply (proj1 (@built_filters_always_decide Demo.env
                  (mkMatchInfo MATCH_TOWN_POPULATION MATCH_GREATER "500"
                     (Some (mkMatchInfo MATCH_GENERIC MATCH_NONE "alpha" None)))
                  ltac:(intros c [<- | [<- | []]]; intros S G;
                        [discriminate S | exfalso; apply G; reflexivity]))).
  intros c [<- | [<- | []]].
  - exists "population>500", []. reflexivity.
  - exists "alpha", []. reflexivity.
Defined.

(* ================================================================= *)
(** ** Group names *)

Lemma GetGroupByName_loop_sound : forall env name_ gs buf ng pg un up g,
  GetGroupByName_loop env name_ gs buf ng pg un up = Some g ->
  (exists b, In (g, b) (rendered env gs buf) /\ name_tier b name_)
  \/ ng = Some g \/ pg = Some g.
Proof.
  induction gs as [|h rest IH]; intros buf ng pg un up g; cbn [GetGroupByName_loop rendered].
  - destruct (non_null ng && un); [auto|].
    destruct (non_null pg && up); [auto | discriminate].
  - set (b := if g_owner h =? local_company env then g_name h else buf).
    destruct (strcmp_eq b name_) eqn:E1.
    { intros [= <-]. left. exists b. split; [left; reflexivity|].
      left. apply String.eqb_eq. exact E1. }
    destruct (stricmp b name_ =? 0) eqn:E2.
    { intro L. apply IH in L as [[b' [I T]] | [L | L]].
      - left. exists b'. split; [right; exact I | exact T].
      - injection L as <-. left. exists b. split; [left; reflexivity|].
        right. left. apply Z.eqb_eq. exact E2.
      - auto. }
    destruct (str_isprefix name_ b) eqn:E3.
    { intro L. apply IH in L as [[b' [I T]] | [L | L]].
      - left. exists b'. split; [right; exact I | exact T].
      - auto.
      - injection L as <-. left. exists b. split; [left; reflexivity|].
        right. right. exact E3. }
    intro L. apply IH in L as [[b' [I T]] | [L | L]]; auto.
    left. exists b'. split; [right; exact I | exact T].
Qed.

(** X19 — A group lookup returns a group of the pool whose name, as held
    in the name buffer when the group was compared, equals the text, equals
    it ignoring case, or starts with it ignoring case.  The buffer is the
    group's own name for a group of the local company and the text left by
    the last such group (or what the stack held) for any other group. *)
Theorem group_lookup_is_sound :
  forall (env : Env) (name_ : string) (g : Group),
  GetGroupByName env name_ = Some g ->
  exists b, In (g, b) (rendered env (groups env) (stack_garbage env))
            /\ name_tier b name_.
Proof.
  intros env name_ g L. unfold GetGroupByName in L.
  apply GetGroupByName_loop_sound in L as [L | [L | L]];
    [exact L | discriminate L | discriminate L].
Qed.

Lemma group_lookup_is_sound_witness :
  exists b,
    In (mkGroup 3 0 "Fast", b)
       (rendered (mkEnv 0 [0] false [mkGroup 3 0 "Fast"; mkGroup 4 0 "Slow"] [] [] [] ""
                    (fun _ => None) (fun _ => None) (fun _ => None) (fun i _ => i)
                    (fun _ => 0))
          [mkGroup 3 0 "Fast"; mkGroup 4 0 "Slow"] "")
    /\ name_tier b "fa".
Proof.
  apply (@group_lookup_is_sound
           (mkEnv 0 [0] false [mkGroup 3 0 "Fast"; mkGroup 4 0 "Slow"] [] [] [] ""
              (fun _ => None) (fun _ => None) (fun _ => None) (fun i _ => i)
              (fun _ => 0)) "fa" (mkGroup 3 0 "Fast")).
  reflexivity.
Defined.

Lemma GetGroupByName_loop_exact : forall env name_ pre g post buf ng pg un up,
  (forall h, In h pre -> g_owner h = local_company env /\ g_name h <> name_) ->
  g_owner g = local_company env -> g_name g = name_ ->
  GetGroupByName_loop env name_ (pre ++ g :: post) buf ng pg un up = Some g.
Proof.
  induction pre as [|h rest IH]; intros g post buf ng pg un up Hp O N;
    cbn [app GetGroupByName_loop].
  - rewrite O, Z.eqb_refl, N. unfold strcmp_eq. rewrite String.eqb_refl. reflexivity.
  - destruct (Hp h (or_introl eq_refl)) as [Oh Nh].
    rewrite Oh, Z.eqb_refl. unfold strcmp_eq.
    apply String.eqb_neq in Nh. rewrite Nh.
    assert (R : forall h', In h' rest ->
                  g_owner h' = local_company env /\ g_name h' <> name_).
    { intros h' I. apply Hp. right. exact I. }
    destruct (stricmp (g_name h) name_ =? 0); [apply IH; assumption|].
    destruct (str_isprefix name_ (g_name h)); apply IH; assumption.
Qed.

(** X20 — Exact names win.  When a group of the local company is named
    exactly as the text, and the groups before it in the pool are of the
    local company and named otherwise, that group is returned, however many
    groups match the text ignoring case or by prefix. *)
Theorem group_lookup_prefers_exact :
  forall (env : Env) (name_ : string) (pre : list Group) (g : Group)
         (post : list Group),
  groups env = pre ++ g :: post ->
  (forall h, In h pre -> g_owner h = local_company env /\ g_name h <> name_) ->
  g_owner g = local_company env -> g_name g = name_ ->
  GetGroupByName env name_ = Some g.
Proof.
  intros env name_ pre g post G Hp O N. unfold GetGroupByName. rewrite G.
  apply GetGroupByName_loop_exact; assumption.
Qed.

Lemma group_lookup_prefers_exact_witness :
  GetGroupByName
    (mkEnv 0 [0] false [mkGroup 3 0 "FAST"; mkGroup 4 0 "Fast"; mkGroup 5 0 "fast"]
       [] [] [] "" (fun _ => None) (fun _ => None) (fun _ => None) (fun i _ => i)
       (fun _ => 0)) "Fast"
  = Some (mkGroup 4 0 "Fast").
Proof.
  apply (@group_lookup_prefers_exact _ "Fast" [mkGroup 3 0 "FAST"] (mkGroup 4 0 "Fast")
           [mkGroup 5 0 "fast"]); try reflexivity.
  intros h [<- | []]. split; [reflexivity | discriminate].
Defined.

Lemma GetGroupByName_loop_candidates : forall env name_ gs buf ng pg un up r,
  GetGroupByName_loop env name_ gs buf ng pg un up = Some r ->
  In r gs \/ (ng = Some r /\ un = true) \/ (pg = Some r /\ up = true).
Proof.
  induction gs as [|h rest IH]; intros buf ng pg un up r; cbn [GetGroupByName_loop].
  - destruct (non_null ng && un) eqn:E1.
    { intros ->. apply andb_true_iff in E1 as [_ E1]. auto. }
    destruct (non_null pg && up) eqn:E2; [|discriminate].
    intros ->. apply andb_true_iff in E2 as [_ E2]. auto.
  - set (b := if g_owner h =? local_company env then g_name h else buf).
    destruct (strcmp_eq b name_).
    { intros [= <-]. left. left. reflexivity. }
    destruct (stricmp b name_ =? 0).
    { intro L. apply IH in L as [L | [[L _] | L]].
      - left. right. exact L.
      - injection L as <-. left. left. reflexivity.
      - auto. }
    destruct (str_isprefix name_ b).
    { intro L. apply IH in L as [L | [L | [L _]]].
      - left. right. exact L.
      - auto.
      - injection L as <-. left. left. reflexivity. }
    intro L. apply IH in L as [L | [L | L]]; auto.
    left. right. exact L.
Qed.

Lemma GetGroupByName_loop_shadowed : forall env name_ pre g f post buf ng pg un up,
  ~ In g pre -> ~ In g post -> ng <> Some g -> pg <> Some g ->
  g_owner g = local_company env -> g_owner f <> local_company env ->
  g_name g <> name_ ->
  GetGroupByName_loop env name_ (pre ++ g :: f :: post) buf ng pg un up <> Some g.
Proof.
  induction pre as [|h rest IH]; intros g f post buf ng pg un up Hpre Hpost Hn Hp O F N.
  - cbn [app GetGroupByName_loop].
    rewrite O, Z.eqb_refl. apply Z.eqb_neq in F. rewrite F.
    apply String.eqb_neq in N. unfold strcmp_eq. rewrite N.
    destruct (stricmp (g_name g) name_ =? 0) eqn:E2.
    { cbn [non_null]. intro L.
      apply GetGroupByName_loop_candidates in L as [L | [[L U] | [L _]]];
        [contradiction | discriminate U | contradiction]. }
    destruct (str_isprefix name_ (g_name g)) eqn:E3.
    { cbn [non_null]. intro L.
      apply GetGroupByName_loop_candidates in L as [L | [[L _] | [L U]]];
        [contradiction | contradiction | discriminate U]. }
    intro L.
    apply GetGroupByName_loop_candidates in L as [L | [[L _] | [L _]]]; contradiction.
  - cbn [app GetGroupByName_loop].
    assert (Hh : h <> g) by (intro X; apply Hpre; left; exact X).
    assert (Hr : ~ In g rest) by (intro X; apply Hpre; right; exact X).
    assert (Sh : Some h <> Some g) by congruence.
    destruct (strcmp_eq _ name_); [exact Sh|].
    destruct (stricmp _ name_ =? 0); [apply IH; assumption|].
    destruct (str_isprefix name_ _); apply IH; assumption.
Qed.

(** X21 — A group of the local company that is followed in the pool by a
    group of another company is found by its exact name only.  The other
    group is compared under the name left in the buffer, so every match
    ignoring case or by prefix is counted twice and taken for ambiguous. *)
Theorem shadowed_group_needs_exact_name :
  forall (env : Env) (name_ : string) (pre : list Group) (g f : Group)
         (post : list Group),
  groups env = pre ++ g :: f :: post ->
  ~ In g pre -> ~ In g post ->
  g_owner g = local_company env -> g_owner f <> local_company env ->
  g_name g <> name_ ->
  GetGroupByName env name_ <> Some g.
Proof.
  intros env name_ pre g f post G Hpre Hpost O F N. unfold GetGroupByName. rewrite G.
  apply GetGroupByName_loop_shadowed; try assumption; discriminate.
Qed.

Lemma shadowed_group_needs_exact_name_witness :
  GetGroupByName
    (mkEnv 0 [0] false [mkGroup 3 0 "Fast"; mkGroup 4 1 "Slow"] [] [] [] ""
       (fun _ => None) (fun _ => None) (fun _ => None) (fun i _ => i) (fun _ => 0))
    "fast"
  <> Some (mkGroup 3 0 "Fast").
Proof.
  apply (@shadowed_group_needs_exact_name _ "fast" [] (mkGroup 3 0 "Fast")
           (mkGroup 4 1 "Slow") []);
    first [reflexivity | (intro X; exact X) | (cbn; discriminate)].
Defined.






(* ================================================================= *)
(** ** Help text *)

(** X23 — The command list of the help text names, in table order, the
    commands that are valid under the mask, and no alias: an alias is
    shown only in the alias note of the command it stands for. *)
Theorem help_lists_applicable_commands {T : Type} `{EnumId T} :
  forall (cmds : list (StringInfo T)) (mask : Z) (alias : string),
  map help_line_name (ConCommandsHelp_loop cmds mask alias)
  = map (fun c => Some (name c))
      (filter (fun c => negb (is_alias c) && has_bits (req c) mask) cmds).
Proof.
  induction cmds as [|c rest IH]; intros mask alias;
    cbn [ConCommandsHelp_loop filter map]; [reflexivity|].
  destruct (is_alias c); cbn [negb andb]; [apply IH|].
  destruct (has_bits (req c) mask); cbn [negb]; [|apply IH].
  cbn [map help_line_name]. f_equal. apply IH.
Qed.

(* ================================================================= *)
(** ** Other console commands *)

Lemma append_snoc : forall a c s,
  append (append a (String c EmptyString)) s = append a (String c s).
Proof. induction a as [|x a IH]; intros c s; simpl; [reflexivity | now rewrite IH]. Qed.

Lemma append_empty_r : forall a, append a EmptyString = a.
Proof. induction a as [|x a IH]; simpl; [reflexivity | now rewrite IH]. Qed.

Lemma PrintLineByLine_from_line : forall s line rest,
  has_char newline s = false ->
  PrintLineByLine_from line (append s (String newline rest))
  = IConsolePrintF "%s" [PS (append line s)] :: PrintLineByLine_from EmptyString rest.
Proof.
  induction s as [|c s IH]; intros line rest N; cbn [append PrintLineByLine_from].
  - rewrite Ascii.eqb_refl, append_empty_r. reflexivity.
  - cbn [has_char] in N. apply orb_false_iff in N as [N1 N2].
    rewrite N1, (@IH _ _ N2), append_snoc. reflexivity.
Qed.

Lemma PrintLineByLine_from_tail : forall s line,
  has_char newline s = false -> PrintLineByLine_from line s = [].
Proof.
  induction s as [|c s IH]; intros line N; cbn [PrintLineByLine_from]; [reflexivity|].
  cbn [has_char] in N. apply orb_false_iff in N as [N1 N2].
  rewrite N1. apply IH. exact N2.
Qed.

(** X24 — [PrintLineByLine] prints the lines of the buffer that are closed
    by a newline, in order and without the newline, one console line each;
    text behind the last newline is not printed. *)
Theorem print_line_by_line_lines :
  forall (lines : list string) (rest : string),
  Forall (fun l => has_char newline l = false) lines ->
  has_char newline rest = false ->
  PrintLineByLine (append (join_lines lines) rest)
  = map (fun l => IConsolePrintF "%s" [PS l]) lines.
Proof.
  intros lines rest F R. unfold PrintLineByLine.
  induction F as [|l ls Hl _ IH]; cbn [join_lines map append].
  - apply PrintLineByLine_from_tail. exact R.
  - assert (A : forall a b c, append (append a b) c = append a (append b c)).
    { induction a as [|x a IHa]; intros; simpl; [reflexivity | now rewrite IHa]. }
    rewrite A. cbn [append]. rewrite (@PrintLineByLine_from_line l _ _ Hl), IH.
    reflexivity.
Qed.

Lemma print_line_by_line_lines_witness :
  PrintLineByLine (append (join_lines ["one"; ""; "three"]) "left over")
  = map (fun l => IConsolePrintF "%s" [PS l]) ["one"; ""; "three"].
Proof.
  apply (@print_line_by_line_lines ["one"; ""; "three"] "left over");
    [repeat constructor | reflexivity].
Defined.

Ltac name_facts :=
  repeat match goal with
         | H : (strcasecmp ?s ?n =? 0) = true |- _ =>
             apply Z.eqb_eq in H; apply stricmp_zero_lower in H
         | H : (strcasecmp ?s ?n =? 0) = false |- _ =>
             apply Z.eqb_neq in H; rewrite stricmp_zero_lower in H
         end.

(** X25 — [StringToContentType] returns the number [i] of the first six
    content types exactly for the strings that equal the [i]-th name
    ([base], [newgrf], [ai], [ailib], [scenario], [heightmap]) ignoring
    case, and [CONTENT_TYPE_END] for every other string; it never returns
    0, nor one of the types 7 to 10. *)
Theorem content_type_of_string :
  forall str : string,
  (StringToContentType str = CONTENT_TYPE_END \/ 1 <= StringToContentType str <= 6)
  /\ (forall i : nat, (1 <= i <= 6)%nat ->
        (StringToContentType str = Z.of_nat i <->
         lower str = lower (nth i inv_lookup EmptyString))).
Proof.
  intro str. unfold StringToContentType, CONTENT_TYPE_END.
  cbn [inv_lookup tl StringToContentType_from].
  destruct (strcasecmp str "base" =? 0) eqn:E1;
    [|destruct (strcasecmp str "newgrf" =? 0) eqn:E2;
      [|destruct (strcasecmp str "ai" =? 0) eqn:E3;
        [|destruct (strcasecmp str "ailib" =? 0) eqn:E4;
          [|destruct (strcasecmp str "scenario" =? 0) eqn:E5;
            [|destruct (strcasecmp str "heightmap" =? 0) eqn:E6]]]]];
    name_facts;
    set (L := lower str) in *; clearbody L;
    unfold CONTENT_TYPE_END;
    (split; [lia|]);
    intros i Hi;
    do 7 (destruct i as [|i];
          [try lia; vm_compute in *; split; intro X;
           first [reflexivity | discriminate X | congruence]|]);
    lia.
Qed.

Lemma content_type_of_string_witness :
  StringToContentType "NewGRF" = Z.of_nat 2 <->
  lower "NewGRF" = lower (nth 2 inv_lookup EmptyString).
Proof.
  apply (proj2 (content_type_of_string "NewGRF") 2%nat). lia.
Defined.

(** X26 — The console hooks.  A hook asked without echo prints nothing; its
    decision does not depend on the echo; asked with echo it prints one
    error exactly when it disallows.  No state lets both the server-only
    and the client-only hook allow, and what either allows the network
    hook allows only if a game is running over the network. *)
Theorem hooks_decide_without_echo :
  forall net : Network,
  Forall (fun h =>
            snd (h net false) = []
            /\ fst (h net true) = fst (h net false)
            /\ (fst (h net true) = CHR_DISALLOW <->
                exists msg, snd (h net true) = [IConsoleError msg])
            /\ (fst (h net true) <> CHR_DISALLOW -> snd (h net true) = []))
    hooks
  /\ ~ (fst (ConHookServerOnly net false) = CHR_ALLOW
        /\ fst (ConHookClientOnly net false) = CHR_ALLOW)
  /\ (fst (ConHookNeedNetwork net false) = CHR_ALLOW ->
      networking net = true
      /\ (fst (ConHookServerOnly net false) = CHR_ALLOW
          \/ fst (ConHookClientOnly net false) = CHR_ALLOW)).
Proof.
  intro net. unfold hooks.
  split; [|split].
  - repeat (apply Forall_cons); [..|apply Forall_nil];
      unfold ConHookServerOnly, ConHookClientOnly, ConHookNeedNetwork,
        ConHookNewGRFDeveloperTool, ConHookNoNetwork, NetworkAvailable, echo_error;
      destruct (network_available net), (network_server net), (networking net),
        (client_connected net), (newgrf_developer_tools net), (game_mode_menu net);
      cbn;
      (split; [reflexivity|
       split; [reflexivity|
       split; [split;
               [intro X; first [discriminate X | eexists; reflexivity]
               |intros [msg X]; first [discriminate X | reflexivity]]
              |intro X; first [reflexivity | exfalso; apply X; reflexivity]]]]).
  - unfold ConHookServerOnly, ConHookClientOnly, NetworkAvailable, echo_error.
    destruct (network_available net), (network_server net); cbn;
      intros [A B]; discriminate.
  - unfold ConHookServerOnly, ConHookClientOnly, ConHookNeedNetwork,
      NetworkAvailable, echo_error.
    destruct (network_available net), (network_server net), (networking net),
      (client_connected net); cbn; intro A; try discriminate A; auto.
Qed.

Lemma hooks_decide_without_echo_witness :
  networking (mkNetwork true true true false false false 0 (fun _ => false)
                (fun _ => 0) (fun _ => 0) []) = true
  /\ (fst (ConHookServerOnly
             (mkNetwork true true true false false false 0 (fun _ => false)
                (fun _ => 0) (fun _ => 0) []) false) = CHR_ALLOW
      \/ fst (ConHookClientOnly
                (mkNetwork true true true false false false 0 (fun _ => false)
                   (fun _ => 0) (fun _ => 0) []) false) = CHR_ALLOW).
Proof.
  apply (proj2 (proj2 (hooks_decide_without_echo
                         (mkNetwork true true true false false false 0 (fun _ => false)
                            (fun _ => 0) (fun _ => 0) [])))).
  reflexivity.
Defined.

(** X27 — Tile commands.  [ConScrollToTile] scrolls only to a tile that
    passed its bound check: the tile number given alone is below the map
    size, the two coordinates are below the map's width and height; it
    returns false exactly when the number of arguments is wrong or an
    argument is not a number, and then does nothing.  [ConResetTile] has no
    such check: every number it parses is cleared. *)
Theorem tile_commands_bounds :
  forall (env : Env) (map_ : MapInfo) (argv : list string),
  (forall t,
     In (Console (ScrollMainWindowToTile t)) (snd (ConScrollToTile env map_ argv)) ->
     (argc_of argv = 2 /\ GetArgumentInteger env (arg argv 1) = Some t
      /\ t < MapSize map_)
     \/ (argc_of argv = 3 /\ exists x y,
           GetArgumentInteger env (arg argv 1) = Some x
           /\ GetArgumentInteger env (arg argv 2) = Some y
           /\ x < MapSizeX map_ /\ y < MapSizeY map_ /\ t = TileXY map_ x y))
  /\ (fst (ConScrollToTile env map_ argv) = false -> snd (ConScrollToTile env map_ argv) = [])
  /\ (forall n, argc_of argv = 2 -> GetArgumentInteger env (arg argv 1) = Some n ->
        ConResetTile env argv = (true, [DoClearSquare n])).
Proof.
  intros env map_ argv. split; [|split].
  - intros t. unfold ConScrollToTile.
    destruct (argc_of argv) as [|[[p|p|]|[p|p|]|]|p]; cbn [snd In];
      try (intro X; contradiction);
      try (intros [X|[X|[X|X]]]; first [discriminate X | contradiction]).
    + destruct (GetArgumentInteger env (arg argv 1)) as [x|];
        [|intro X; contradiction].
      destruct (GetArgumentInteger env (arg argv 2)) as [y|];
        [|intro X; contradiction].
      destruct ((x >=? MapSizeX map_) || (y >=? MapSizeY map_)) eqn:B; cbn [snd In].
      * intros [X|X]; [discriminate X | contradiction].
      * intros [X|X]; [|contradiction]. injection X as <-.
        apply orb_false_iff in B as [B1 B2].
        right. split; [reflexivity|]. exists x, y.
        repeat split; try reflexivity; lia.
    + destruct (GetArgumentInteger env (arg argv 1)) as [x|];
        [|intro X; contradiction].
      destruct (x >=? MapSize map_) eqn:B; cbn [snd In].
      * intros [X|X]; [discriminate X | contradiction].
      * intros [X|X]; [|contradiction]. injection X as <-.
        left. repeat split; try reflexivity; lia.
  - unfold ConScrollToTile.
    destruct (argc_of argv) as [|[[p|p|]|[p|p|]|]|p]; cbn [fst snd];
      try reflexivity; try discriminate.
    + destruct (GetArgumentInteger env (arg argv 1)) as [x|]; [|reflexivity].
      destruct (GetArgumentInteger env (arg argv 2)) as [y|]; [|reflexivity].
      destruct ((x >=? MapSizeX map_) || (y >=? MapSizeY map_)); discriminate.
    + destruct (GetArgumentInteger env (arg argv 1)) as [x|]; [|reflexivity].
      destruct (x >=? MapSize map_); discriminate.
  - intros n A G. unfold ConResetTile. rewrite A, G. reflexivity.
Qed.

Lemma tile_commands_bounds_witness :
  ConResetTile Demo.env ["resettile"; "4000000000"] = (true, [DoClearSquare 4000000000]).
Proof.
  apply (proj2 (proj2 (tile_commands_bounds Demo.env (mkMap 16 4 4 (fun x y => y * 4 + x))
                         ["resettile"; "4000000000"])));
    reflexivity.
Defined.

(** X28 — [ConScreenShot] with at least one token takes exactly one
    screenshot unless it returns false, which it does exactly for more
    than three tokens and for three tokens whose second is none of [big],
    [giant], [no_con]; it then does nothing.  The console is closed only
    for [no_con]. *)
Theorem screenshot_is_taken_once :
  forall argv : list string,
  argv <> [] ->
  (fst (ConScreenShot argv) = false <->
   3 < argc_of argv
   \/ (argc_of argv = 3 /\ arg argv 1 <> "big" /\ arg argv 1 <> "giant"
       /\ arg argv 1 <> "no_con"))
  /\ (fst (ConScreenShot argv) = false -> snd (ConScreenShot argv) = [])
  /\ (fst (ConScreenShot argv) = true ->
      exists ty name_,
        (snd (ConScreenShot argv) = [MakeScreenshot ty name_]
         /\ arg argv 1 <> "no_con")
        \/ (snd (ConScreenShot argv) = [IConsoleClose; MakeScreenshot ty name_]
            /\ arg argv 1 = "no_con" /\ ty = SC_VIEWPORT)).
Proof.
  intros argv NE.
  assert (P : 1 <= argc_of argv).
  { destruct argv; [contradiction|]. unfold argc_of. cbn [List.length].
    rewrite Nat2Z.inj_succ. lia. }
  unfold ConScreenShot.
  assert (Z0 : (argc_of argv =? 0) = false) by (apply Z.eqb_neq; lia).
  rewrite Z0.
  destruct (argc_of argv >? 3) eqn:G3.
  { cbn [fst snd]. split; [|split]; try reflexivity; try discriminate.
    split; [intros _; left; lia | reflexivity]. }
  destruct (argc_of argv >? 1) eqn:G1.
  2:{ cbn [fst snd]. split; [|split]; try discriminate.
      - split; [discriminate | intros [X | [X _]]; lia].
      - intros _. exists SC_VIEWPORT, None. left. split; [reflexivity|].
        assert (A1 : argc_of argv = 1) by lia.
        destruct argv as [|a0 [|a1 r]]; [contradiction | discriminate |].
        unfold argc_of in A1. cbn [List.length] in A1. lia. }
  unfold strcmp_eq.
  destruct (String.eqb_spec (arg argv 1) "big") as [B1|B1].
  { cbn [fst snd]. split; [|split]; try discriminate.
    - split; [discriminate | intros [X | [_ [X _]]]; [lia | contradiction]].
    - intros _. eexists _, _. left. split; [reflexivity|]. rewrite B1. discriminate. }
  destruct (String.eqb_spec (arg argv 1) "giant") as [B2|B2].
  { cbn [fst snd]. split; [|split]; try discriminate.
    - split; [discriminate | intros [X | [_ [_ [X _]]]]; [lia | contradiction]].
    - intros _. eexists _, _. left. split; [reflexivity|]. rewrite B2. discriminate. }
  destruct (String.eqb_spec (arg argv 1) "no_con") as [B3|B3].
  { cbn [fst snd]. split; [|split]; try discriminate.
    - split; [discriminate | intros [X | [_ [_ [_ X]]]]; [lia | contradiction]].
    - intros _. eexists _, _. right. split; [reflexivity|]. split; [exact B3 | reflexivity]. }
  destruct (argc_of argv =? 2) eqn:E2.
  { cbn [fst snd]. split; [|split]; try discriminate.
    - split; [discriminate | intros [X | [X _]]; lia].
    - intros _. eexists _, _. left. split; [reflexivity | exact B3]. }
  cbn [fst snd]. split; [|split]; try reflexivity; try discriminate.
  split; [|reflexivity]. intros _. right. repeat split; try assumption. lia.
Qed.

Lemma screenshot_is_taken_once_witness :
  fst (ConScreenShot ["screenshot"; "huge"; "shot"]) = false <->
  3 < argc_of ["screenshot"; "huge"; "shot"]
  \/ (argc_of ["screenshot"; "huge"; "shot"] = 3
      /\ arg ["screenshot"; "huge"; "shot"] 1 <> "big"
      /\ arg ["screenshot"; "huge"; "shot"] 1 <> "giant"
      /\ arg ["screenshot"; "huge"; "shot"] 1 <> "no_con").
Proof.
  apply (proj1 (@screenshot_is_taken_once ["screenshot"; "huge"; "shot"]
                  ltac:(discriminate))).
Defined.

Ltac effect_cases X :=
  repeat match type of X with
         | _ \/ _ => destruct X as [X|X]
         | In _ (if ?c then _ else _) => destruct c; cbn [In] in X
         | In _ _ => progress cbn [fst snd In] in X
         | False => contradiction
         | _ = _ => first [discriminate X | fail 1]
         end.

(** X29 — Kicking and banning by client number.  [ConKickOrBan] always
    returns true.  It kicks or bans a client by number only when the
    argument holds neither a dot nor a colon, the number is the one [atoi]
    reads there, it is neither the server's nor that of the client whose
    remote console runs the command, and a client of that number exists;
    the plain kick is used only when not banning.  [ConKick] and [ConBan]
    return false without effect unless they get exactly one argument. *)
Theorem kick_spares_server_and_caller :
  forall (net : Network) (argv1 : string) (ban : bool),
  fst (ConKickOrBan net argv1 ban) = true
  /\ (forall id,
        (In (NetworkServerKickClient id) (snd (ConKickOrBan net argv1 ban))
         \/ exists b,
              In (NetworkServerKickOrBanClient id b) (snd (ConKickOrBan net argv1 ban))) ->
        id = atoi argv1 /\ id <> CLIENT_ID_SERVER
        /\ id <> redirect_console_to_client net
        /\ client_exists net id = true
        /\ has_char "." argv1 = false /\ has_char ":" argv1 = false)
  /\ (forall id,
        In (NetworkServerKickClient id) (snd (ConKickOrBan net argv1 ban)) ->
        ban = false)
  /\ (forall argv, argc_of argv <> 0 -> argc_of argv <> 2 ->
        ConKick net argv = (false, []) /\ ConBan net argv = (false, [])).
Proof.
  intros net argv1 ban.
  assert (K : forall argv, argc_of argv <> 0 -> argc_of argv <> 2 ->
                ConKick net argv = (false, []) /\ ConBan net argv = (false, [])).
  { intros argv A B. unfold ConKick, ConBan.
    apply Z.eqb_neq in A, B. rewrite A, B. split; reflexivity. }
  unfold ConKickOrBan. cbv zeta.
  destruct (has_char "." argv1) eqn:Hd; destruct (has_char ":" argv1) eqn:Hc;
    cbn [negb andb].
  4:{ destruct ((atoi argv1 =? CLIENT_ID_SERVER)
                || (atoi argv1 =? redirect_console_to_client net)) eqn:G.
      { cbn [fst snd]. split; [reflexivity|]. split; [|split; [|exact K]].
        - intros id [X | [b X]]; effect_cases X.
        - intros id X. effect_cases X. }
      apply orb_false_iff in G as [G1 G2]. apply Z.eqb_neq in G1, G2.
      destruct (client_exists net (atoi argv1)) eqn:Ex; cbn [negb].
      2:{ cbn [fst snd]. split; [reflexivity|]. split; [|split; [|exact K]].
          - intros id [X | [b X]]; effect_cases X.
          - intros id X. effect_cases X. }
      destruct ban; cbn [negb fst snd].
      - split; [reflexivity|]. split; [|split; [|exact K]].
        + intros id [X | [b X]]; effect_cases X.
          all: injection X; intros; subst.
          all: split; [reflexivity|]; split; [exact G1|]; split; [exact G2|];
            split; [exact Ex|]; split; reflexivity.
        + intros id X. effect_cases X.
      - split; [reflexivity|]. split; [|split; [|exact K]].
        + intros id [X | [b X]]; effect_cases X.
          all: injection X; intros; subst.
          all: split; [reflexivity|]; split; [exact G1|]; split; [exact G2|];
            split; [exact Ex|]; split; reflexivity.
        + reflexivity. }
  all: cbn [fst snd]; split; [reflexivity|]; split; [|split; [|exact K]];
    [ intros id [X | [b X]]; effect_cases X
    | intros id X; effect_cases X ].
Qed.

Lemma kick_spares_server_and_caller_witness :
  5 = atoi "5" /\ 5 <> CLIENT_ID_SERVER
  /\ 5 <> redirect_console_to_client
            (mkNetwork true true true false false false 0 (fun _ => true)
               (fun _ => 1) (fun _ => 0) [])
  /\ client_exists
       (mkNetwork true true true false false false 0 (fun _ => true)
          (fun _ => 1) (fun _ => 0) []) 5 = true
  /\ has_char "." "5" = false /\ has_char ":" "5" = false.
Proof.
  apply (proj1 (proj2 (kick_spares_server_and_caller
                         (mkNetwork true true true false false false 0 (fun _ => true)
                            (fun _ => 1) (fun _ => 0) []) "5" false)) 5).
  left. left. reflexivity.
Defined.

Lemma ban_list_find_spec : forall ip bans index,
  index <= ban_list_find ip index bans <= index + Z.of_nat (List.length bans)
  /\ (ban_list_find ip index bans < index + Z.of_nat (List.length bans) ->
      nth (Z.to_nat (ban_list_find ip index bans - index)) bans EmptyString = ip)
  /\ (ban_list_find ip index bans = index + Z.of_nat (List.length bans) ->
      ~ In ip bans)
  /\ (forall j, (j < Z.to_nat (ban_list_find ip index bans - index))%nat ->
        nth j bans EmptyString <> ip).
Proof.
  induction bans as [|b rest IH]; intro index; cbn [ban_list_find List.length].
  - change (Z.of_nat 0) with 0. split; [lia|]. split; [intro L; lia|].
    split; [intros _ X; exact X|]. intros j L. lia.
  - rewrite Nat2Z.inj_succ. unfold strcmp_eq.
    destruct (String.eqb_spec b ip) as [E|N].
    + split; [lia|]. split; [|split; [intro L; lia|intros j L; lia]].
      intros _. rewrite Z.sub_diag. exact E.
    + destruct (IH (index + 1)) as [R [F [G B]]].
      assert (S1 : Z.to_nat (ban_list_find ip (index + 1) rest - index)
                   = S (Z.to_nat (ban_list_find ip (index + 1) rest - (index + 1))))
        by lia.
      split; [lia|]. split; [|split].
      * intro L. rewrite S1. cbn [nth]. apply F. lia.
      * intros L [X|X]; [contradiction|]. apply G; [lia | exact X].
      * intros j L. rewrite S1 in L. destruct j as [|j]; cbn [nth]; [exact N|].
        apply B. lia.
Qed.

(** X30 — [ConUnBan] erases only an entry of the ban list, and one entry
    at most.  The index it erases is below the length of the list; it is
    the place of the first entry equal to the argument (no entry before it
    equals the argument) or, when no entry equals the argument, the number
    [atoi] reads there minus one, as an unsigned 32-bit number; the command
    then prints the entry and returns true.  The argument "0", like every
    text that [atoi] reads as 0, therefore wraps to an index that no list
    reaches, and nothing is erased. *)
Theorem unban_erases_listed_entry :
  forall (net : Network) (argv : list string),
  (forall i,
     In (BanListErase i) (snd (ConUnBan net argv)) ->
     0 <= i < Z.of_nat (List.length (network_ban_list net))
     /\ ((nth (Z.to_nat i) (network_ban_list net) EmptyString = arg argv 1
          /\ forall j, (j < Z.to_nat i)%nat ->
                       nth j (network_ban_list net) EmptyString <> arg argv 1)
         \/ (~ In (arg argv 1) (network_ban_list net)
             /\ i = u32 (atoi (arg argv 1) - 1)))
     /\ ConUnBan net argv
        = (true,
           [IConsolePrint CC_DEFAULT
              (take 63 (append "Unbanned "
                          (nth (Z.to_nat i) (network_ban_list net) EmptyString)));
            BanListErase i]))
  /\ (Z.of_nat (List.length (network_ban_list net)) < 2 ^ 32 ->
      atoi (arg argv 1) = 0 -> ~ In (arg argv 1) (network_ban_list net) ->
      forall i, ~ In (BanListErase i) (snd (ConUnBan net argv))).
Proof.
  intros net argv.
  destruct (ban_list_find_spec (arg argv 1) (network_ban_list net) 0) as [R [F [G B]]].
  rewrite Z.add_0_l in R, F, G. rewrite Z.sub_0_r in F.
  assert (B' : forall j,
            (j < Z.to_nat (ban_list_find (arg argv 1) 0 (network_ban_list net)))%nat ->
            nth j (network_ban_list net) EmptyString <> arg argv 1).
  { intros j L. apply B. rewrite Z.sub_0_r. exact L. }
  clear B.
  split.
  - intros i. unfold ConUnBan.
    destruct (argc_of argv =? 0); [intro X; effect_cases X|].
    destruct (negb (argc_of argv =? 2)); [intro X; effect_cases X|].
    cbv zeta.
    destruct (ban_list_find (arg argv 1) 0 (network_ban_list net)
              >=? Z.of_nat (List.length (network_ban_list net))) eqn:Ge.
    + destruct (u32 (atoi (arg argv 1) - 1)
                <? Z.of_nat (List.length (network_ban_list net))) eqn:Lt;
        cbn [snd In]; intro X; effect_cases X.
      injection X as <-. apply Z.ltb_lt in Lt.
      assert (0 <= u32 (atoi (arg argv 1) - 1)).
      { unfold u32. apply Z.mod_pos_bound. lia. }
      split; [lia|]. split; [|reflexivity].
      right. split; [apply G; lia | reflexivity].
    + destruct (ban_list_find (arg argv 1) 0 (network_ban_list net)
                <? Z.of_nat (List.length (network_ban_list net))) eqn:Lt;
        cbn [snd In]; intro X; effect_cases X.
      injection X as <-. apply Z.ltb_lt in Lt.
      split; [lia|]. split; [|reflexivity].
      left. split; [apply F; exact Lt | exact B'].
  - intros Bd A N i. unfold ConUnBan.
    destruct (argc_of argv =? 0); [intro X; effect_cases X|].
    destruct (negb (argc_of argv =? 2)); [intro X; effect_cases X|].
    cbv zeta.
    assert (Ge : (ban_list_find (arg argv 1) 0 (network_ban_list net)
                  >=? Z.of_nat (List.length (network_ban_list net))) = true).
    { apply Z.geb_le.
      destruct (Z.eq_dec (ban_list_find (arg argv 1) 0 (network_ban_list net))
                  (Z.of_nat (List.length (network_ban_list net)))) as [E|E]; [lia|].
      exfalso. apply N. rewrite <- (F ltac:(lia)). apply nth_In. lia. }
    rewrite Ge, A.
    assert (Lt : (u32 (0 - 1) <? Z.of_nat (List.length (network_ban_list net))) = false).
    { apply Z.ltb_ge. change (u32 (0 - 1)) with (2 ^ 32 - 1). lia. }
    rewrite Lt. cbn [snd In]. intro X. effect_cases X.
Qed.

(** A ban list that holds the address twice: the first of the two places
    is erased. *)
Lemma unban_erases_listed_entry_witness :
  0 <= 1 < Z.of_nat (List.length ["10.0.0.1"; "10.0.0.2"; "10.0.0.2"])
  /\ ((nth (Z.to_nat 1) ["10.0.0.1"; "10.0.0.2"; "10.0.0.2"] EmptyString = "10.0.0.2"
       /\ forall j, (j < Z.to_nat 1)%nat ->
                    nth j ["10.0.0.1"; "10.0.0.2"; "10.0.0.2"] EmptyString <> "10.0.0.2")
      \/ (~ In "10.0.0.2" ["10.0.0.1"; "10.0.0.2"; "10.0.0.2"]
          /\ 1 = u32 (atoi "10.0.0.2" - 1)))
  /\ ConUnBan (mkNetwork true true true false false false 0 (fun _ => true)
                 (fun _ => 1) (fun _ => 0) ["10.0.0.1"; "10.0.0.2"; "10.0.0.2"])
       ["unban"; "10.0.0.2"]
     = (true,
        [IConsolePrint CC_DEFAULT
           (take 63 (append "Unbanned "
                       (nth (Z.to_nat 1) ["10.0.0.1"; "10.0.0.2"; "10.0.0.2"]
                          EmptyString)));
         BanListErase 1]).
Proof.
  apply (proj1 (unban_erases_listed_entry
                  (mkNetwork true true true false false false 0 (fun _ => true)
                     (fun _ => 1) (fun _ => 0) ["10.0.0.1"; "10.0.0.2"; "10.0.0.2"])
                  ["unban"; "10.0.0.2"]) 1).
  right. left. reflexivity.
Defined.
